(** * Verification of the object cache and the timer scheduler of cpp-sdk

    The development embeds [src/utils/DataCache.cpp] and
    [src/utils/TimerPool.cpp] as Rocq functions and proves the properties
    the specification states about them.

    - [std::string] is [string] (a sequence of bytes);
    - [unsigned int] is a [Z] reduced modulo [2^32] after each operation;
    - [double] is the kernel's binary64 [float], with its IEEE comparison;
    - [std::map<std::string, CacheItem>] is a [gmap string CacheItem]; a
      loop over the map visits its entries in ascending order of the keys,
      as the iterators of a [std::map] do;
    - the file system and the clock are an explicit [World] the operations
      read and update; an exception of a [boost::filesystem] call is an
      outcome the world decides;
    - a weak pointer to a timer is an address into a heap of the timers
      that are still alive; the calls on the queue lock and the condition
      variable are recorded as a trace, the threads themselves are not
      modelled. *)

From Stdlib Require Import ZArith Floats String Ascii List Lia.
From Stdlib Require OrderedTypeEx.
From Stdlib Require Import Sorted.
From stdpp Require Import gmap strings list fin_maps.

Local Open Scope Z_scope.

(** ** Unsigned 32-bit arithmetic *)

Definition UINT_MOD : Z := 2 ^ 32.

(** Conversion to [unsigned int]: reduction modulo [2^32]. *)
Definition to_uint (z : Z) : Z := z mod UINT_MOD.

(** ** StringUtil *)

Module StringUtil.

(** Modelled from the spec: [StringUtil::Replace] is declared in
    [StringUtil.h], whose implementation is not among the sources.  The spec
    says of its only use, [Replace(id, "/", "_")], that it "normalizes [id]
    by replacing path separators with underscores": every occurrence of the
    one-character pattern is replaced. *)
Fixpoint Replace (s : string) (a_Find a_Replace : ascii) : string :=
  match s with
  | EmptyString => EmptyString
  | String ch rest =>
      String (if Ascii.eqb ch a_Find then a_Replace else ch)
             (Replace rest a_Find a_Replace)
  end.

(** [contains s ch]: the byte [ch] occurs in [s]. *)
Fixpoint contains (s : string) (ch : ascii) : bool :=
  match s with
  | EmptyString => false
  | String c rest => Ascii.eqb c ch || contains rest ch
  end.

End StringUtil.

(** The cache's key normalisation, [StringUtil::Replace( id, "/", "_" )]. *)
Definition sanitize (a_ID : string) : string :=
  StringUtil.Replace a_ID "/"%char "_"%char.

(** ** The environment: file system and clock *)

(** What one step of a [fs::directory_iterator] yields, as far as
    [Initialize] looks at it.  [None] in [de_mtime] or [de_size] stands for
    [fs::last_write_time] or [fs::file_size] throwing. *)
Record DirEntry : Type := mkDirEntry {
  de_path : string;          (** [p->path()] *)
  de_stem : string;          (** [p->path().stem()] *)
  de_regular : bool;         (** [fs::is_regular_file( p->status() )] *)
  de_mtime : option float;   (** [fs::last_write_time(path)] as epoch time *)
  de_size : option Z         (** [fs::file_size(path)] *)
}.

(** The calls the cache makes on the file system, in order. *)
Inductive FsEvent : Type :=
  | EvCreateDirectories (path : string)
  | EvRemove (path : string)
  | EvWrite (path : string) (data : string)
  | EvRead (path : string).

Record World : Type := mkWorld {
  w_now : float;                           (** [Time().GetEpochTime()] *)
  w_dirs : gset string;                    (** paths [fs::is_directory] accepts *)
  w_listing : gmap string (list DirEntry); (** directory contents *)
  w_files : gmap string string;            (** readable files and their bytes *)
  w_mkdir_throws : gset string;            (** [fs::create_directories] throws *)
  w_remove_throws : gset string;           (** [fs::remove] throws *)
  w_write_fails : gset string;             (** the [ofstream] cannot write *)
  w_log : list FsEvent                     (** calls made so far *)
}.

Definition log_event (e : FsEvent) (w : World) : World :=
  mkWorld (w_now w) (w_dirs w) (w_listing w) (w_files w) (w_mkdir_throws w)
          (w_remove_throws w) (w_write_fails w) (w_log w ++ [e]).

Definition set_files (f : gmap string string) (w : World) : World :=
  mkWorld (w_now w) (w_dirs w) (w_listing w) f (w_mkdir_throws w)
          (w_remove_throws w) (w_write_fails w) (w_log w).

Definition set_dirs (d : gset string) (w : World) : World :=
  mkWorld (w_now w) d (w_listing w) (w_files w) (w_mkdir_throws w)
          (w_remove_throws w) (w_write_fails w) (w_log w).

(** [fs::is_directory( path )]. *)
Definition fs_is_directory (path : string) (w : World) : bool :=
  bool_decide (path ∈ w_dirs w).

(** [fs::create_directories( path )]; [None] when it throws. *)
Definition fs_create_directories (path : string) (w : World) : option World :=
  if bool_decide (path ∈ w_mkdir_throws w) then None
  else Some (log_event (EvCreateDirectories path)
               (set_dirs ({[ path ]} ∪ w_dirs w) w)).

(** [fs::remove( path )]; [None] when it throws.  Removing a file that does
    not exist is not an error. *)
Definition fs_remove (path : string) (w : World) : option World :=
  if bool_decide (path ∈ w_remove_throws w) then None
  else Some (log_event (EvRemove path) (set_files (delete path (w_files w)) w)).

(** [std::ofstream output( path ); output << data; output.close();].  A
    stream that cannot be opened or written sets its fail bit and writes
    nothing; no exception is raised. *)
Definition fs_write (path data : string) (w : World) : World :=
  log_event (EvWrite path data)
    (if bool_decide (path ∈ w_write_fails w) then w
     else set_files (<[ path := data ]> (w_files w)) w).

(** Reading a whole file through [std::ifstream]; a stream that cannot be
    opened yields no bytes. *)
Definition fs_read (path : string) (w : World) : string * World :=
  (default EmptyString (w_files w !! path), log_event (EvRead path) w).

(** The entries a [fs::directory_iterator] over [path] enumerates. *)
Definition fs_list (path : string) (w : World) : list DirEntry :=
  default [] (w_listing w !! path).

(** ** DataCache *)

Module DataCache.

(** [DataCache::CacheItem].  The struct is declared in [DataCache.h]; its
    fields and their types are read off their uses in [DataCache.cpp]. *)
Record CacheItem : Type := mkCacheItem {
  m_Id : string;
  m_Path : string;
  m_Time : float;
  m_Size : Z;          (** [unsigned int] *)
  m_bLoaded : bool;
  m_Data : string
}.

(** Modelled from the spec: the default constructor of [CacheItem] belongs to
    [DataCache.h], which is not among the sources.  The spec says entries
    made by the directory scan "start unloaded"; sizes and times start at
    zero, strings empty. *)
Definition CacheItem_new : CacheItem :=
  mkCacheItem EmptyString EmptyString 0%float 0 false EmptyString.

Definition set_Id (v : string) (i : CacheItem) : CacheItem :=
  mkCacheItem v (m_Path i) (m_Time i) (m_Size i) (m_bLoaded i) (m_Data i).
Definition set_Path (v : string) (i : CacheItem) : CacheItem :=
  mkCacheItem (m_Id i) v (m_Time i) (m_Size i) (m_bLoaded i) (m_Data i).
Definition set_Time (v : float) (i : CacheItem) : CacheItem :=
  mkCacheItem (m_Id i) (m_Path i) v (m_Size i) (m_bLoaded i) (m_Data i).
Definition set_Size (v : Z) (i : CacheItem) : CacheItem :=
  mkCacheItem (m_Id i) (m_Path i) (m_Time i) v (m_bLoaded i) (m_Data i).
Definition set_bLoaded (v : bool) (i : CacheItem) : CacheItem :=
  mkCacheItem (m_Id i) (m_Path i) (m_Time i) (m_Size i) v (m_Data i).
Definition set_Data (v : string) (i : CacheItem) : CacheItem :=
  mkCacheItem (m_Id i) (m_Path i) (m_Time i) (m_Size i) (m_bLoaded i) v.

(** The members of [class DataCache]. *)
Record t : Type := mkCache {
  m_bInitialized : bool;
  m_CachePath : string;
  m_MaxCacheSize : Z;        (** [unsigned int] *)
  m_MaxCacheAge : float;
  m_Cache : gmap string CacheItem;
  m_CurrentCacheSize : Z     (** [unsigned int] *)
}.

(** [DataCache::DataCache()]. *)
Definition create : t := mkCache false EmptyString 0 0%float ∅ 0.

Definition set_Cache (m : gmap string CacheItem) (c : t) : t :=
  mkCache (m_bInitialized c) (m_CachePath c) (m_MaxCacheSize c)
          (m_MaxCacheAge c) m (m_CurrentCacheSize c).
Definition set_CurrentCacheSize (n : Z) (c : t) : t :=
  mkCache (m_bInitialized c) (m_CachePath c) (m_MaxCacheSize c)
          (m_MaxCacheAge c) (m_Cache c) n.

(** [std::string::size()], a [size_t]. *)
Definition str_size (s : string) : Z := Z.of_nat (String.length s).

(** *** Loops over the index *)

(** [insert_entry kv l]: the entry [kv] put before the first entry of [l]
    whose key is greater.  [std::string] compares byte by byte, and a
    proper prefix is less. *)
Fixpoint insert_entry (kv : string * CacheItem) (l : list (string * CacheItem))
  : list (string * CacheItem) :=
  match l with
  | [] => [kv]
  | x :: l' =>
      if String.ltb kv.1 x.1 then kv :: x :: l' else x :: insert_entry kv l'
  end.

(** The entries a loop from [m_Cache.begin()] to [m_Cache.end()] visits, in
    the order it visits them: a [std::map] is iterated in ascending order
    of its keys. *)
Definition in_key_order (m : gmap string CacheItem) : list (string * CacheItem) :=
  foldr insert_entry [] (map_to_list m).

(** *** Flush *)

Definition Flush (a_ID : string) (w : World) (c : t) : bool * World * t :=
  let id := sanitize a_ID in
  match m_Cache c !! id with
  | Some item =>
      match fs_remove (m_Path item) w with
      | None => (false, w, c)
      | Some w' =>
          (true, w',
           set_Cache (delete id (m_Cache c))
             (set_CurrentCacheSize
                (to_uint (m_CurrentCacheSize c - m_Size item)) c))
      end
  | None => (false, w, c)
  end.

(** *** FlushAged *)

(** [(now.GetEpochTime() - item.m_Time) / 3600.0]. *)
Definition age_hours (now : float) (item : CacheItem) : float :=
  PrimFloat.div (PrimFloat.sub now (m_Time item)) 3600%float.

(** [age > m_MaxCacheAge]. *)
Definition is_aged (now maxAge : float) (item : CacheItem) : bool :=
  PrimFloat.ltb maxAge (age_hours now item).

(** One round of the second loop of [FlushAged]: [bFlushed |= Flush( id )]. *)
Definition flush_step (acc : bool * World * t) (id : string) : bool * World * t :=
  let '(bFlushed, w, c) := acc in
  let '(r, w', c') := Flush id w c in
  (bFlushed || r, w', c').

(** The list [flush] the first loop of [FlushAged] builds. *)
Definition aged_ids (now : float) (c : t) : list string :=
  (λ kv : string * CacheItem, m_Id kv.2)
    <$> List.filter (λ kv : string * CacheItem, is_aged now (m_MaxCacheAge c) kv.2)
          (in_key_order (m_Cache c)).

Definition FlushAged (w : World) (c : t) : bool * World * t :=
  let now := w_now w in
  foldl flush_step (false, w, c) (aged_ids now c).

(** *** FlushOldest *)

(** One round of the scan of [FlushOldest]; [pOldest] is [None] for [NULL]. *)
Definition oldest_step (pOldest : option CacheItem) (kv : string * CacheItem)
  : option CacheItem :=
  match pOldest with
  | None => Some kv.2
  | Some o => if PrimFloat.ltb (m_Time kv.2) (m_Time o) then Some kv.2 else Some o
  end.

Definition find_oldest (c : t) : option CacheItem :=
  foldl oldest_step None (in_key_order (m_Cache c)).

Definition FlushOldest (w : World) (c : t) : bool * World * t :=
  match find_oldest c with
  | Some pOldest => Flush (m_Id pOldest) w c
  | None => (false, w, c)
  end.

(** *** FlushAll *)

(** One round of the loop of [FlushAll]: an exception of [fs::remove] is
    logged and the loop goes on. *)
Definition remove_step (w : World) (kv : string * CacheItem) : World :=
  default w (fs_remove (m_Path kv.2) w).

Definition FlushAll (w : World) (c : t) : bool * World * t :=
  let w' := foldl remove_step w (in_key_order (m_Cache c)) in
  (true, w', set_Cache ∅ (set_CurrentCacheSize 0 c)).

(** *** Uninitialize *)

Definition Uninitialize (c : t) : t :=
  mkCache false (m_CachePath c) (m_MaxCacheSize c) (m_MaxCacheAge c) ∅ 0.

(** *** Find *)

(** The result is the item [Find] points to, [None] for [NULL]. *)
Definition Find (a_ID : string) (w : World) (c : t)
  : option CacheItem * World * t :=
  let id := sanitize a_ID in
  match m_Cache c !! id with
  | Some pItem =>
      if m_bLoaded pItem then (Some pItem, w, c)
      else
        let '(data, w') := fs_read (m_Path pItem) w in
        let item1 := set_bLoaded true (set_Data data pItem) in
        if bool_decide (str_size data ≠ m_Size item1) then
          let cur :=
            if bool_decide (str_size data > m_Size item1)
            then to_uint (m_CurrentCacheSize c + (str_size data - m_Size item1))
            else to_uint (m_CurrentCacheSize c - (m_Size item1 - str_size data)) in
          let item2 := set_Size (to_uint (str_size data)) item1 in
          (Some item2, w',
           set_Cache (<[ id := item2 ]> (m_Cache c)) (set_CurrentCacheSize cur c))
        else
          (Some item1, w', set_Cache (<[ id := item1 ]> (m_Cache c)) c)
  | None => (None, w, c)
  end.

(** *** Save *)

(** The loop [while( m_CurrentCacheSize > m_MaxCacheSize ) FlushOldest();].
    The result of [FlushOldest] is ignored.  [None]: the loop is still
    running after [fuel] rounds. *)
Fixpoint evict (fuel : nat) (w : World) (c : t) : option (World * t) :=
  if bool_decide (m_CurrentCacheSize c > m_MaxCacheSize c) then
    match fuel with
    | O => None
    | S fuel' =>
        let '(_, w', c') := FlushOldest w c in
        evict fuel' w' c'
    end
  else Some (w, c).

(** The part of [Save] after the old object is out of the way. *)
Definition store (id a_Data : string) (w : World) (c : t) : World * t :=
  let item0 := default CacheItem_new (m_Cache c !! id) in
  let item :=
    set_Data a_Data
      (set_bLoaded true
         (set_Size (to_uint (str_size a_Data))
            (set_Time (w_now w)
               (set_Id id
                  (set_Path (m_CachePath c ++ id ++ ".bytes")%string item0))))) in
  let w' := fs_write (m_Path item) a_Data w in
  (w', set_Cache (<[ id := item ]> (m_Cache c))
         (set_CurrentCacheSize (to_uint (m_CurrentCacheSize c + m_Size item)) c)).

Definition Save (fuel : nat) (a_ID a_Data : string) (w : World) (c : t)
  : option (bool * World * t) :=
  let id := sanitize a_ID in
  let '(flushed, w1, c1) :=
    if bool_decide (is_Some (m_Cache c !! id)) then Flush id w c
    else (true, w, c) in
  if flushed then
    let '(w2, c2) := store id a_Data w1 c1 in
    match evict fuel w2 c2 with
    | Some (w3, c3) => Some (true, w3, c3)
    | None => None
    end
  else Some (false, w1, c1).

(** *** Initialize *)

(** The body of the scan loop for one directory entry. *)
Definition scan_entry (c : t) (p : DirEntry) : t :=
  if de_regular p then
    let id := de_stem p in
    let item0 := default CacheItem_new (m_Cache c !! id) in
    let item1 := set_Path (de_path p) (set_Id id item0) in
    match de_mtime p with
    | None => set_Cache (<[ id := item1 ]> (m_Cache c)) c
    | Some time =>
        let item2 := set_Time time item1 in
        match de_size p with
        | None => set_Cache (<[ id := item2 ]> (m_Cache c)) c
        | Some sz =>
            let item3 := set_Size (to_uint sz) item2 in
            set_Cache (<[ id := item3 ]> (m_Cache c))
              (set_CurrentCacheSize
                 (to_uint (m_CurrentCacheSize c + m_Size item3)) c)
        end
    end
  else c.

Definition Initialize (a_CachePath : string) (maxCacheSize : Z)
    (maxCacheAge : float) (w : World) (c : t) : bool * World * t :=
  let c1 := mkCache true a_CachePath maxCacheSize maxCacheAge
                    (m_Cache c) (m_CurrentCacheSize c) in
  let created :=
    if fs_is_directory a_CachePath w then Some w
    else fs_create_directories a_CachePath w in
  match created with
  | None => (false, w, c1)
  | Some w1 =>
      let c2 := set_Cache ∅ (set_CurrentCacheSize 0 c1) in
      let c3 := foldl scan_entry c2 (fs_list (m_CachePath c2) w1) in
      let '(_, w2, c4) := FlushAged w1 c3 in
      (true, w2, c4)
  end.

(** *** Operations in sequence *)









(** *** Specification predicates *)

(** The sum of [m_Size] over the entries of the index. *)
Definition size_sum (m : gmap string CacheItem) : Z :=
  map_fold (λ (_ : string) (item : CacheItem) (acc : Z), m_Size item + acc) 0 m.

(** The running total is the sum of the sizes, as an [unsigned int]. *)
Definition size_inv (c : t) : Prop :=
  m_CurrentCacheSize c = to_uint (size_sum (m_Cache c)).

(** Every entry is indexed under its own [m_Id], and keys are sanitized. *)
Definition keys_ok (c : t) : Prop :=
  ∀ k item, m_Cache c !! k = Some item → m_Id item = k ∧ sanitize k = k.

(** [keys_ok], as a test over the entries of the index. *)
Definition keys_okb (c : t) : bool :=
  forallb (λ kv : string * CacheItem,
             String.eqb (m_Id kv.2) kv.1 && String.eqb (sanitize kv.1) kv.1)
          (map_to_list (m_Cache c)).

(** No backing file of an indexed entry makes [fs::remove] throw. *)
Definition removable (w : World) (c : t) : Prop :=
  ∀ k item, m_Cache c !! k = Some item → m_Path item ∉ w_remove_throws w.

(** [flushable w c k]: an entry is indexed under [k] and its backing file
    can be deleted. *)
Definition flushable (w : World) (c : t) (k : string) : Prop :=
  ∃ item, m_Cache c !! k = Some item ∧ m_Path item ∉ w_remove_throws w.

(** What [Save] leaves under the key [k], for as long as the key stays:
    a loaded entry holding [data]. *)
Definition holds (k data : string) (c : t) : Prop :=
  m_Cache c !! k = None
  ∨ ∃ item, m_Cache c !! k = Some item
            ∧ m_bLoaded item = true ∧ m_Data item = data.

(** Every entry but the one under [k] is strictly older than [now]. *)
Definition others_older (now : float) (k : string) (c : t) : Prop :=
  ∀ j item, m_Cache c !! j = Some item → j ≠ k →
            PrimFloat.ltb (m_Time item) now = true.

(** The entry under [k] was saved at [now] and fits the cache by itself;
    the other entries are older; sizes add up; ids are keys. *)
Definition newest_fits (now : float) (k : string) (c : t) : Prop :=
  size_inv c ∧ keys_ok c ∧ others_older now k c
  ∧ ∃ item, m_Cache c !! k = Some item ∧ m_Time item = now
            ∧ 0 ≤ m_Size item ≤ m_MaxCacheSize c
            ∧ m_Size item < UINT_MOD.

(** The regular files of a listing have stems without a separator. *)
Definition stems_ok (l : list DirEntry) : Prop :=
  ∀ p, p ∈ l → de_regular p = true → sanitize (de_stem p) = de_stem p.

(** The stems of the regular files of a listing. *)
Definition regular_stems (l : list DirEntry) : list string :=
  de_stem <$> List.filter de_regular l.

(** The files the log says were written, with their bytes. *)
Fixpoint written (log : list FsEvent) : list (string * string) :=
  match log with
  | [] => []
  | EvWrite path data :: log' => (path, data) :: written log'
  | _ :: log' => written log'
  end.

(** The last byte of [s] is the separator. *)
Fixpoint ends_with_sep (s : string) : bool :=
  match s with
  | EmptyString => false
  | String ch EmptyString => Ascii.eqb ch "/"%char
  | String _ rest => ends_with_sep rest
  end.

(** [path] names the file [name] directly under the directory [dir]. *)
Definition file_in_directory (dir name path : string) : bool :=
  negb (StringUtil.contains name "/"%char)
  && (String.eqb path (dir ++ "/" ++ name)%string
      || (ends_with_sep dir && String.eqb path (dir ++ name)%string)).

(** *** More specification predicates *)

(** The entry the scan of [Initialize] makes for a directory entry whose
    stem is not indexed yet. *)
Definition scanned (p : DirEntry) : CacheItem :=
  match de_mtime p with
  | None => mkCacheItem (de_stem p) (de_path p) 0%float 0 false EmptyString
  | Some time =>
      match de_size p with
      | None => mkCacheItem (de_stem p) (de_path p) time 0 false EmptyString
      | Some sz =>
          mkCacheItem (de_stem p) (de_path p) time (to_uint sz) false EmptyString
      end
  end.

(** The regular file of a listing whose stem is [k], if there is one. *)
Definition regular_file (k : string) (l : list DirEntry) : option DirEntry :=
  List.find (λ p : DirEntry, de_regular p && String.eqb (de_stem p) k) l.

(** Some entry of the index has [path] as its backing file. *)
Definition backs (c : t) (path : string) : Prop :=
  ∃ k item, m_Cache c !! k = Some item ∧ m_Path item = path.

(** No entry of the index is strictly older than [item]. *)
Definition oldest (c : t) (item : CacheItem) : Prop :=
  ∀ j q, m_Cache c !! j = Some q → PrimFloat.ltb (m_Time q) (m_Time item) = false.

(** No entry has a negative size. *)
Definition sizes_ok (c : t) : Prop :=
  ∀ k item, m_Cache c !! k = Some item → 0 ≤ m_Size item.

End DataCache.

(** ** TimerPool *)

Module TimerPool.

(** The minimum amount of time for a recurring timer: the [double] nearest
    to [0.01]. *)
Definition MIN_INTERVAL_TIME : float := 0x1.47ae147ae147bp-7%float.

(** The members of [ITimer] that [TimerPool.cpp] reads and writes.
    [m_NextSignal] is a [Time]; it is kept as its epoch time. *)
Record ITimer : Type := mkTimer {
  m_NextSignal : float;
  m_Interval : float;
  m_Recurring : bool;
  m_InvokeOnMain : bool
}.

Definition set_NextSignal (v : float) (tm : ITimer) : ITimer :=
  mkTimer v (m_Interval tm) (m_Recurring tm) (m_InvokeOnMain tm).

(** An [ITimer::WP] is the address of a timer.  The timers their owners
    still hold are the domain of the heap: [h !! p] is what [lock()] gives on
    the weak pointer, [None] once the owner has released the timer. *)
Abbreviation Heap := (gmap nat ITimer).

(** Calls on [m_TimerQueueLock] and [m_WakeTimer]. *)
Inductive SyncEvent : Type :=
  | EvLock
  | EvUnlock
  | EvNotifyOne.

(** Work handed to the [ThreadPool]. *)
Inductive Dispatch : Type :=
  | InvokeOnMain (p : nat)
  | InvokeOnThread (p : nat).

Definition dispatch_target (d : Dispatch) : nat :=
  match d with InvokeOnMain p | InvokeOnThread p => p end.

(** The scan of [InsertTimer] over [m_TimerQueue] for the timer [a_pTimer]
    whose next signal is [next].  Result: the queue after the loop,
    [bInserted] and [bNewFirstTimer]. *)
Fixpoint insert_loop (h : Heap) (next : float) (a_pTimer : nat)
    (queue : list nat) (bNewFirstTimer : bool) : list nat * bool * bool :=
  match queue with
  | [] => ([], false, bNewFirstTimer)
  | iTimer :: rest =>
      match h !! iTimer with
      | None =>
          let '(rest', bInserted, first) :=
            insert_loop h next a_pTimer rest bNewFirstTimer in
          (iTimer :: rest', bInserted, first)
      | Some spTimer =>
          if PrimFloat.ltb next (m_NextSignal spTimer)
          then (a_pTimer :: iTimer :: rest, true, bNewFirstTimer)
          else
            let '(rest', bInserted, first) :=
              insert_loop h next a_pTimer rest false in
            (iTimer :: rest', bInserted, first)
      end
  end.

(** [TimerPool::InsertTimer].  The shared pointer [a_pTimer] is the address
    [p] together with the timer [tm] it points to.  Result: the new queue
    and the calls made on the lock and the condition variable. *)
Definition InsertTimer (h : Heap) (queue : list nat) (p : nat) (tm : ITimer)
    (a_bNewTimer : bool) : list nat * list SyncEvent :=
  let '(queue1, bInserted, bNewFirstTimer) :=
    insert_loop h (m_NextSignal tm) p queue true in
  let queue2 := if bInserted then queue1 else queue1 ++ [p] in
  (queue2,
   (if a_bNewTimer then [EvLock] else [])
   ++ (if bNewFirstTimer && a_bNewTimer then [EvNotifyOne] else [])
   ++ (if a_bNewTimer then [EvUnlock] else [])).

(** What the timer thread works on. *)
Record Pool : Type := mkPool {
  heap : Heap;
  m_TimerQueue : list nat;
  dispatched : list Dispatch;    (** work handed out so far *)
  sync : list SyncEvent          (** calls on the lock so far *)
}.

(** The interval a recurring timer is rescheduled with. *)
Definition recur_interval (tm : ITimer) : float :=
  let fInterval := m_Interval tm in
  if PrimFloat.ltb fInterval MIN_INTERVAL_TIME then MIN_INTERVAL_TIME
  else fInterval.

(** One round of the loop [while( true )] of [TimerThread], which drains
    the timers that are due at [now].  [None] is [break]. *)
Definition drain_step (now : float) (s : Pool) : option Pool :=
  match m_TimerQueue s with
  | [] => None
  | front :: rest =>
      match heap s !! front with
      | None => Some (mkPool (heap s) rest (dispatched s) (sync s))
      | Some spTimer =>
          if PrimFloat.ltb now (m_NextSignal spTimer) then None
          else
            let work :=
              if m_InvokeOnMain spTimer then InvokeOnMain front
              else InvokeOnThread front in
            if m_Recurring spTimer then
              let spTimer' :=
                set_NextSignal
                  (PrimFloat.add (m_NextSignal spTimer) (recur_interval spTimer))
                  spTimer in
              let h' := <[ front := spTimer' ]> (heap s) in
              let '(queue', evs) := InsertTimer h' rest front spTimer' false in
              Some (mkPool h' queue' (dispatched s ++ [work]) (sync s ++ evs))
            else
              Some (mkPool (heap s) rest (dispatched s ++ [work]) (sync s))
      end
  end.

(** The drain loop; the flag tells whether it reached its [break] within
    [fuel] rounds. *)
Fixpoint drain (fuel : nat) (now : float) (s : Pool) : bool * Pool :=
  match fuel with
  | O => (false, s)
  | S fuel' =>
      match drain_step now s with
      | None => (true, s)
      | Some s' => drain fuel' now s'
      end
  end.

(** *** Specification predicates *)

(** The next-signal times of the timers of the queue that are still alive,
    in queue order. *)
Definition signal_times (h : Heap) (queue : list nat) : list float :=
  omap (λ p : nat, m_NextSignal <$> h !! p) queue.

(** No time of the list is strictly less than one before it. *)
Fixpoint ascending (ts : list float) : Prop :=
  match ts with
  | [] => True
  | t :: ts' => Forall (λ u : float, PrimFloat.ltb u t = false) ts' ∧ ascending ts'
  end.

(** The queue is in ascending order of next-signal time. *)
Definition queue_sorted (h : Heap) (queue : list nat) : Prop :=
  ascending (signal_times h queue).

(** [not_later h t x]: the timer [x] is gone, or its next signal is not
    strictly greater than [t]. *)
Definition not_later (h : Heap) (t : float) (x : nat) : Prop :=
  ∀ tx, h !! x = Some tx → PrimFloat.ltb t (m_NextSignal tx) = false.

(** [later_head h t l]: [l] is empty, or its first timer is alive and its
    next signal is strictly greater than [t]. *)
Definition later_head (h : Heap) (t : float) (l : list nat) : Prop :=
  match l with
  | [] => True
  | x :: _ => ∃ tx, h !! x = Some tx ∧ PrimFloat.ltb t (m_NextSignal tx) = true
  end.

(** The timers handed to the [ThreadPool], in the order of the calls. *)
Definition fired (s : Pool) : list nat := dispatch_target <$> dispatched s.

(** [fires_after a b l]: in the list of fired timers, each firing of [b]
    comes after a firing of [a]. *)
Definition fires_after (a b : nat) (l : list nat) : Prop :=
  ∀ pre post, l = pre ++ b :: post → a ∈ pre.

(** The greater of two [double]s, as [std::max] computes it. *)
Definition fmax (a b : float) : float := if PrimFloat.ltb a b then b else a.

(** [precedes a b queue]: going through the queue from the front, [a] is
    met and [b] is not met before it. *)
Fixpoint precedes (a b : nat) (queue : list nat) : Prop :=
  match queue with
  | [] => False
  | x :: rest => x = a ∨ (x ≠ b ∧ precedes a b rest)
  end.

(** What the drain loop keeps: [b] has not fired before [a], and as long as
    [a] has not fired it is alive and ahead of [b] in the queue. *)
Definition order_inv (a b : nat) (s : Pool) : Prop :=
  fires_after a b (fired s)
  ∧ (a ∈ fired s ∨ (is_Some (heap s !! a) ∧ precedes a b (m_TimerQueue s))).

(** *** StopTimer and StopAllTimers *)

(** The loop of [StopTimer] over [m_TimerQueue]: the first entry whose
    [lock()] is the timer [a_spTimer] is erased.  [None]: no entry matches.
    An expired entry locks to a null pointer and matches no timer. *)
Fixpoint stop_loop (h : Heap) (a_spTimer : nat) (queue : list nat)
  : option (list nat) :=
  match queue with
  | [] => None
  | iTimer :: rest =>
      match h !! iTimer with
      | Some _ =>
          if bool_decide (iTimer = a_spTimer) then Some rest
          else cons iTimer <$> stop_loop h a_spTimer rest
      | None => cons iTimer <$> stop_loop h a_spTimer rest
      end
  end.

(** [TimerPool::StopTimer].  [a_spTimer] is [None] for a null pointer.  The
    [lock_guard] takes the queue lock first and gives it back on return. *)
Definition StopTimer (h : Heap) (queue : list nat) (a_spTimer : option nat)
  : bool * list nat * list SyncEvent :=
  match a_spTimer with
  | None => (false, queue, [EvLock; EvUnlock])
  | Some p =>
      match stop_loop h p queue with
      | Some queue' => (true, queue', [EvLock; EvUnlock])
      | None => (false, queue, [EvLock; EvUnlock])
      end
  end.

(** [TimerPool::StopAllTimers]. *)
Definition StopAllTimers (queue : list nat) : list nat * list SyncEvent :=
  ([], [EvLock; EvUnlock]).

(** The weak pointer [x] has expired. *)
Definition expired (h : Heap) (x : nat) : bool :=
  match h !! x with
  | Some _ => false
  | None => true
  end.

(** The number of entries of the queue that point to [p]. *)
Definition entries (p : nat) (queue : list nat) : nat :=
  count_occ Nat.eq_dec queue p.

(** The next signal of the timer is a number. *)
Definition is_number (t : float) : Prop := PrimFloat.eqb t t = true.

End TimerPool.

(** ** Concrete caches and worlds *)

Module Scenario.
Import DataCache.

(** A world at time [now] with no files, where no call fails. *)
Definition quiet_world (now : float) : World :=
  mkWorld now ∅ ∅ ∅ ∅ ∅ ∅ [].

(** A world at time [now] where [fs::remove] throws for [path]. *)
Definition locked_world (now : float) (path : string) : World :=
  mkWorld now ∅ ∅ ∅ ∅ {[ path ]} ∅ [].

(** A world at time [now] where the file [path] cannot be written. *)
Definition readonly_world (now : float) (path : string) : World :=
  mkWorld now ∅ ∅ ∅ ∅ ∅ {[ path ]} [].

(** A world where [path] is not a directory and cannot be created. *)
Definition nodir_world (now : float) (path : string) : World :=
  mkWorld now ∅ ∅ ∅ {[ path ]} ∅ ∅ [].

(** A world whose directory [dir] lists [entries]. *)
Definition listed_world (now : float) (dir : string) (entries : list DirEntry)
  : World :=
  mkWorld now {[ dir ]} {[ dir := entries ]} ∅ ∅ ∅ ∅ [].

(** The entry [Save] makes for the key [id] under the directory [dir]. *)
Definition saved_item (dir id : string) (time : float) (data : string)
  : CacheItem :=
  mkCacheItem id (dir ++ id ++ ".bytes")%string time
              (to_uint (str_size data)) true data.

(** An initialized cache over [dir] holding the entries [items]. *)
Definition cache_of (dir : string) (maxSize : Z) (maxAge : float)
    (items : list CacheItem) : t :=
  mkCache true dir maxSize maxAge
    (list_to_map ((λ i : CacheItem, (m_Id i, i)) <$> items))
    (to_uint (foldr (λ (i : CacheItem) (acc : Z), m_Size i + acc) 0 items)).

(** A one-shot timer due at [next], run on a worker thread. *)
Definition one_shot (next : float) : TimerPool.ITimer :=
  TimerPool.mkTimer next 0 false false.

(** A recurring timer due at [next], run on the main thread. *)
Definition recurring (next interval : float) : TimerPool.ITimer :=
  TimerPool.mkTimer next interval true true.

End Scenario.

(** * Theorems *)

(** ** The comparison of [double] *)

Lemma SFltb_trans x y z :
  SFltb x y = true → SFltb y z = true → SFltb x z = true.
Proof.
  unfold SFltb, SFcompare.
  destruct x as [sx|sx| |sx mx ex], y as [sy|sy| |sy my ey],
           z as [sz|sz| |sz mz ez];
    try discriminate;
    try (destruct sx, sy;
         (discriminate || (try destruct sz; (discriminate || reflexivity || idtac))));
    try (destruct sx; discriminate || (destruct sz; discriminate || reflexivity));
    try (destruct sy; discriminate || (destruct sz; discriminate || reflexivity)).
  all: change (Pos.compare_cont Eq) with Pos.compare.
  all: destruct (Z.compare_spec ex ey), (Z.compare_spec ey ez),
         (Z.compare_spec ex ez);
    try discriminate; try reflexivity; try lia.
  all: subst.
  all: destruct (Pos.compare_spec mx my), (Pos.compare_spec my mz),
         (Pos.compare_spec mx mz);
    simpl; try discriminate; try reflexivity; try lia.
Qed.

Lemma SFltb_irrefl x : SFltb x x = false.
Proof.
  unfold SFltb, SFcompare.
  destruct x as [s|s| |s m e]; try reflexivity; try (by destruct s).
  change (Pos.compare_cont Eq) with Pos.compare.
  destruct s; rewrite Z.compare_refl, Pos.compare_refl; reflexivity.
Qed.

(** [<] on [double] is transitive and irreflexive, NaN included. *)
Lemma float_ltb_trans (x y z : float) :
  PrimFloat.ltb x y = true → PrimFloat.ltb y z = true → PrimFloat.ltb x z = true.
Proof. rewrite !ltb_spec. apply SFltb_trans. Qed.

Lemma float_ltb_irrefl (x : float) : PrimFloat.ltb x x = false.
Proof. rewrite ltb_spec. apply SFltb_irrefl. Qed.

Lemma float_ltb_asym (x y : float) :
  PrimFloat.ltb x y = true → PrimFloat.ltb y x = false.
Proof.
  intros H. destruct (PrimFloat.ltb y x) eqn:E; [|reflexivity].
  pose proof (float_ltb_trans _ _ _ H E) as H'. by rewrite float_ltb_irrefl in H'.
Qed.

Module DataCacheSpec.
Import DataCache.

(** ** Key normalisation *)

Lemma Replace_idempotent (s : string) (a b : ascii) :
  a ≠ b →
  StringUtil.Replace (StringUtil.Replace s a b) a b = StringUtil.Replace s a b.
Proof.
  intros Hab. induction s as [|ch s IH]; simpl; [reflexivity|].
  rewrite IH. f_equal.
  destruct (Ascii.eqb ch a) eqn:E; [|by rewrite E].
  destruct (Ascii.eqb b a) eqn:E'; [|reflexivity].
  apply Ascii.eqb_eq in E'. congruence.
Qed.

Lemma sanitize_idempotent (a_ID : string) :
  sanitize (sanitize a_ID) = sanitize a_ID.
Proof. apply Replace_idempotent. discriminate. Qed.

Lemma sanitize_no_separator (a_ID : string) :
  StringUtil.contains (sanitize a_ID) "/"%char = false.
Proof.
  unfold sanitize. induction a_ID as [|ch s IH]; simpl; [reflexivity|].
  rewrite IH, orb_false_r.
  destruct (Ascii.eqb ch "/"%char) eqn:E; [reflexivity | exact E].
Qed.

Lemma contains_app (s1 s2 : string) (ch : ascii) :
  StringUtil.contains (s1 ++ s2)%string ch
  = StringUtil.contains s1 ch || StringUtil.contains s2 ch.
Proof.
  induction s1 as [|c s1 IH]; simpl; [reflexivity|].
  by rewrite IH, orb_assoc.
Qed.

(** ** Unsigned arithmetic *)

Lemma to_uint_add_l (a b : Z) : to_uint (to_uint a + b) = to_uint (a + b).
Proof. unfold to_uint. apply Zplus_mod_idemp_l. Qed.

Lemma to_uint_add_r (a b : Z) : to_uint (a + to_uint b) = to_uint (a + b).
Proof. unfold to_uint. apply Zplus_mod_idemp_r. Qed.

Lemma to_uint_sub_l (a b : Z) : to_uint (to_uint a - b) = to_uint (a - b).
Proof. unfold to_uint. apply Zminus_mod_idemp_l. Qed.

Lemma to_uint_range (a : Z) : 0 ≤ to_uint a < UINT_MOD.
Proof. unfold to_uint. apply Z.mod_pos_bound. reflexivity. Qed.

(** ** The sum of the sizes *)

Lemma size_sum_empty : size_sum ∅ = 0.
Proof. unfold size_sum. apply map_fold_empty. Qed.

Lemma size_sum_insert_fresh (m : gmap string CacheItem) k item :
  m !! k = None → size_sum (<[ k := item ]> m) = m_Size item + size_sum m.
Proof.
  intros Hk. unfold size_sum.
  rewrite map_fold_insert_L; [reflexivity | | exact Hk].
  intros; lia.
Qed.

Lemma size_sum_delete (m : gmap string CacheItem) k item :
  m !! k = Some item → size_sum (delete k m) = size_sum m - m_Size item.
Proof.
  intros Hk. rewrite <- (insert_delete_id m k item Hk) at 2.
  rewrite size_sum_insert_fresh by apply lookup_delete_eq. lia.
Qed.

Lemma size_sum_insert (m : gmap string CacheItem) k item :
  size_sum (<[ k := item ]> m)
  = size_sum m - from_option m_Size 0 (m !! k) + m_Size item.
Proof.
  destruct (m !! k) as [old|] eqn:Hk; simpl.
  - rewrite <- insert_delete_eq.
    rewrite size_sum_insert_fresh by apply lookup_delete_eq.
    rewrite (size_sum_delete m k old Hk). lia.
  - rewrite size_sum_insert_fresh by exact Hk. lia.
Qed.

(** ** Flush *)

Lemma fs_remove_throws_same path w w' :
  fs_remove path w = Some w' → w_remove_throws w' = w_remove_throws w.
Proof.
  unfold fs_remove. case_bool_decide; [discriminate|].
  intros [= <-]. reflexivity.
Qed.

Lemma fs_remove_written path w w' :
  fs_remove path w = Some w' → written (w_log w') = written (w_log w).
Proof.
  unfold fs_remove. case_bool_decide; [discriminate|].
  intros [= <-]. simpl. induction (w_log w) as [|e l IH]; simpl; [reflexivity|].
  destruct e; simpl; congruence.
Qed.

Lemma fs_remove_None path w :
  fs_remove path w = None ↔ path ∈ w_remove_throws w.
Proof.
  unfold fs_remove. case_bool_decide; split; try done.
Qed.

(** The outcomes of [Flush], by cases. *)
Lemma Flush_cases a_ID w c :
  (m_Cache c !! sanitize a_ID = None ∧ Flush a_ID w c = (false, w, c))
  ∨ (∃ item, m_Cache c !! sanitize a_ID = Some item
       ∧ fs_remove (m_Path item) w = None ∧ Flush a_ID w c = (false, w, c))
  ∨ (∃ item w', m_Cache c !! sanitize a_ID = Some item
       ∧ fs_remove (m_Path item) w = Some w'
       ∧ Flush a_ID w c =
           (true, w',
            set_Cache (delete (sanitize a_ID) (m_Cache c))
              (set_CurrentCacheSize
                 (to_uint (m_CurrentCacheSize c - m_Size item)) c))).
Proof.
  unfold Flush.
  destruct (m_Cache c !! sanitize a_ID) as [item|] eqn:Hk; [|by left].
  destruct (fs_remove (m_Path item) w) as [w'|] eqn:Hr; right; [right|left]; eauto.
Qed.

Lemma Flush_size_inv a_ID w c :
  size_inv c → size_inv (Flush a_ID w c).2.
Proof.
  intros Hinv.
  destruct (Flush_cases a_ID w c) as [[_ ->]|[(item & _ & _ & ->)|(item & w' & Hk & _ & ->)]];
    simpl; try exact Hinv.
  unfold size_inv in *; simpl.
  rewrite (size_sum_delete _ _ _ Hk), Hinv. apply to_uint_sub_l.
Qed.

Lemma Flush_keys_ok a_ID w c :
  keys_ok c → keys_ok (Flush a_ID w c).2.
Proof.
  intros Hok.
  destruct (Flush_cases a_ID w c) as [[_ ->]|[(item & _ & _ & ->)|(item & w' & Hk & _ & ->)]];
    simpl; try exact Hok.
  intros k it Hit; simpl in Hit.
  apply lookup_delete_Some in Hit as [_ Hit]. by apply Hok.
Qed.

Lemma Flush_removable a_ID w c :
  removable w c → removable (Flush a_ID w c).1.2 (Flush a_ID w c).2.
Proof.
  intros Hrm.
  destruct (Flush_cases a_ID w c) as [[_ ->]|[(item & _ & _ & ->)|(item & w' & Hk & Hr & ->)]];
    simpl; try exact Hrm.
  intros k it Hit; simpl in Hit.
  apply lookup_delete_Some in Hit as [_ Hit].
  rewrite (fs_remove_throws_same _ _ _ Hr). by eapply Hrm.
Qed.

Lemma Flush_lookup a_ID w c k :
  m_Cache (Flush a_ID w c).2 !! k = None
  ∨ m_Cache (Flush a_ID w c).2 !! k = m_Cache c !! k.
Proof.
  destruct (Flush_cases a_ID w c) as [[_ ->]|[(item & _ & _ & ->)|(item & w' & Hk & Hr & ->)]];
    simpl; auto.
  destruct (decide (sanitize a_ID = k)) as [->|Hne].
  - left. apply lookup_delete_eq.
  - right. by apply lookup_delete_ne.
Qed.

Lemma Flush_written a_ID w c :
  written (w_log (Flush a_ID w c).1.2) = written (w_log w).
Proof.
  destruct (Flush_cases a_ID w c) as [[_ ->]|[(item & _ & _ & ->)|(item & w' & Hk & Hr & ->)]];
    simpl; auto.
  by eapply fs_remove_written.
Qed.

Lemma Flush_config a_ID w c :
  m_MaxCacheSize (Flush a_ID w c).2 = m_MaxCacheSize c
  ∧ m_MaxCacheAge (Flush a_ID w c).2 = m_MaxCacheAge c
  ∧ m_CachePath (Flush a_ID w c).2 = m_CachePath c
  ∧ w_now (Flush a_ID w c).1.2 = w_now w
  ∧ w_remove_throws (Flush a_ID w c).1.2 = w_remove_throws w.
Proof.
  destruct (Flush_cases a_ID w c) as [[_ ->]|[(item & _ & _ & ->)|(item & w' & Hk & Hr & ->)]];
    simpl; auto.
  repeat split; try reflexivity.
  - revert Hr. unfold fs_remove. case_bool_decide; [discriminate|]. by intros [= <-].
  - by eapply fs_remove_throws_same.
Qed.

(** ** Loops over the index *)

Lemma insert_entry_perm kv l : insert_entry kv l ≡ₚ kv :: l.
Proof.
  induction l as [|x l IH]; simpl; [reflexivity|].
  destruct (String.ltb kv.1 x.1); [reflexivity|].
  rewrite IH. apply Permutation_swap.
Qed.

Lemma in_key_order_perm (m : gmap string CacheItem) :
  in_key_order m ≡ₚ map_to_list m.
Proof.
  unfold in_key_order. induction (map_to_list m) as [|kv l IH]; simpl;
    [reflexivity|].
  by rewrite insert_entry_perm, IH.
Qed.

Lemma elem_of_in_key_order (m : gmap string CacheItem) k item :
  (k, item) ∈ in_key_order m ↔ m !! k = Some item.
Proof. rewrite in_key_order_perm. apply elem_of_map_to_list. Qed.

Lemma in_key_order_empty : in_key_order ∅ = [].
Proof. unfold in_key_order. by rewrite map_to_list_empty. Qed.

Lemma in_key_order_empty_iff (m : gmap string CacheItem) :
  in_key_order m = [] ↔ m = ∅.
Proof.
  rewrite <- map_to_list_empty_iff. split; intros H.
  - apply Permutation_nil_r. by rewrite <- in_key_order_perm, H.
  - apply Permutation_nil_r. by rewrite in_key_order_perm, H.
Qed.

Lemma String_ltb_trans a b c :
  String.ltb a b = true → String.ltb b c = true → String.ltb a c = true.
Proof.
  unfold String.ltb. intros Hab Hbc.
  destruct (String.compare a b) eqn:Eab; try discriminate.
  destruct (String.compare b c) eqn:Ebc; try discriminate.
  apply OrderedTypeEx.String_as_OT.cmp_lt in Eab, Ebc.
  pose proof (OrderedTypeEx.String_as_OT.lt_trans _ _ _ Eab Ebc) as Hac.
  apply OrderedTypeEx.String_as_OT.cmp_lt in Hac.
  unfold OrderedTypeEx.String_as_OT.cmp in Hac. by rewrite Hac.
Qed.

Lemma String_ltb_total a b :
  String.ltb a b = false → a ≠ b → String.ltb b a = true.
Proof.
  unfold String.ltb. rewrite (String.compare_antisym a b).
  destruct (String.compare b a) eqn:E; simpl; try done.
  apply String.compare_eq_iff in E. congruence.
Qed.

Lemma insert_entry_sorted kv l :
  StronglySorted (λ a b : string * CacheItem, String.ltb a.1 b.1 = true) l →
  Forall (λ x : string * CacheItem, x.1 ≠ kv.1) l →
  StronglySorted (λ a b : string * CacheItem, String.ltb a.1 b.1 = true)
                 (insert_entry kv l).
Proof.
  induction 1 as [|x l Hs IH Hx]; intros Hne; simpl.
  - repeat constructor.
  - apply Forall_cons in Hne as [Hxk Hne].
    destruct (String.ltb kv.1 x.1) eqn:Hlt.
    + constructor; [by constructor|]. constructor; [exact Hlt|].
      eapply Forall_impl; [exact Hx|]. intros y Hy. simpl in Hy.
      by eapply String_ltb_trans.
    + constructor; [by apply IH|].
      rewrite insert_entry_perm. constructor; [|exact Hx].
      apply String_ltb_total; [exact Hlt|congruence].
Qed.

(** The loop visits the entries in strictly ascending order of the keys. *)
Lemma in_key_order_sorted (m : gmap string CacheItem) :
  StronglySorted (λ a b : string * CacheItem, String.ltb a.1 b.1 = true)
                 (in_key_order m).
Proof.
  unfold in_key_order.
  pose proof (NoDup_fst_map_to_list m) as Hnd.
  induction (map_to_list m) as [|kv l IH]; simpl; [constructor|].
  rewrite fmap_cons in Hnd. apply NoDup_cons in Hnd as [Hkv Hnd].
  apply insert_entry_sorted; [by apply IH|].
  apply Forall_forall. intros x Hx Heq. apply Hkv.
  apply list_elem_of_fmap. exists x. split; [done|].
  revert Hx. clear. induction l as [|y l IH]; simpl; [done|].
  rewrite insert_entry_perm. intros [->|Hx]%elem_of_cons; [left|right; auto].
Qed.

(** ** FlushOldest *)

Lemma oldest_fold_member l acc o :
  foldl oldest_step acc l = Some o →
  acc = Some o ∨ ∃ kv, kv ∈ l ∧ kv.2 = o.
Proof.
  revert acc. induction l as [|kv l IH]; intros acc H; simpl in H; [by left|].
  apply IH in H as [H|(kv' & Hin & <-)].
  - unfold oldest_step in H. destruct acc as [a|].
    + destruct (PrimFloat.ltb _ _); injection H as <-; [right|by left].
      exists kv. split; [left|reflexivity].
    + injection H as <-. right. exists kv. split; [left|reflexivity].
  - right. exists kv'. split; [by right|reflexivity].
Qed.

Lemma oldest_fold_none l acc :
  foldl oldest_step acc l = None → acc = None ∧ l = [].
Proof.
  revert acc. induction l as [|kv l IH]; intros acc H; simpl in H; [done|].
  apply IH in H as [H _]. unfold oldest_step in H.
  destruct acc; [destruct (PrimFloat.ltb _ _)|]; discriminate.
Qed.

Lemma find_oldest_member c o :
  find_oldest c = Some o → ∃ k, m_Cache c !! k = Some o.
Proof.
  unfold find_oldest. intros H.
  apply oldest_fold_member in H as [H|([k it] & Hin & <-)]; [discriminate|].
  exists k. by apply elem_of_in_key_order.
Qed.

Lemma find_oldest_none c : find_oldest c = None → m_Cache c = ∅.
Proof.
  unfold find_oldest. intros H. apply oldest_fold_none in H as [_ H].
  by apply in_key_order_empty_iff.
Qed.

Lemma FlushOldest_cases w c :
  (FlushOldest w c = (false, w, c))
  ∨ (∃ o, find_oldest c = Some o ∧ FlushOldest w c = Flush (m_Id o) w c).
Proof.
  unfold FlushOldest. destruct (find_oldest c) as [o|] eqn:Ho; [right|left]; eauto.
Qed.

(** A property of the cache that no [Flush] breaks is kept by the
    operations that only flush. *)
Section FlushClosed.
Variable P : World → t → Prop.
Hypothesis P_Flush : ∀ a_ID w c, P w c → P (Flush a_ID w c).1.2 (Flush a_ID w c).2.

Lemma FlushOldest_closed w c : P w c → P (FlushOldest w c).1.2 (FlushOldest w c).2.
Proof.
  intros H. destruct (FlushOldest_cases w c) as [->|(o & _ & ->)]; [exact H|].
  by apply P_Flush.
Qed.

Lemma flush_fold_closed ids b w c :
  P w c →
  P (foldl flush_step (b, w, c) ids).1.2 (foldl flush_step (b, w, c) ids).2.
Proof.
  revert b w c. induction ids as [|id ids IH]; intros b w c H; simpl; [exact H|].
  specialize (P_Flush id w c H).
  destruct (Flush id w c) as [[r w'] c']. by apply IH.
Qed.

Lemma FlushAged_closed w c : P w c → P (FlushAged w c).1.2 (FlushAged w c).2.
Proof. intros H. unfold FlushAged. by apply flush_fold_closed. Qed.

Lemma evict_closed fuel w c w' c' :
  P w c → evict fuel w c = Some (w', c') → P w' c'.
Proof.
  revert w c. induction fuel as [|fuel IH]; intros w c H; simpl;
    case_bool_decide; try discriminate; try (by intros [= <- <-]).
  pose proof (FlushOldest_closed w c H) as H'.
  destruct (FlushOldest w c) as [[r w1] c1]. by apply IH.
Qed.
End FlushClosed.

(** ** Find *)

Lemma Find_size_inv a_ID w c : size_inv c → size_inv (Find a_ID w c).2.
Proof.
  intros Hinv. unfold Find.
  destruct (m_Cache c !! sanitize a_ID) as [pItem|] eqn:Hk; [|exact Hinv].
  destruct (m_bLoaded pItem); [exact Hinv|].
  unfold fs_read. cbv zeta. simpl m_Size.
  set (data := default EmptyString _).
  case_bool_decide as Hne; unfold size_inv in *; simpl.
  - rewrite size_sum_insert, Hk. simpl.
    rewrite to_uint_add_r, Hinv.
    case_bool_decide.
    + rewrite to_uint_add_l. f_equal. lia.
    + rewrite to_uint_sub_l. f_equal. lia.
  - rewrite size_sum_insert, Hk. simpl. rewrite Hinv. f_equal. lia.
Qed.

Lemma Find_keys_ok a_ID w c : keys_ok c → keys_ok (Find a_ID w c).2.
Proof.
  intros Hok. unfold Find.
  destruct (m_Cache c !! sanitize a_ID) as [pItem|] eqn:Hk; [|exact Hok].
  destruct (m_bLoaded pItem); [exact Hok|].
  unfold fs_read. cbv zeta.
  destruct (Hok _ _ Hk) as [Hid Hs].
  case_bool_decide; intros k it; simpl;
    (destruct (decide (sanitize a_ID = k)) as [<-|Hne];
     [rewrite lookup_insert_eq; intros [= <-]; simpl; auto
     |rewrite lookup_insert_ne by exact Hne; apply Hok]).
Qed.

(** ** Save *)

Lemma store_size_inv id a_Data w c :
  m_Cache c !! id = None → size_inv c → size_inv (store id a_Data w c).2.
Proof.
  intros Hk Hinv. unfold store, size_inv in *. simpl.
  rewrite size_sum_insert_fresh by exact Hk. simpl.
  rewrite Hinv, to_uint_add_l. f_equal. lia.
Qed.

Lemma store_keys_ok a_ID a_Data w c :
  keys_ok c → keys_ok (store (sanitize a_ID) a_Data w c).2.
Proof.
  intros Hok k it. unfold store. simpl.
  destruct (decide (sanitize a_ID = k)) as [<-|Hne].
  - rewrite lookup_insert_eq. intros [= <-]. simpl.
    split; [reflexivity | apply sanitize_idempotent].
  - rewrite lookup_insert_ne by exact Hne. apply Hok.
Qed.

(** [Save], by cases: the old object cannot be flushed, or the new one is
    stored and the eviction loop run. *)
Lemma Save_cases fuel a_ID a_Data w c :
  ((∃ item, m_Cache c !! sanitize a_ID = Some item
      ∧ fs_remove (m_Path item) w = None)
   ∧ Save fuel a_ID a_Data w c = Some (false, w, c))
  ∨ (∃ w1 c1,
       m_Cache c1 !! sanitize a_ID = None
       ∧ (w1 = w ∧ c1 = c
          ∨ (w1, c1) = ((Flush (sanitize a_ID) w c).1.2, (Flush (sanitize a_ID) w c).2))
       ∧ Save fuel a_ID a_Data w c =
           (λ r : World * t, (true, r.1, r.2))
             <$> evict fuel (store (sanitize a_ID) a_Data w1 c1).1
                            (store (sanitize a_ID) a_Data w1 c1).2).
Proof.
  unfold Save. case_bool_decide as Hin.
  - destruct (Flush_cases (sanitize a_ID) w c)
      as [[Hk _]|[(item & Hk & Hr & HF)|(item & w' & Hk & Hr & HF)]];
      rewrite sanitize_idempotent in Hk.
    + rewrite Hk in Hin. by destruct Hin.
    + left. rewrite HF. eauto.
    + right. exists (Flush (sanitize a_ID) w c).1.2, (Flush (sanitize a_ID) w c).2.
      rewrite HF. cbn [fst snd]. split; [|split; [by right|]].
      * rewrite sanitize_idempotent. apply lookup_delete_eq.
      * destruct (store _ _ _ _) as [w2 c2]. simpl.
        destruct (evict fuel w2 c2) as [[w3 c3]|]; reflexivity.
  - right. exists w, c. split; [|split; [by left|]].
    + destruct (m_Cache c !! sanitize a_ID); [|reflexivity]. exfalso. eauto.
    + destruct (store _ _ _ _) as [w2 c2]. simpl.
      destruct (evict fuel w2 c2) as [[w3 c3]|]; reflexivity.
Qed.

Lemma Save_size_inv fuel a_ID a_Data w c r :
  size_inv c → Save fuel a_ID a_Data w c = Some r → size_inv r.2.
Proof.
  intros Hinv HS.
  destruct (Save_cases fuel a_ID a_Data w c)
    as [[_ HS']|(w1 & c1 & Hk & H1 & HS')]; rewrite HS' in HS.
  - by injection HS as <-.
  - assert (size_inv c1) as Hinv1.
    { destruct H1 as [[_ ->]|[= _ ->]]; [exact Hinv|by apply Flush_size_inv]. }
    apply (store_size_inv (sanitize a_ID) a_Data w1) in Hinv1; [|exact Hk].
    destruct (evict _ _ _) as [[w3 c3]|] eqn:He; [|discriminate].
    injection HS as <-. simpl.
    eapply (evict_closed (λ _ c, size_inv c)); [|exact Hinv1|exact He].
    intros. by apply Flush_size_inv.
Qed.

Lemma Save_keys_ok fuel a_ID a_Data w c r :
  keys_ok c → Save fuel a_ID a_Data w c = Some r → keys_ok r.2.
Proof.
  intros Hok HS.
  destruct (Save_cases fuel a_ID a_Data w c)
    as [[_ HS']|(w1 & c1 & Hk & H1 & HS')]; rewrite HS' in HS.
  - by injection HS as <-.
  - assert (keys_ok c1) as Hok1.
    { destruct H1 as [[_ ->]|[= _ ->]]; [exact Hok|by apply Flush_keys_ok]. }
    apply (store_keys_ok a_ID a_Data w1) in Hok1.
    destruct (evict _ _ _) as [[w3 c3]|] eqn:He; [|discriminate].
    injection HS as <-. simpl.
    eapply (evict_closed (λ _ c, keys_ok c)); [|exact Hok1|exact He].
    intros. by apply Flush_keys_ok.
Qed.

(** ** FlushAll and Uninitialize *)

Lemma FlushAll_size_inv w c : size_inv (FlushAll w c).2.
Proof. unfold size_inv. simpl. by rewrite size_sum_empty. Qed.

Lemma Uninitialize_size_inv c : size_inv (Uninitialize c).
Proof. unfold size_inv. simpl. by rewrite size_sum_empty. Qed.

Lemma create_size_inv : size_inv create.
Proof. unfold size_inv. simpl. by rewrite size_sum_empty. Qed.

(** ** Initialize *)

Lemma scan_entry_lookup_ne c p k :
  de_stem p ≠ k → m_Cache (scan_entry c p) !! k = m_Cache c !! k.
Proof.
  intros Hne. unfold scan_entry.
  destruct (de_regular p); [|reflexivity].
  destruct (de_mtime p); [destruct (de_size p)|]; simpl;
    by rewrite lookup_insert_ne.
Qed.

Lemma scan_entry_size_inv c p :
  (de_regular p = true → m_Cache c !! de_stem p = None) →
  size_inv c → size_inv (scan_entry c p).
Proof.
  intros Hfresh Hinv. unfold scan_entry.
  destruct (de_regular p); [|exact Hinv].
  specialize (Hfresh eq_refl). rewrite Hfresh. simpl.
  unfold size_inv in *.
  destruct (de_mtime p); [destruct (de_size p)|]; simpl;
    rewrite size_sum_insert_fresh by exact Hfresh; simpl.
  - rewrite Hinv, to_uint_add_l. f_equal. lia.
  - exact Hinv.
  - exact Hinv.
Qed.

Lemma scan_fold_size_inv l c :
  NoDup (regular_stems l) →
  (∀ s, s ∈ regular_stems l → m_Cache c !! s = None) →
  size_inv c → size_inv (foldl scan_entry c l).
Proof.
  revert c. induction l as [|p l IH]; intros c Hnd Hfresh Hinv; simpl; [exact Hinv|].
  unfold regular_stems in *. simpl in Hnd, Hfresh.
  destruct (de_regular p) eqn:Hreg.
  - rewrite fmap_cons in Hnd, Hfresh. apply NoDup_cons in Hnd as [Hnotin Hnd].
    apply IH; [exact Hnd| |].
    + intros s Hs. rewrite scan_entry_lookup_ne.
      * apply Hfresh. by right.
      * intros <-. contradiction.
    + apply scan_entry_size_inv; [|exact Hinv].
      intros _. apply Hfresh. left.
  - assert (scan_entry c p = c) as -> by (unfold scan_entry; by rewrite Hreg).
    by apply IH.
Qed.

Lemma scan_entry_keys_ok c p :
  (de_regular p = true → sanitize (de_stem p) = de_stem p) →
  keys_ok c → keys_ok (scan_entry c p).
Proof.
  intros Hstem Hok. unfold scan_entry.
  destruct (de_regular p); [|exact Hok]. specialize (Hstem eq_refl).
  destruct (de_mtime p); [destruct (de_size p)|]; intros k it; simpl;
    (destruct (decide (de_stem p = k)) as [<-|Hne];
     [rewrite lookup_insert_eq; intros [= <-]; simpl; auto
     |rewrite lookup_insert_ne by exact Hne; apply Hok]).
Qed.

Lemma scan_fold_keys_ok l c :
  stems_ok l → keys_ok c → keys_ok (foldl scan_entry c l).
Proof.
  revert c. induction l as [|p l IH]; intros c Hst Hok; simpl; [exact Hok|].
  apply IH.
  - intros q Hq. apply Hst. by right.
  - apply scan_entry_keys_ok; [|exact Hok]. apply Hst. left.
Qed.

Lemma fs_create_directories_list path w w' dir :
  fs_create_directories path w = Some w' → fs_list dir w' = fs_list dir w.
Proof.
  unfold fs_create_directories. case_bool_decide; [discriminate|].
  by intros [= <-].
Qed.

(** [Initialize], by cases. *)
Lemma Initialize_cases a_CachePath maxCacheSize maxCacheAge w c :
  (fs_is_directory a_CachePath w = false
   ∧ fs_create_directories a_CachePath w = None
   ∧ Initialize a_CachePath maxCacheSize maxCacheAge w c =
       (false, w,
        mkCache true a_CachePath maxCacheSize maxCacheAge
                (m_Cache c) (m_CurrentCacheSize c)))
  ∨ (∃ w1,
       fs_list a_CachePath w1 = fs_list a_CachePath w
       ∧ Initialize a_CachePath maxCacheSize maxCacheAge w c =
           (true,
            (FlushAged w1
               (foldl scan_entry
                  (mkCache true a_CachePath maxCacheSize maxCacheAge ∅ 0)
                  (fs_list a_CachePath w))).1.2,
            (FlushAged w1
               (foldl scan_entry
                  (mkCache true a_CachePath maxCacheSize maxCacheAge ∅ 0)
                  (fs_list a_CachePath w))).2)).
Proof.
  unfold Initialize.
  destruct (fs_is_directory a_CachePath w) eqn:Hdir.
  - right. exists w. split; [reflexivity|]. simpl.
    by destruct (FlushAged _ _) as [[b w2] c4].
  - destruct (fs_create_directories a_CachePath w) as [w1|] eqn:Hmk.
    + right. exists w1. split; [by eapply fs_create_directories_list|].
      simpl. rewrite (fs_create_directories_list _ _ _ _ Hmk).
      by destruct (FlushAged _ _) as [[b w2] c4].
    + left. auto.
Qed.

Lemma Initialize_size_inv a_CachePath maxCacheSize maxCacheAge w c :
  NoDup (regular_stems (fs_list a_CachePath w)) →
  size_inv c →
  size_inv (Initialize a_CachePath maxCacheSize maxCacheAge w c).2.
Proof.
  intros Hnd Hinv.
  destruct (Initialize_cases a_CachePath maxCacheSize maxCacheAge w c)
    as [(_ & _ & ->)|(w1 & _ & ->)]; simpl.
  - exact Hinv.
  - apply (FlushAged_closed (λ _ c, size_inv c)).
    + intros. by apply Flush_size_inv.
    + apply scan_fold_size_inv; [exact Hnd| |].
      * intros s _. apply lookup_empty.
      * unfold size_inv. simpl. by rewrite size_sum_empty.
Qed.

Lemma Initialize_keys_ok a_CachePath maxCacheSize maxCacheAge w c :
  stems_ok (fs_list a_CachePath w) →
  keys_ok c →
  keys_ok (Initialize a_CachePath maxCacheSize maxCacheAge w c).2.
Proof.
  intros Hst Hok.
  destruct (Initialize_cases a_CachePath maxCacheSize maxCacheAge w c)
    as [(_ & _ & ->)|(w1 & _ & ->)]; simpl.
  - exact Hok.
  - apply (FlushAged_closed (λ _ c, keys_ok c)).
    + intros. by apply Flush_keys_ok.
    + apply scan_fold_keys_ok; [exact Hst|].
      intros k it. simpl. by rewrite lookup_empty.
Qed.

(** ** Error paths of Flush *)

(** C5: for a present key whose file deletion throws, [Flush] reports
    failure and leaves the cache (entry and running total) and the world as
    they were; for an absent key, [Flush] reports failure and changes
    nothing. *)
Theorem Flush_failure_atomic (a_ID : string) (w : World) (c : t) :
  (∀ item, m_Cache c !! sanitize a_ID = Some item →
           m_Path item ∈ w_remove_throws w →
           Flush a_ID w c = (false, w, c))
  ∧ (m_Cache c !! sanitize a_ID = None → Flush a_ID w c = (false, w, c)).
Proof.
  split.
  - intros item Hk Hthrow. unfold Flush. rewrite Hk.
    by rewrite (proj2 (fs_remove_None _ _) Hthrow).
  - intros Hk. unfold Flush. by rewrite Hk.
Qed.

Lemma Flush_failure_atomic_witness :
  let c := Scenario.cache_of "/tmp/c/" 100 24
             [Scenario.saved_item "/tmp/c/" "a_b" 1000 "hello"] in
  let w := Scenario.locked_world 2000 "/tmp/c/a_b.bytes" in
  Flush "a/b" w c = (false, w, c) ∧ Flush "other" w c = (false, w, c).
Proof.
  intros c w. split.
  - apply (proj1 (Flush_failure_atomic "a/b" w c)
             (Scenario.saved_item "/tmp/c/" "a_b" 1000 "hello")).
    + vm_compute. reflexivity.
    + vm_compute. reflexivity.
  - apply (proj2 (Flush_failure_atomic "other" w c)). vm_compute. reflexivity.
Defined.

(** ** Error path of Initialize *)

(** C10: when the cache path is not a directory and creating it throws,
    [Initialize] returns failure with the initialized flag and the three
    configuration fields already set, and with the index and the running
    total of the previous initialization untouched. *)
Theorem Initialize_failure_keeps_index (a_CachePath : string)
    (maxCacheSize : Z) (maxCacheAge : float) (w : World) (c : t) :
  a_CachePath ∉ w_dirs w →
  a_CachePath ∈ w_mkdir_throws w →
  ∃ c',
    Initialize a_CachePath maxCacheSize maxCacheAge w c = (false, w, c')
    ∧ m_bInitialized c' = true
    ∧ m_CachePath c' = a_CachePath
    ∧ m_MaxCacheSize c' = maxCacheSize
    ∧ m_MaxCacheAge c' = maxCacheAge
    ∧ m_Cache c' = m_Cache c
    ∧ m_CurrentCacheSize c' = m_CurrentCacheSize c.
Proof.
  intros Hdir Hthrow.
  exists (mkCache true a_CachePath maxCacheSize maxCacheAge
                  (m_Cache c) (m_CurrentCacheSize c)).
  split; [|by repeat split].
  unfold Initialize, fs_is_directory, fs_create_directories.
  rewrite bool_decide_eq_false_2 by exact Hdir.
  by rewrite bool_decide_eq_true_2 by exact Hthrow.
Qed.

Lemma Initialize_failure_keeps_index_witness :
  let c := Scenario.cache_of "/tmp/c/" 100 24
             [Scenario.saved_item "/tmp/c/" "a_b" 1000 "hello"] in
  let w := Scenario.nodir_world 2000 "/mnt/ro/cache/" in
  ∃ c',
    Initialize "/mnt/ro/cache/" 50 12 w c = (false, w, c')
    ∧ m_bInitialized c' = true
    ∧ m_CachePath c' = "/mnt/ro/cache/"%string
    ∧ m_MaxCacheSize c' = 50
    ∧ m_MaxCacheAge c' = 12%float
    ∧ m_Cache c' = m_Cache c
    ∧ m_CurrentCacheSize c' = m_CurrentCacheSize c.
Proof.
  intros c w.
  apply (Initialize_failure_keeps_index "/mnt/ro/cache/" 50 12 w c).
  - vm_compute. discriminate.
  - vm_compute. reflexivity.
Defined.

(** ** Failure of Save *)

(** C4, as the code has it: [Save] reports failure exactly when an entry is
    already indexed under the sanitized key and deleting its backing file
    throws; the cache and the world are then unchanged.  A write error on
    the new backing file is no failure path. *)
Theorem Save_failure_iff (fuel : nat) (a_ID a_Data : string) (w w' : World)
    (c c' : t) :
  Save fuel a_ID a_Data w c = Some (false, w', c')
  ↔ (∃ item, m_Cache c !! sanitize a_ID = Some item
             ∧ m_Path item ∈ w_remove_throws w)
    ∧ w' = w ∧ c' = c.
Proof.
  destruct (Save_cases fuel a_ID a_Data w c)
    as [[(item & Hk & Hr) HS]|(w1 & c1 & Hk & H1 & HS)]; rewrite HS.
  - split.
    + intros [= <- <-]. split; [|done]. exists item. split; [exact Hk|].
      by apply fs_remove_None.
    + by intros (_ & -> & ->).
  - split.
    + destruct (evict _ _ _) as [[w3 c3]|]; discriminate.
    + intros ((item & Hit & Hthrow) & -> & ->). exfalso.
      destruct H1 as [[-> ->]|Heq]; [congruence|].
      apply fs_remove_None in Hthrow.
      destruct (Flush_cases (sanitize a_ID) w c)
        as [[Hk' _]|[(it & Hk' & _ & HF)|(it & w' & Hk' & Hr & _)]];
        rewrite sanitize_idempotent in Hk'.
      * congruence.
      * rewrite HF in Heq. simpl in Heq. injection Heq as -> ->. congruence.
      * congruence.
Qed.

(** C4, as stated, fails: the backing file cannot be written, nothing
    reaches the file system, and [Save] still reports success. *)
Lemma Save_write_error_unreported :
  let c := Scenario.cache_of "/tmp/c/" 100 24 [] in
  let w := Scenario.readonly_world 1000 "/tmp/c/a_b.bytes" in
  "/tmp/c/a_b.bytes"%string ∈ w_write_fails w
  ∧ ∃ w' c', Save 1 "a/b" "hello" w c = Some (true, w', c')
             ∧ w_files w' !! "/tmp/c/a_b.bytes"%string = None.
Proof.
  intros c w. split; [vm_compute; reflexivity|].
  eexists _, _. split; vm_compute; reflexivity.
Qed.

(** ** The backing file of Save *)

Lemma written_app l1 l2 : written (l1 ++ l2) = written l1 ++ written l2.
Proof.
  induction l1 as [|e l1 IH]; simpl; [reflexivity|].
  destruct e; simpl; by rewrite ?IH.
Qed.

Lemma store_written id a_Data w c :
  written (w_log (store id a_Data w c).1)
  = written (w_log w)
    ++ [((m_CachePath c ++ id ++ ".bytes")%string, a_Data)].
Proof.
  unfold store, fs_write. simpl.
  case_bool_decide; simpl; by rewrite written_app.
Qed.

Lemma evict_written fuel w c w' c' :
  evict fuel w c = Some (w', c') → written (w_log w') = written (w_log w).
Proof.
  intros He.
  eapply (evict_closed (λ w1 _, written (w_log w1) = written (w_log w)));
    [|reflexivity|exact He].
  intros a w1 c1 H. simpl. by rewrite Flush_written.
Qed.

(** C6, as the code has it: a successful [Save] writes one file, whose path
    is the concatenation of the cache path, the sanitized id and [".bytes"],
    with no separator put in between.  The file name has no separator;
    the file lies directly under the cache directory when the configured
    cache path ends with a separator. *)
Theorem Save_backing_file_path (fuel : nat) (a_ID a_Data : string)
    (w w' : World) (c c' : t) :
  Save fuel a_ID a_Data w c = Some (true, w', c') →
  let name := (sanitize a_ID ++ ".bytes")%string in
  written (w_log w')
  = written (w_log w) ++ [((m_CachePath c ++ name)%string, a_Data)]
  ∧ StringUtil.contains name "/"%char = false
  ∧ (ends_with_sep (m_CachePath c) = true →
     file_in_directory (m_CachePath c) name (m_CachePath c ++ name) = true).
Proof.
  intros HS name.
  assert (StringUtil.contains name "/"%char = false) as Hname.
  { unfold name. rewrite contains_app, sanitize_no_separator. reflexivity. }
  split; [|split; [exact Hname|]].
  - destruct (Save_cases fuel a_ID a_Data w c)
      as [[_ HS']|(w1 & c1 & Hk & H1 & HS')]; rewrite HS' in HS; [discriminate|].
    destruct (evict _ _ _) as [[w3 c3]|] eqn:He; [|discriminate].
    injection HS as <- <-.
    rewrite (evict_written _ _ _ _ _ He), store_written.
    destruct H1 as [[-> ->]|[= -> ->]]; [reflexivity|].
    rewrite Flush_written.
    by destruct (Flush_config (sanitize a_ID) w c) as (_ & _ & -> & _).
  - intros Hsep. unfold file_in_directory.
    rewrite Hname, Hsep, String.eqb_refl. simpl. apply orb_true_r.
Qed.

Lemma Save_backing_file_path_witness :
  let c := Scenario.cache_of "/tmp/c/" 100 24 [] in
  let w := Scenario.quiet_world 1000 in
  ∃ w' c',
    Save 1 "a/b" "hello" w c = Some (true, w', c')
    ∧ written (w_log w') = [("/tmp/c/a_b.bytes"%string, "hello"%string)]
    ∧ file_in_directory "/tmp/c/" "a_b.bytes" "/tmp/c/a_b.bytes" = true
    ∧ m_Data <$> m_Cache c' !! "a_b"%string = Some "hello"%string
    ∧ w_files w' !! "/tmp/c/a_b.bytes"%string = Some "hello"%string
    ∧ m_CurrentCacheSize c' = 5.
Proof.
  intros c w.
  destruct (Save 1 "a/b" "hello" w c) as [[[b w'] c']|] eqn:HS;
    [|vm_compute in HS; discriminate].
  assert (b = true) as -> by (vm_compute in HS; congruence).
  destruct (Save_backing_file_path 1 "a/b" "hello" w w' c c' HS)
    as (Hlog & _ & Hdir).
  exists w', c'. split; [reflexivity|]. split; [exact Hlog|].
  split; [exact (Hdir eq_refl)|].
  vm_compute in HS. injection HS as <- <-. vm_compute. done.
Defined.

(** C6, as stated, fails on the spec's own scenario: with the cache path
    ["/tmp/c"], [Save("a/b", "hello")] writes ["/tmp/ca_b.bytes"], which is
    not the file [a_b.bytes] under ["/tmp/c"]. *)
Lemma Save_path_outside_directory :
  let w0 := Scenario.quiet_world 1000 in
  ∃ w1 c1 w2 c2,
    Initialize "/tmp/c" 100 24 w0 create = (true, w1, c1)
    ∧ Save 1 "a/b" "hello" w1 c1 = Some (true, w2, c2)
    ∧ written (w_log w2) = [("/tmp/ca_b.bytes"%string, "hello"%string)]
    ∧ file_in_directory "/tmp/c" "a_b.bytes" "/tmp/ca_b.bytes" = false.
Proof.
  intros w0. eexists _, _, _, _.
  split; [vm_compute; reflexivity|].
  split; [vm_compute; reflexivity|].
  split; vm_compute; reflexivity.
Qed.

(** ** FlushAged *)

Lemma flush_fold_spec ids b w c :
  (∀ id, id ∈ ids → sanitize id = id) →
  let r := foldl flush_step (b, w, c) ids in
  (∀ k, k ∈ ids → flushable w c k → m_Cache r.2 !! k = None)
  ∧ (∀ k, ¬ (k ∈ ids ∧ flushable w c k) → m_Cache r.2 !! k = m_Cache c !! k)
  ∧ (r.1.1 = true ↔ b = true ∨ ∃ k, k ∈ ids ∧ flushable w c k).
Proof.
  revert b w c. induction ids as [|id ids IH]; intros b w c Hids; cbv zeta.
  { simpl. split; [|split]; try done.
    - intros k Hk. by apply elem_of_nil in Hk.
    - split; [by left|]. intros [H|(k & Hk & _)]; [done|].
      by apply elem_of_nil in Hk. }
  simpl. assert (sanitize id = id) as Hid by (apply Hids; left).
  assert (∀ id', id' ∈ ids → sanitize id' = id') as Hids'
      by (intros; apply Hids; by right).
  destruct (Flush_cases id w c)
    as [[Hk HF]|[(item & Hk & Hr & HF)|(item & w' & Hk & Hr & HF)]];
    rewrite Hid in Hk; rewrite HF; clear HF.
  - (* no entry under [id] *)
    destruct (IH (b || false) w c Hids') as (Ha & Hb & Hc). cbv zeta in *.
    assert (¬ flushable w c id) as Hnf by (intros (it & Hit & _); congruence).
    split; [|split].
    + intros k Hin Hf. apply Ha; [|exact Hf].
      apply elem_of_cons in Hin as [->|Hin]; [contradiction|exact Hin].
    + intros k Hn. apply Hb. intros [Hin Hf]. apply Hn. split; [by right|exact Hf].
    + rewrite Hc, orb_false_r. split; intros [H|(k & Hin & Hf)]; try by left.
      * right. exists k. split; [by right|exact Hf].
      * right. exists k. split; [|exact Hf].
        apply elem_of_cons in Hin as [->|Hin]; [contradiction|exact Hin].
  - (* the deletion throws *)
    destruct (IH (b || false) w c Hids') as (Ha & Hb & Hc). cbv zeta in *.
    apply fs_remove_None in Hr.
    assert (¬ flushable w c id) as Hnf.
    { intros (it & Hit & Hno). rewrite Hk in Hit. injection Hit as <-. contradiction. }
    split; [|split].
    + intros k Hin Hf. apply Ha; [|exact Hf].
      apply elem_of_cons in Hin as [->|Hin]; [contradiction|exact Hin].
    + intros k Hn. apply Hb. intros [Hin Hf]. apply Hn. split; [by right|exact Hf].
    + rewrite Hc, orb_false_r. split; intros [H|(k & Hin & Hf)]; try by left.
      * right. exists k. split; [by right|exact Hf].
      * right. exists k. split; [|exact Hf].
        apply elem_of_cons in Hin as [->|Hin]; [contradiction|exact Hin].
  - (* the entry is flushed *)
    set (c1 := set_Cache _ _).
    destruct (IH (b || true) w' c1 Hids') as (Ha & Hb & Hc). cbv zeta in *.
    pose proof (fs_remove_throws_same _ _ _ Hr) as Hth.
    assert (flushable w c id) as Hfid.
    { exists item. split; [exact Hk|]. intros Hin.
      apply fs_remove_None in Hin. congruence. }
    assert (∀ k, k ≠ id → flushable w' c1 k ↔ flushable w c k) as Hfl.
    { intros k Hne. unfold flushable, c1. simpl. rewrite Hid, Hth.
      by rewrite lookup_delete_ne. }
    assert (¬ flushable w' c1 id) as Hnf.
    { intros (it & Hit & _). unfold c1 in Hit. simpl in Hit.
      rewrite Hid, lookup_delete_eq in Hit. discriminate. }
    split; [|split].
    + intros k Hin Hf. destruct (decide (k = id)) as [->|Hne].
      * rewrite Hb; [|by intros [_ ?]].
        unfold c1. simpl. rewrite Hid. apply lookup_delete_eq.
      * apply Ha; [|by apply Hfl].
        apply elem_of_cons in Hin as [->|Hin]; [contradiction|exact Hin].
    + intros k Hn. destruct (decide (k = id)) as [->|Hne].
      * exfalso. apply Hn. split; [left|exact Hfid].
      * rewrite Hb.
        -- unfold c1. simpl. rewrite Hid. by apply lookup_delete_ne.
        -- intros [Hin Hf]. apply Hn. split; [by right|by apply Hfl].
    + rewrite Hc, orb_true_r. split; [|by left].
      intros _. right. exists id. split; [left|exact Hfid].
Qed.

Lemma aged_ids_spec now c k :
  keys_ok c →
  k ∈ aged_ids now c
  ↔ ∃ item, m_Cache c !! k = Some item
            ∧ is_aged now (m_MaxCacheAge c) item = true.
Proof.
  intros Hok. unfold aged_ids. rewrite list_elem_of_fmap. split.
  - intros ([k' it] & -> & Hin). apply list_elem_of_In, filter_In in Hin as [Hin Hag].
    apply list_elem_of_In, elem_of_in_key_order in Hin. simpl in *.
    destruct (Hok _ _ Hin) as [-> _]. eauto.
  - intros (it & Hk & Hag). exists (k, it). simpl.
    split; [by destruct (Hok _ _ Hk) as [-> _]|].
    apply list_elem_of_In, filter_In. split; [|exact Hag].
    by apply list_elem_of_In, elem_of_in_key_order.
Qed.

(** C7, as the code has it: [FlushAged] removes exactly the entries whose
    age in hours exceeds [m_MaxCacheAge] and whose backing file can be
    deleted, leaves every other entry as it was, and returns true exactly
    when it has removed an entry. *)
Theorem FlushAged_removes_aged (w : World) (c : t) :
  keys_ok c →
  let r := FlushAged w c in
  (∀ k, m_Cache r.2 !! k =
        match m_Cache c !! k with
        | Some item =>
            if is_aged (w_now w) (m_MaxCacheAge c) item
               && bool_decide (m_Path item ∉ w_remove_throws w)
            then None else Some item
        | None => None
        end)
  ∧ (r.1.1 = true
     ↔ ∃ k item, m_Cache c !! k = Some item
                 ∧ is_aged (w_now w) (m_MaxCacheAge c) item = true
                 ∧ m_Path item ∉ w_remove_throws w).
Proof.
  intros Hok r.
  assert (∀ id, id ∈ aged_ids (w_now w) c → sanitize id = id) as Hids.
  { intros id Hin. apply (aged_ids_spec _ _ _ Hok) in Hin as (it & Hk & _).
    by destruct (Hok _ _ Hk). }
  destruct (flush_fold_spec (aged_ids (w_now w) c) false w c Hids)
    as (Ha & Hb & Hc).
  fold (FlushAged w c) in Ha, Hb, Hc. fold r in Ha, Hb, Hc.
  split.
  - intros k. destruct (m_Cache c !! k) as [item|] eqn:Hk.
    + destruct (is_aged _ _ item) eqn:Hag; simpl; [case_bool_decide as Hth|].
      * apply Ha; [|by exists item].
        apply (aged_ids_spec _ _ _ Hok). eauto.
      * rewrite Hb, Hk; [reflexivity|].
        intros [_ (it & Hit & Hno)]. congruence.
      * rewrite Hb, Hk; [reflexivity|].
        intros [Hin _]. apply (aged_ids_spec _ _ _ Hok) in Hin as (it & Hit & Hag').
        congruence.
    + rewrite Hb, Hk; [reflexivity|]. intros [_ (it & Hit & _)]. congruence.
  - rewrite Hc. split.
    + intros [H|(k & Hin & it & Hit & Hno)]; [discriminate|].
      apply (aged_ids_spec _ _ _ Hok) in Hin as (it' & Hit' & Hag).
      exists k, it. repeat split; congruence.
    + intros (k & it & Hit & Hag & Hno). right. exists k. split.
      * apply (aged_ids_spec _ _ _ Hok). eauto.
      * by exists it.
Qed.

Lemma keys_okb_correct c : keys_okb c = true → keys_ok c.
Proof.
  unfold keys_okb. rewrite forallb_forall. intros H k item Hk.
  apply elem_of_map_to_list, list_elem_of_In, H in Hk. simpl in Hk.
  apply andb_true_iff in Hk as [H1 H2].
  by apply String.eqb_eq in H1, H2.
Qed.

Lemma FlushAged_removes_aged_witness :
  let old := Scenario.saved_item "/tmp/c/" "old" 0 "stale" in
  let young := Scenario.saved_item "/tmp/c/" "young" 999000 "fresh" in
  let c := Scenario.cache_of "/tmp/c/" 100 24 [old; young] in
  let r := FlushAged (Scenario.quiet_world 1000000) c in
  m_Cache r.2 !! "old"%string = None
  ∧ m_Cache r.2 !! "young"%string = Some young
  ∧ r.1.1 = true.
Proof.
  intros old young c r.
  assert (keys_ok c) as Hok by (apply keys_okb_correct; vm_compute; reflexivity).
  destruct (FlushAged_removes_aged (Scenario.quiet_world 1000000) c Hok)
    as [Hmap Hflag].
  fold r in Hmap, Hflag. split; [|split].
  - rewrite Hmap. vm_compute. reflexivity.
  - rewrite Hmap. vm_compute. reflexivity.
  - apply Hflag. exists "old"%string, old. vm_compute. by repeat split.
Defined.

(** C7, as stated, fails: an entry far older than [m_MaxCacheAge] whose
    backing file cannot be deleted stays indexed, and [FlushAged] returns
    false. *)
Lemma FlushAged_keeps_undeletable :
  let old := Scenario.saved_item "/tmp/c/" "old" 0 "stale" in
  let c := Scenario.cache_of "/tmp/c/" 100 24 [old] in
  let w := Scenario.locked_world 1000000 "/tmp/c/old.bytes" in
  PrimFloat.ltb (m_MaxCacheAge c) (age_hours (w_now w) old) = true
  ∧ FlushAged w c = (false, w, c)
  ∧ m_Cache c !! "old"%string = Some old.
Proof.
  intros old c w. split; [|split]; vm_compute; reflexivity.
Qed.

(** ** Save then Find *)

Lemma Flush_holds k data a_ID w c :
  holds k data c → holds k data (Flush a_ID w c).2.
Proof.
  intros H. destruct (Flush_lookup a_ID w c k) as [Hn|He].
  - by left.
  - unfold holds. by rewrite He.
Qed.



Lemma store_holds id a_Data w c : holds id a_Data (store id a_Data w c).2.
Proof.
  right. unfold store. simpl. rewrite lookup_insert_eq. eauto.
Qed.

Lemma evict_holds k data fuel w c w' c' :
  holds k data c → evict fuel w c = Some (w', c') → holds k data c'.
Proof.
  apply (evict_closed (λ _ c, holds k data c)).
  intros. by apply Flush_holds.
Qed.


Lemma Save_holds fuel a_ID a_Data w c w' c' :
  Save fuel a_ID a_Data w c = Some (true, w', c') →
  holds (sanitize a_ID) a_Data c'.
Proof.
  intros HS.
  destruct (Save_cases fuel a_ID a_Data w c)
    as [[_ HS']|(w1 & c1 & Hk & H1 & HS')]; rewrite HS' in HS; [discriminate|].
  destruct (evict _ _ _) as [[w3 c3]|] eqn:He; [|discriminate].
  injection HS as <- <-.
  eapply evict_holds; [|exact He]. apply store_holds.
Qed.






Lemma evict_fits fuel w c :
  m_CurrentCacheSize c ≤ m_MaxCacheSize c → evict fuel w c = Some (w, c).
Proof.
  intros Hle. destruct fuel; simpl; by rewrite bool_decide_eq_false_2 by lia.
Qed.






(** ** The running total *)

(** X1: the running total stays the sum of the sizes of the indexed entries,
    as an [unsigned int], through every operation; [Initialize] establishes
    it when no two regular files of the directory share a stem. *)
Theorem size_inv_preserved (w : World) (c : t) :
  size_inv c →
  (∀ a_ID, size_inv (Find a_ID w c).2)
  ∧ (∀ fuel a_ID a_Data r, Save fuel a_ID a_Data w c = Some r → size_inv r.2)
  ∧ (∀ a_ID, size_inv (Flush a_ID w c).2)
  ∧ size_inv (FlushAged w c).2
  ∧ size_inv (FlushOldest w c).2
  ∧ size_inv (FlushAll w c).2
  ∧ size_inv (Uninitialize c)
  ∧ (∀ a_CachePath maxCacheSize maxCacheAge,
       NoDup (regular_stems (fs_list a_CachePath w)) →
       size_inv (Initialize a_CachePath maxCacheSize maxCacheAge w c).2).
Proof.
  intros Hinv. split_and!.
  - intros. by apply Find_size_inv.
  - intros. by eapply Save_size_inv.
  - intros. by apply Flush_size_inv.
  - apply (FlushAged_closed (λ _ c, size_inv c)); [|exact Hinv].
    intros. by apply Flush_size_inv.
  - apply (FlushOldest_closed (λ _ c, size_inv c)); [|exact Hinv].
    intros. by apply Flush_size_inv.
  - apply FlushAll_size_inv.
  - apply Uninitialize_size_inv.
  - intros. by apply Initialize_size_inv.
Qed.

Lemma size_inv_preserved_witness :
  let c := Scenario.cache_of "/tmp/c/" 100 24
             [Scenario.saved_item "/tmp/c/" "x" 900 "other"] in
  size_inv (Flush "x" (Scenario.quiet_world 1000) c).2.
Proof.
  intros c.
  assert (size_inv c) as Hc by (vm_compute; reflexivity).
  destruct (size_inv_preserved (Scenario.quiet_world 1000) c Hc)
    as (_ & _ & HFlush & _).
  apply HFlush.
Defined.

(** C2 fails in [Initialize]: two regular files with one stem are indexed
    as one entry, which keeps the size of the second, while the running
    total counts both. *)
Theorem Initialize_counts_shared_stem_twice :
  let w := Scenario.listed_world 1000 "/tmp/c/"
             [mkDirEntry "/tmp/c/a.bytes" "a" true (Some 900%float) (Some 3);
              mkDirEntry "/tmp/c/a.txt" "a" true (Some 900%float) (Some 4)] in
  let r := Initialize "/tmp/c/" 100 24 w create in
  r.1.1 = true
  ∧ m_CurrentCacheSize r.2 = 7
  ∧ size_sum (m_Cache r.2) = 4
  ∧ ¬ size_inv r.2.
Proof.
  intros w r. split; [|split; [|split]]; try (vm_compute; reflexivity).
  unfold size_inv. vm_compute. discriminate.
Qed.

(** ** The eviction loop *)

Lemma evict_bound fuel w c w' c' :
  evict fuel w c = Some (w', c') → m_CurrentCacheSize c' ≤ m_MaxCacheSize c'.
Proof.
  revert w c. induction fuel as [|fuel IH]; intros w c; simpl;
    case_bool_decide as Hgt; try discriminate;
    try (intros [= <- <-]; lia).
  destruct (FlushOldest w c) as [[r w1] c1]. apply IH.
Qed.

(** X2: whenever [Save] returns success, the running total is within
    [m_MaxCacheSize]. *)
Theorem Save_success_within_capacity (fuel : nat) (a_ID a_Data : string)
    (w w' : World) (c c' : t) :
  Save fuel a_ID a_Data w c = Some (true, w', c') →
  m_CurrentCacheSize c' ≤ m_MaxCacheSize c'.
Proof.
  intros HS.
  destruct (Save_cases fuel a_ID a_Data w c)
    as [[_ HS']|(w1 & c1 & Hk & H1 & HS')]; rewrite HS' in HS; [discriminate|].
  destruct (evict _ _ _) as [[w3 c3]|] eqn:He; [|discriminate].
  injection HS as <- <-. by eapply evict_bound.
Qed.

Lemma Save_success_within_capacity_witness :
  let c := Scenario.cache_of "/tmp/c/" 8 24
             [Scenario.saved_item "/tmp/c/" "x" 900 "other"] in
  ∃ w' c', Save 2 "a/b" "hello" (Scenario.quiet_world 1000) c = Some (true, w', c')
           ∧ m_CurrentCacheSize c' ≤ 8
           ∧ m_Cache c' !! "x"%string = None.
Proof.
  intros c.
  destruct (Save 2 "a/b" "hello" (Scenario.quiet_world 1000) c)
    as [[[b w'] c']|] eqn:HS; [|vm_compute in HS; discriminate].
  assert (b = true) as -> by (vm_compute in HS; congruence).
  exists w', c'. split; [reflexivity|].
  pose proof (Save_success_within_capacity _ _ _ _ _ _ _ HS) as Hle.
  vm_compute in HS. injection HS as <- <-.
  split; [exact Hle|vm_compute; reflexivity].
Defined.

Lemma evict_terminates n w c :
  (size (m_Cache c) ≤ n)%nat →
  size_inv c → keys_ok c → removable w c → 0 ≤ m_MaxCacheSize c →
  ∃ w' c', evict n w c = Some (w', c')
           ∧ w_remove_throws w' = w_remove_throws w.
Proof.
  revert w c. induction n as [|n IH]; intros w c Hsz Hinv Hok Hrm Hmax.
  - simpl. apply Nat.le_0_r, map_size_empty_iff in Hsz.
    rewrite bool_decide_eq_false_2; [eauto|].
    rewrite Hinv, Hsz, size_sum_empty. change (to_uint 0) with 0. lia.
  - simpl. case_bool_decide as Hgt; [|eauto].
    unfold FlushOldest.
    destruct (find_oldest c) as [o|] eqn:Ho.
    + destruct (find_oldest_member _ _ Ho) as (k & Hk).
      destruct (Hok _ _ Hk) as [Hid Hs]. rewrite Hid.
      pose proof (Flush_size_inv k w c Hinv) as Hinv'.
      pose proof (Flush_keys_ok k w c Hok) as Hok'.
      pose proof (Flush_removable k w c Hrm) as Hrm'.
      destruct (Flush_config k w c) as (Hm & _ & _ & _ & Hth).
      destruct (Flush_cases k w c)
        as [[Hk' _]|[(it & Hk' & Hr & _)|(it & w' & Hk' & Hr & HF)]];
        rewrite Hs in Hk'.
      * congruence.
      * apply fs_remove_None in Hr. exfalso. by eapply Hrm.
      * rewrite HF in Hinv', Hok', Hrm', Hth, Hm. rewrite HF. simpl in *.
        edestruct IH as (w2 & c2 & He & Hth2);
          [|exact Hinv'|exact Hok'|exact Hrm'| |].
        -- simpl. rewrite Hs, map_size_delete_Some by eauto. lia.
        -- simpl. lia.
        -- exists w2, c2. split; [exact He|congruence].
    + exfalso. apply find_oldest_none in Ho.
      rewrite Hinv, Ho, size_sum_empty in Hgt. change (to_uint 0) with 0 in Hgt.
      lia.
Qed.

(** X3: when no file deletion throws, [Save] returns, and returns success,
    within as many rounds of eviction as there are entries after the
    insertion; the running total is then within [m_MaxCacheSize]. *)
Theorem Save_terminates (fuel : nat) (a_ID a_Data : string) (w : World) (c : t) :
  size_inv c → keys_ok c → w_remove_throws w = ∅ →
  0 ≤ m_MaxCacheSize c →
  (size (m_Cache c) < fuel)%nat →
  ∃ w' c', Save fuel a_ID a_Data w c = Some (true, w', c')
           ∧ m_CurrentCacheSize c' ≤ m_MaxCacheSize c'.
Proof.
  intros Hinv Hok Hth Hmax Hfuel.
  destruct (Save_cases fuel a_ID a_Data w c)
    as [[(item & Hk & Hr) _]|(w1 & c1 & Hk & H1 & HS)].
  { apply fs_remove_None in Hr. rewrite Hth in Hr. by apply not_elem_of_empty in Hr. }
  assert (size_inv c1 ∧ keys_ok c1 ∧ w_remove_throws w1 = ∅
          ∧ m_MaxCacheSize c1 = m_MaxCacheSize c
          ∧ (size (m_Cache c1) ≤ size (m_Cache c))%nat) as (Hinv1 & Hok1 & Hth1 & Hm1 & Hsz1).
  { destruct H1 as [[-> ->]|[= -> ->]]; [split_and!; try done; lia|].
    destruct (Flush_config (sanitize a_ID) w c) as (Hm & _ & _ & _ & Hth').
    split; [by apply Flush_size_inv|]. split; [by apply Flush_keys_ok|].
    split; [congruence|]. split; [exact Hm|].
    destruct (Flush_cases (sanitize a_ID) w c)
      as [[_ ->]|[(it & _ & _ & ->)|(it & w' & Hk' & _ & ->)]]; simpl; try lia.
    rewrite map_size_delete. destruct (m_Cache c !! _); simpl; lia. }
  destruct (evict_terminates fuel (store (sanitize a_ID) a_Data w1 c1).1
              (store (sanitize a_ID) a_Data w1 c1).2) as (w3 & c3 & He & _).
  - unfold store. simpl. rewrite map_size_insert_None by exact Hk. lia.
  - by apply store_size_inv.
  - by apply store_keys_ok.
  - intros k it _. unfold store, fs_write. simpl.
    case_bool_decide; simpl; rewrite Hth1; apply not_elem_of_empty.
  - unfold store. simpl. lia.
  - exists w3, c3. rewrite HS, He. split; [reflexivity|]. by eapply evict_bound.
Qed.

Lemma Save_terminates_witness :
  let c := Scenario.cache_of "/tmp/c/" 8 24
             [Scenario.saved_item "/tmp/c/" "x" 900 "other"] in
  ∃ w' c', Save 2 "a/b" "hello" (Scenario.quiet_world 1000) c = Some (true, w', c')
           ∧ m_CurrentCacheSize c' ≤ m_MaxCacheSize c'.
Proof.
  intros c.
  apply (Save_terminates 2 "a/b" "hello" (Scenario.quiet_world 1000) c).
  - vm_compute. reflexivity.
  - apply keys_okb_correct. vm_compute. reflexivity.
  - reflexivity.
  - vm_compute. discriminate.
  - vm_compute. lia.
Defined.

Lemma evict_stuck fuel w c :
  m_CurrentCacheSize c > m_MaxCacheSize c →
  FlushOldest w c = (false, w, c) →
  evict fuel w c = None.
Proof.
  intros Hgt HF. induction fuel as [|fuel IH]; simpl;
    rewrite bool_decide_eq_true_2 by exact Hgt; [reflexivity|].
  by rewrite HF.
Qed.

(** C3 fails when the oldest entry's file cannot be deleted: [FlushOldest]
    removes nothing, and the eviction loop of [Save] never ends, whatever
    the number of rounds.  The cache holds the entry ["old"] of 5 bytes and
    may hold 5 bytes; [fs::remove] throws for ["/tmp/c/old.bytes"]. *)
Theorem Save_eviction_never_ends (fuel : nat) :
  let c := Scenario.cache_of "/tmp/c/" 5 24
             [Scenario.saved_item "/tmp/c/" "old" 0 "stale"] in
  let w := Scenario.locked_world 1000 "/tmp/c/old.bytes" in
  Save fuel "new" "x" w c = None.
Proof.
  intros c w.
  destruct (Save_cases fuel "new" "x" w c)
    as [[(item & Hk & _) _]|(w1 & c1 & Hk & H1 & ->)].
  { vm_compute in Hk. discriminate. }
  assert (w1 = w ∧ c1 = c) as [-> ->].
  { destruct H1 as [H1|[= -> ->]]; [exact H1|]. split; reflexivity. }
  rewrite evict_stuck; [reflexivity| |].
  - vm_compute. reflexivity.
  - vm_compute. reflexivity.
Qed.

(** ** Keys and ids *)

(** X5: every entry stays indexed under its own sanitized [m_Id] through every
    operation; [Initialize] establishes it when the stems of the regular
    files it finds hold no separator. *)
Theorem keys_ok_preserved (w : World) (c : t) :
  keys_ok c →
  (∀ a_ID, keys_ok (Find a_ID w c).2)
  ∧ (∀ fuel a_ID a_Data r, Save fuel a_ID a_Data w c = Some r → keys_ok r.2)
  ∧ (∀ a_ID, keys_ok (Flush a_ID w c).2)
  ∧ keys_ok (FlushAged w c).2
  ∧ keys_ok (FlushOldest w c).2
  ∧ keys_ok (FlushAll w c).2
  ∧ keys_ok (Uninitialize c)
  ∧ (∀ a_CachePath maxCacheSize maxCacheAge,
       stems_ok (fs_list a_CachePath w) →
       keys_ok (Initialize a_CachePath maxCacheSize maxCacheAge w c).2).
Proof.
  intros Hok. split_and!.
  - intros. by apply Find_keys_ok.
  - intros. by eapply Save_keys_ok.
  - intros. by apply Flush_keys_ok.
  - apply (FlushAged_closed (λ _ c, keys_ok c)); [|exact Hok].
    intros. by apply Flush_keys_ok.
  - apply (FlushOldest_closed (λ _ c, keys_ok c)); [|exact Hok].
    intros. by apply Flush_keys_ok.
  - intros k it. simpl. by rewrite lookup_empty.
  - intros k it. simpl. by rewrite lookup_empty.
  - intros. by apply Initialize_keys_ok.
Qed.

Lemma keys_ok_preserved_witness :
  let c := Scenario.cache_of "/tmp/c/" 100 24
             [Scenario.saved_item "/tmp/c/" "x" 900 "other"] in
  keys_ok (Find "x" (Scenario.quiet_world 1000) c).2.
Proof.
  intros c.
  assert (keys_ok c) as Hc by (apply keys_okb_correct; vm_compute; reflexivity).
  destruct (keys_ok_preserved (Scenario.quiet_world 1000) c Hc) as (HFind & _).
  apply HFind.
Defined.

(** ** The entry just saved survives the eviction when it fits *)

(** The scan of [FlushOldest] ends on an entry older than [now] as soon as
    there is one, when the other entries carry the time [now]. *)
Lemma oldest_fold_older now l acc :
  Forall (λ kv : string * CacheItem,
            PrimFloat.ltb (m_Time kv.2) now = true ∨ m_Time kv.2 = now) l →
  match acc with
  | Some a => PrimFloat.ltb (m_Time a) now = true
              ∨ (m_Time a = now
                 ∧ Exists (λ kv : string * CacheItem,
                             PrimFloat.ltb (m_Time kv.2) now = true) l)
  | None => Exists (λ kv : string * CacheItem,
                      PrimFloat.ltb (m_Time kv.2) now = true) l
  end →
  ∃ o, foldl oldest_step acc l = Some o ∧ PrimFloat.ltb (m_Time o) now = true.
Proof.
  revert acc. induction l as [|kv l IH]; intros acc Hall Hacc.
  - destruct acc as [a|].
    + destruct Hacc as [H|[_ H]]; [by exists a|by apply Exists_nil in H].
    + by apply Exists_nil in Hacc.
  - apply Forall_cons in Hall as [Hkv Hall]. simpl. apply IH; [exact Hall|].
    unfold oldest_step. destruct acc as [a|].
    + destruct (PrimFloat.ltb (m_Time kv.2) (m_Time a)) eqn:E.
      * destruct Hacc as [Ha|[Ha Hex]].
        -- left. by eapply float_ltb_trans.
        -- left. by rewrite <- Ha.
      * destruct Hacc as [Ha|[Ha Hex]]; [by left|right]. split; [exact Ha|].
        apply Exists_cons in Hex as [Hex|Hex]; [|exact Hex].
        rewrite Ha in E. congruence.
    + apply Exists_cons in Hacc as [Hex|Hex]; [by left|].
      destruct Hkv as [Hkv|Hkv]; [by left|right]. by split.
Qed.

Lemma FlushOldest_newest_fits now k w c :
  newest_fits now k c →
  m_CurrentCacheSize c > m_MaxCacheSize c →
  newest_fits now k (FlushOldest w c).2.
Proof.
  intros (Hinv & Hok & Hold & it & Hk & Ht & Hsz & Hlt) Hgt.
  assert (Forall (λ kv : string * CacheItem,
                    PrimFloat.ltb (m_Time kv.2) now = true ∨ m_Time kv.2 = now)
                 (in_key_order (m_Cache c))) as Hall.
  { apply Forall_forall. intros [j x] Hin. apply elem_of_in_key_order in Hin.
    simpl. destruct (decide (j = k)) as [->|Hne].
    - right. congruence.
    - left. by eapply Hold. }
  destruct (decide (Exists (λ kv : string * CacheItem, kv.1 ≠ k)
                           (in_key_order (m_Cache c)))) as [Hex|Hnex].
  - (* another entry: the oldest is not the one under [k] *)
    destruct (oldest_fold_older now (in_key_order (m_Cache c)) None Hall)
      as (o & Ho & Holder).
    { apply Exists_exists in Hex as ([j x] & Hin & Hne).
      apply Exists_exists. exists (j, x). split; [exact Hin|].
      apply elem_of_in_key_order in Hin. by eapply Hold. }
    unfold FlushOldest. fold (find_oldest c) in Ho. rewrite Ho.
    destruct (find_oldest_member _ _ Ho) as (j & Hj).
    destruct (Hok _ _ Hj) as [Hid Hs]. rewrite Hid.
    assert (j ≠ k) as Hjk.
    { intros ->. rewrite Hk in Hj. injection Hj as ->.
      rewrite Ht, float_ltb_irrefl in Holder. discriminate. }
    destruct (Flush_config j w c) as (Hm & _).
    split; [by apply Flush_size_inv|]. split; [by apply Flush_keys_ok|].
    destruct (Flush_cases j w c)
      as [[_ ->]|[(x & _ & _ & ->)|(x & w' & Hx & _ & HF)]]; simpl;
      try (split; [exact Hold|by exists it]).
    rewrite HF in Hm. rewrite HF. simpl in *. rewrite Hs. split.
    + intros i y Hy Hne. simpl in Hy.
      apply lookup_delete_Some in Hy as [_ Hy]. by eapply Hold.
    + exists it. split; [by rewrite lookup_delete_ne|]. split_and!; try done; lia.
  - (* no other entry: the running total is the size of this one *)
    exfalso.
    assert (m_Cache c = <[ k := it ]> ∅) as Hm.
    { apply map_eq. intros j. destruct (decide (j = k)) as [->|Hne].
      - by rewrite lookup_insert_eq.
      - rewrite lookup_insert_ne, lookup_empty by done.
        destruct (m_Cache c !! j) as [x|] eqn:Hj; [|reflexivity].
        exfalso. apply Hnex, Exists_exists. exists (j, x).
        split; [by apply elem_of_in_key_order|exact Hne]. }
    unfold size_inv in Hinv.
    rewrite Hm, size_sum_insert_fresh, size_sum_empty in Hinv
      by apply lookup_empty.
    unfold to_uint in Hinv. rewrite Z.add_0_r, Z.mod_small in Hinv by lia. lia.
Qed.

Lemma evict_newest_fits now k fuel w c w' c' :
  newest_fits now k c → evict fuel w c = Some (w', c') → newest_fits now k c'.
Proof.
  revert w c. induction fuel as [|fuel IH]; intros w c H; simpl;
    case_bool_decide as Hgt; try discriminate; try (by intros [= <- <-]).
  pose proof (FlushOldest_newest_fits now k w c H Hgt) as H'.
  destruct (FlushOldest w c) as [[r w1] c1]. by apply IH.
Qed.

Lemma Flush_others_older now k a_ID w c :
  others_older now k c → others_older now k (Flush a_ID w c).2.
Proof.
  intros Hold j it Hj Hne.
  destruct (Flush_lookup a_ID w c j) as [Hn|He]; [congruence|].
  rewrite He in Hj. by eapply Hold.
Qed.

(** X4: when the data fits the capacity and every other entry is strictly
    older than the clock, a successful [Save] leaves the new entry indexed,
    and [Find] returns it. *)
Theorem Save_keeps_fitting_entry (fuel : nat) (a_ID a_Data : string)
    (w w' : World) (c c' : t) :
  size_inv c → keys_ok c →
  to_uint (str_size a_Data) ≤ m_MaxCacheSize c →
  others_older (w_now w) (sanitize a_ID) c →
  Save fuel a_ID a_Data w c = Some (true, w', c') →
  ∀ w2, ∃ item, Find a_ID w2 c' = (Some item, w2, c')
                ∧ m_Data item = a_Data.
Proof.
  intros Hinv Hok Hfit Hold HS.
  pose proof (Save_holds _ _ _ _ _ _ _ HS) as Hholds.
  destruct (Save_cases fuel a_ID a_Data w c)
    as [[_ HS']|(w1 & c1 & Hk & H1 & HS')]; rewrite HS' in HS; [discriminate|].
  destruct (evict _ _ _) as [[w3 c3]|] eqn:He; [|discriminate].
  injection HS as <- <-.
  assert (size_inv c1 ∧ keys_ok c1 ∧ others_older (w_now w) (sanitize a_ID) c1
          ∧ m_MaxCacheSize c1 = m_MaxCacheSize c ∧ w_now w1 = w_now w)
    as (Hinv1 & Hok1 & Hold1 & Hm1 & Hnow1).
  { destruct H1 as [[-> ->]|[= -> ->]]; [by split_and!|].
    destruct (Flush_config (sanitize a_ID) w c) as (Hm & _ & _ & Hn & _).
    split; [by apply Flush_size_inv|]. split; [by apply Flush_keys_ok|].
    split; [by apply Flush_others_older|]. by split. }
  assert (newest_fits (w_now w) (sanitize a_ID)
            (store (sanitize a_ID) a_Data w1 c1).2) as Hnew.
  { split; [by apply store_size_inv|]. split; [by apply store_keys_ok|]. split.
    - intros j it. unfold store. simpl. intros Hj Hne.
      rewrite lookup_insert_ne in Hj by done. by eapply Hold1.
    - eexists. unfold store. simpl. rewrite lookup_insert_eq.
      split; [reflexivity|]. simpl. split; [exact Hnow1|].
      pose proof (to_uint_range (str_size a_Data)). lia. }
  destruct (evict_newest_fits _ _ _ _ _ _ _ Hnew He) as (_ & _ & _ & it & Hit & _).
  destruct Hholds as [Hn|(item & Hitem & Hl & Hd)]; [congruence|].
  intros w2. exists item. split; [|exact Hd].
  unfold Find. by rewrite Hitem, Hl.
Qed.

Lemma Save_keeps_fitting_entry_witness :
  let c := Scenario.cache_of "/tmp/c/" 8 24
             [Scenario.saved_item "/tmp/c/" "x" 900 "other"] in
  ∃ w' c' item,
    Save 2 "a/b" "hello" (Scenario.quiet_world 1000) c = Some (true, w', c')
    ∧ Find "a/b" (Scenario.quiet_world 1001) c'
      = (Some item, Scenario.quiet_world 1001, c')
    ∧ m_Data item = "hello"%string.
Proof.
  intros c.
  destruct (Save 2 "a/b" "hello" (Scenario.quiet_world 1000) c)
    as [[[b w'] c']|] eqn:HS; [|vm_compute in HS; discriminate].
  assert (b = true) as -> by (vm_compute in HS; congruence).
  destruct (Save_keeps_fitting_entry 2 "a/b" "hello" (Scenario.quiet_world 1000)
              w' c c') with (w2 := Scenario.quiet_world 1001)
    as (item & HFind & Hdata).
  - vm_compute. reflexivity.
  - apply keys_okb_correct. vm_compute. reflexivity.
  - vm_compute. discriminate.
  - intros j it Hj Hne.
    apply elem_of_map_to_list in Hj. vm_compute in Hj.
    apply list_elem_of_singleton in Hj. injection Hj as _ ->.
    vm_compute. reflexivity.
  - exact HS.
  - exists w', c', item. by repeat split.
Defined.

(** ** Flush, Find and Save together *)

(** X17: when [Flush] returns true, the entry is gone from the index, the
    running total is smaller by its size, its backing file is deleted with
    one call of [fs::remove], and every other entry is as before;
    afterwards [Find] of the same id returns NULL and a second [Flush]
    returns false, both without changing anything. *)
Theorem Flush_removes_entry (a_ID : string) (w w' : World) (c c' : t) :
  Flush a_ID w c = (true, w', c') →
  (∃ item, m_Cache c !! sanitize a_ID = Some item
           ∧ m_CurrentCacheSize c' = to_uint (m_CurrentCacheSize c - m_Size item)
           ∧ w_files w' = delete (m_Path item) (w_files w)
           ∧ w_log w' = w_log w ++ [EvRemove (m_Path item)])
  ∧ m_Cache c' = delete (sanitize a_ID) (m_Cache c)
  ∧ (∀ w2, Find a_ID w2 c' = (None, w2, c'))
  ∧ (∀ w2, Flush a_ID w2 c' = (false, w2, c')).
Proof.
  intros HF.
  destruct (Flush_cases a_ID w c)
    as [[_ HF']|[(item & _ & _ & HF')|(item & w1 & Hk & Hr & HF')]];
    rewrite HF' in HF; try discriminate.
  injection HF as <- <-.
  assert (m_Cache (set_Cache (delete (sanitize a_ID) (m_Cache c))
            (set_CurrentCacheSize (to_uint (m_CurrentCacheSize c - m_Size item)) c))
          !! sanitize a_ID = None) as Hgone by apply lookup_delete_eq.
  split; [|split; [reflexivity|split]].
  - exists item. split; [exact Hk|]. split; [reflexivity|].
    revert Hr. unfold fs_remove. case_bool_decide; [discriminate|].
    by intros [= <-].
  - intros w2. unfold Find. by rewrite Hgone.
  - intros w2. unfold Flush. by rewrite Hgone.
Qed.

Lemma Flush_removes_entry_witness :
  let c := Scenario.cache_of "/tmp/c/" 100 24
             [Scenario.saved_item "/tmp/c/" "a_b" 900 "hello";
              Scenario.saved_item "/tmp/c/" "x" 901 "other"] in
  let w := Scenario.quiet_world 1000 in
  ∃ w' c', Flush "a/b" w c = (true, w', c')
           ∧ m_CurrentCacheSize c' = 5
           ∧ m_Cache c' !! "a_b"%string = None
           ∧ Find "a/b" w' c' = (None, w', c').
Proof.
  intros c w.
  destruct (Flush "a/b" w c) as [[b w'] c'] eqn:HF.
  assert (b = true) as -> by (vm_compute in HF; congruence).
  destruct (Flush_removes_entry "a/b" w w' c c' HF)
    as ((item & Hk & Hcur & _) & Hmap & HFind & _).
  exists w', c'. split; [reflexivity|]. split.
  - rewrite Hcur. vm_compute in Hk. injection Hk as <-. vm_compute. reflexivity.
  - split; [rewrite Hmap; apply lookup_delete_eq|apply HFind].
Defined.

(** X18: once [Find] has returned an item, the entry is loaded, and every
    later [Find] of the same id returns the same item without reading the
    file again and without changing the cache, whatever has happened to the
    file in between. *)
Theorem Find_reads_once (a_ID : string) (w w' : World) (c c' : t)
    (item : CacheItem) :
  Find a_ID w c = (Some item, w', c') →
  m_bLoaded item = true
  ∧ m_Cache c' !! sanitize a_ID = Some item
  ∧ ∀ w2, Find a_ID w2 c' = (Some item, w2, c').
Proof.
  unfold Find. intros HF.
  destruct (m_Cache c !! sanitize a_ID) as [pItem|] eqn:Hk; [|discriminate].
  destruct (m_bLoaded pItem) eqn:Hl.
  - injection HF as <- <- <-. split; [exact Hl|]. split; [exact Hk|].
    intros w2. by rewrite Hk, Hl.
  - unfold fs_read in HF. cbv zeta in HF.
    case_bool_decide; injection HF as <- <- <-; simpl;
      (split; [reflexivity|]); rewrite lookup_insert_eq;
      (split; [reflexivity|]); intros w2; reflexivity.
Qed.

Lemma Find_reads_once_witness :
  let c := mkCache true "/tmp/c/" 100 24
             {[ "a"%string := mkCacheItem "a" "/tmp/c/a.bytes" 900 5 false "" ]} 5 in
  let w := set_files {[ "/tmp/c/a.bytes"%string := "hello"%string ]}
             (Scenario.quiet_world 1000) in
  ∃ item w' c',
    Find "a" w c = (Some item, w', c')
    ∧ m_Data item = "hello"%string
    ∧ Find "a" (Scenario.quiet_world 2000) c'
      = (Some item, Scenario.quiet_world 2000, c').
Proof.
  intros c w.
  destruct (Find "a" w c) as [[[item|] w'] c'] eqn:HF;
    [|vm_compute in HF; discriminate].
  destruct (Find_reads_once "a" w w' c c' item HF) as (_ & _ & Hagain).
  exists item, w', c'. split; [reflexivity|]. split; [|apply Hagain].
  vm_compute in HF. by injection HF as <- _ _.
Defined.

(** X19: [Find] on an entry that is not loaded reads the backing file (no
    bytes when it cannot be opened), stores the bytes in the entry and marks
    it loaded; the entry's size becomes the number of bytes read and the
    running total moves by the difference; id, path and time of the
    entry, and all other entries, stay as they are. *)
Theorem Find_loads_entry (a_ID : string) (w : World) (c : t) (pItem : CacheItem) :
  m_Cache c !! sanitize a_ID = Some pItem →
  m_bLoaded pItem = false →
  0 ≤ m_Size pItem < UINT_MOD →
  0 ≤ m_CurrentCacheSize c < UINT_MOD →
  let data := default EmptyString (w_files w !! m_Path pItem) in
  let item :=
    mkCacheItem (m_Id pItem) (m_Path pItem) (m_Time pItem)
                (to_uint (str_size data)) true data in
  ∃ w' c',
    Find a_ID w c = (Some item, w', c')
    ∧ w_log w' = w_log w ++ [EvRead (m_Path pItem)]
    ∧ w_files w' = w_files w
    ∧ m_Cache c' = <[ sanitize a_ID := item ]> (m_Cache c)
    ∧ m_CurrentCacheSize c'
      = to_uint (m_CurrentCacheSize c - m_Size pItem + str_size data).
Proof.
  intros Hk Hl Hsz Hcur data item. unfold Find. rewrite Hk, Hl.
  unfold fs_read. cbv zeta. fold data. simpl m_Size.
  case_bool_decide as Hne.
  - eexists _, _. split; [reflexivity|]. simpl. split; [reflexivity|].
    split; [reflexivity|]. split; [reflexivity|].
    case_bool_decide; f_equal; lia.
  - eexists _, _. split.
    + do 2 f_equal. unfold item, set_bLoaded, set_Data. simpl. f_equal.
      f_equal. rewrite Hne. unfold to_uint. by rewrite Z.mod_small.
    + simpl. split; [reflexivity|]. split; [reflexivity|]. split.
      * do 2 f_equal. unfold item, set_bLoaded, set_Data. simpl.
        rewrite Hne. unfold to_uint. by rewrite Z.mod_small.
      * rewrite Hne. replace (_ - _ + _) with (m_CurrentCacheSize c) by lia.
        unfold to_uint. by rewrite Z.mod_small.
Qed.

Lemma Find_loads_entry_witness :
  let c := mkCache true "/tmp/c/" 100 24
             {[ "a"%string := mkCacheItem "a" "/tmp/c/a.bytes" 900 9 false "";
                "b"%string := mkCacheItem "b" "/tmp/c/b.bytes" 901 4 false "" ]} 13 in
  let w := set_files {[ "/tmp/c/a.bytes"%string := "hello"%string ]}
             (Scenario.quiet_world 1000) in
  ∃ w' c',
    Find "a" w c
    = (Some (mkCacheItem "a" "/tmp/c/a.bytes" 900 5 true "hello"), w', c')
    ∧ m_CurrentCacheSize c' = 9.
Proof.
  intros c w.
  destruct (Find_loads_entry "a" w c
              (mkCacheItem "a" "/tmp/c/a.bytes" 900 9 false ""))
    as (w' & c' & HF & _ & _ & _ & Hcur);
    try (vm_compute; (reflexivity || (split; discriminate || reflexivity))).
  exists w', c'. split; [exact HF|]. rewrite Hcur. vm_compute. reflexivity.
Defined.

Lemma Save_start fuel a_ID a_Data w c :
  (∀ item, m_Cache c !! sanitize a_ID = Some item →
           m_Path item ∉ w_remove_throws w) →
  ∃ w1 c1,
    Save fuel a_ID a_Data w c
    = (λ r : World * t, (true, r.1, r.2))
        <$> evict fuel (store (sanitize a_ID) a_Data w1 c1).1
                       (store (sanitize a_ID) a_Data w1 c1).2
    ∧ m_Cache c1 = delete (sanitize a_ID) (m_Cache c)
    ∧ m_CurrentCacheSize c1
      = match m_Cache c !! sanitize a_ID with
        | Some item => to_uint (m_CurrentCacheSize c - m_Size item)
        | None => m_CurrentCacheSize c
        end
    ∧ w_files w1
      = match m_Cache c !! sanitize a_ID with
        | Some item => delete (m_Path item) (w_files w)
        | None => w_files w
        end
    ∧ m_bInitialized c1 = m_bInitialized c ∧ m_CachePath c1 = m_CachePath c
    ∧ m_MaxCacheSize c1 = m_MaxCacheSize c ∧ m_MaxCacheAge c1 = m_MaxCacheAge c
    ∧ w_now w1 = w_now w ∧ w_write_fails w1 = w_write_fails w
    ∧ w_remove_throws w1 = w_remove_throws w.
Proof.
  intros Hdel.
  destruct (Save_cases fuel a_ID a_Data w c)
    as [[(item & Hk & Hr) _]|(w1 & c1 & Hk1 & H1 & HS)].
  { apply fs_remove_None in Hr. exfalso. by eapply Hdel. }
  exists w1, c1. split; [exact HS|].
  destruct H1 as [[-> ->]|Heq].
  - rewrite Hk1. rewrite delete_id by exact Hk1. by split_and!.
  - destruct (Flush_cases (sanitize a_ID) w c)
      as [[Hk HF]|[(item & Hk & Hr & HF)|(item & w' & Hk & Hr & HF)]];
      rewrite sanitize_idempotent in Hk; rewrite HF in Heq; simpl in Heq;
      injection Heq as -> ->.
    + rewrite Hk. rewrite delete_id by exact Hk. by split_and!.
    + congruence.
    + rewrite Hk, sanitize_idempotent. simpl.
      revert Hr. unfold fs_remove. case_bool_decide; [discriminate|].
      intros [= <-]. by split_and!.
Qed.

(** X20: when the old object under the id, if there is one, can be deleted
    and the new total is within [m_MaxCacheSize], [Save] returns success
    without evicting: the index is the old one with the new loaded entry
    under the sanitized id, the running total is the old one less the old
    object's size plus the new size, and the configuration is unchanged.
    The old backing file is deleted, and the bytes are in the new one
    unless the write fails. *)
Theorem Save_within_capacity (fuel : nat) (a_ID a_Data : string) (w : World)
    (c : t) :
  let id := sanitize a_ID in
  let path := (m_CachePath c ++ id ++ ".bytes")%string in
  let item :=
    mkCacheItem id path (w_now w) (to_uint (str_size a_Data)) true a_Data in
  let total :=
    to_uint (m_CurrentCacheSize c - from_option m_Size 0 (m_Cache c !! id)
             + str_size a_Data) in
  (∀ old, m_Cache c !! id = Some old → m_Path old ∉ w_remove_throws w) →
  total ≤ m_MaxCacheSize c →
  ∃ w',
    Save fuel a_ID a_Data w c
    = Some (true, w',
            mkCache (m_bInitialized c) (m_CachePath c) (m_MaxCacheSize c)
                    (m_MaxCacheAge c) (<[ id := item ]> (m_Cache c)) total)
    ∧ (∀ old, m_Cache c !! id = Some old → m_Path old ≠ path →
              w_files w' !! m_Path old = None)
    ∧ (path ∉ w_write_fails w → w_files w' !! path = Some a_Data).
Proof.
  intros id path item total Hdel Hfit.
  destruct (Save_start fuel a_ID a_Data w c Hdel)
    as (w1 & c1 & HS & Hmap & Hcur1 & Hfiles & Hi & Hp & Hm & Ha & Hn & Hwf & _).
  fold id in HS, Hmap, Hcur1, Hfiles.
  assert ((store id a_Data w1 c1).2
          = mkCache (m_bInitialized c) (m_CachePath c) (m_MaxCacheSize c)
                    (m_MaxCacheAge c) (<[ id := item ]> (m_Cache c)) total)
    as Hstore.
  { unfold store. simpl. rewrite Hmap, lookup_delete_eq. simpl.
    unfold set_Cache, set_CurrentCacheSize. simpl.
    rewrite Hi, Hp, Hm, Ha, Hn, insert_delete_eq. f_equal.
    rewrite Hcur1, to_uint_add_r. unfold total.
    destruct (m_Cache c !! id) as [old|]; simpl.
    - rewrite to_uint_add_l. f_equal.
    - f_equal. lia. }
  rewrite evict_fits in HS by (rewrite Hstore; simpl; lia).
  rewrite Hstore in HS. cbn [fmap option_fmap option_map fst snd] in HS.
  eexists. split; [exact HS|].
  unfold store, fs_write. simpl.
  rewrite Hp, Hwf. fold id path. split.
  - intros old Hold Hne. rewrite Hold in Hfiles.
    case_bool_decide; simpl; rewrite Hfiles.
    + apply lookup_delete_eq.
    + rewrite lookup_insert_ne by done. apply lookup_delete_eq.
  - intros Hok. rewrite bool_decide_eq_false_2 by exact Hok. simpl.
    apply lookup_insert_eq.
Qed.

Lemma Save_within_capacity_witness :
  let c := Scenario.cache_of "/tmp/c/" 100 24
             [Scenario.saved_item "/tmp/c/" "a_b" 900 "hello";
              Scenario.saved_item "/tmp/c/" "x" 901 "other"] in
  ∃ w' c',
    Save 0 "a/b" "hi" (Scenario.quiet_world 1000) c = Some (true, w', c')
    ∧ m_CurrentCacheSize c' = 7
    ∧ m_Data <$> m_Cache c' !! "a_b"%string = Some "hi"%string
    ∧ w_files w' !! "/tmp/c/a_b.bytes"%string = Some "hi"%string.
Proof.
  intros c.
  destruct (Save_within_capacity 0 "a/b" "hi" (Scenario.quiet_world 1000) c)
    as (w' & HS & _ & Hfile).
  - intros old _. apply not_elem_of_empty.
  - vm_compute. discriminate.
  - eexists w', _. split; [exact HS|]. split; [vm_compute; reflexivity|].
    split; [vm_compute; reflexivity|]. apply Hfile. apply not_elem_of_empty.
Defined.

(** X21: saving under an id that is not indexed and flushing it again gives
    back the index and the running total there were before, and leaves no
    backing file behind; this holds when the data fits the cache and the
    new file can be deleted. *)
Theorem Flush_undoes_Save (fuel : nat) (a_ID a_Data : string) (w : World)
    (c : t) :
  m_Cache c !! sanitize a_ID = None →
  0 ≤ m_CurrentCacheSize c < UINT_MOD →
  to_uint (m_CurrentCacheSize c + str_size a_Data) ≤ m_MaxCacheSize c →
  (m_CachePath c ++ sanitize a_ID ++ ".bytes")%string ∉ w_remove_throws w →
  ∃ w1 c1 w2,
    Save fuel a_ID a_Data w c = Some (true, w1, c1)
    ∧ Flush a_ID w1 c1 = (true, w2, c)
    ∧ w_files w2 !! (m_CachePath c ++ sanitize a_ID ++ ".bytes")%string = None.
Proof.
  intros Hk Hcur Hfit Hdel.
  destruct (Save_start fuel a_ID a_Data w c) as
    (w1 & c1 & HS & Hmap & Hcur1 & Hfiles & Hi & Hp & Hm & Ha & Hn & Hwf & Hrt).
  { intros item Hit. congruence. }
  rewrite Hk in Hcur1. rewrite delete_id in Hmap by exact Hk.
  assert (c1 = c) as -> by (destruct c1, c; simpl in *; congruence).
  rewrite evict_fits in HS.
  2:{ unfold store. simpl. rewrite to_uint_add_r. lia. }
  simpl in HS. eexists _, _, _. split; [exact HS|].
  unfold Flush, store. simpl.
  rewrite lookup_insert_eq. simpl.
  unfold fs_remove, fs_write. simpl.
  assert (w_remove_throws (if bool_decide
             ((m_CachePath c ++ sanitize a_ID ++ ".bytes")%string ∈ w_write_fails w1)
           then w1
           else set_files (<[(m_CachePath c ++ sanitize a_ID ++ ".bytes")%string
                              := a_Data]> (w_files w1)) w1)
          = w_remove_throws w) as ->.
  { case_bool_decide; simpl; exact Hrt. }
  rewrite bool_decide_eq_false_2 by exact Hdel.
  split.
  - f_equal. destruct c as [bi cp ms ma m cur]. simpl in *.
    unfold set_Cache, set_CurrentCacheSize. simpl.
    rewrite delete_insert_eq, delete_id by exact Hk.
    f_equal. rewrite to_uint_sub_l.
    replace (cur + to_uint (str_size a_Data) - to_uint (str_size a_Data)) with cur
      by lia.
    unfold to_uint. by rewrite Z.mod_small.
  - simpl. apply lookup_delete_eq.
Qed.

Lemma Flush_undoes_Save_witness :
  let c := Scenario.cache_of "/tmp/c/" 100 24
             [Scenario.saved_item "/tmp/c/" "x" 901 "other"] in
  ∃ w1 c1 w2,
    Save 0 "a/b" "hello" (Scenario.quiet_world 1000) c = Some (true, w1, c1)
    ∧ Flush "a/b" w1 c1 = (true, w2, c)
    ∧ w_files w2 !! "/tmp/c/a_b.bytes"%string = None.
Proof.
  intros c.
  apply (Flush_undoes_Save 0 "a/b" "hello" (Scenario.quiet_world 1000) c).
  - vm_compute. reflexivity.
  - vm_compute. split; [discriminate|reflexivity].
  - vm_compute. discriminate.
  - apply not_elem_of_empty.
Defined.

(** ** FlushOldest and the eviction order *)

Lemma oldest_fold_min l acc seen o :
  match acc with
  | Some a =>
      Forall (λ x : CacheItem, PrimFloat.ltb (m_Time x) (m_Time a) = false) seen
  | None => seen = []
  end →
  foldl oldest_step acc l = Some o →
  Forall (λ x : CacheItem, PrimFloat.ltb (m_Time x) (m_Time o) = false)
         (seen ++ (snd <$> l)).
Proof.
  revert acc seen. induction l as [|kv l IH]; intros acc seen Hacc Hfold.
  - simpl in *. rewrite app_nil_r. by subst acc.
  - simpl in Hfold. rewrite fmap_cons, cons_middle, app_assoc.
    eapply IH; [|exact Hfold].
    unfold oldest_step. destruct acc as [b|].
    + destruct (PrimFloat.ltb (m_Time kv.2) (m_Time b)) eqn:E; apply Forall_app.
      * split; [|repeat constructor; apply float_ltb_irrefl].
        eapply Forall_impl; [exact Hacc|]. intros x Hx. simpl in Hx.
        destruct (PrimFloat.ltb (m_Time x) (m_Time kv.2)) eqn:E'; [|reflexivity].
        by rewrite (float_ltb_trans _ _ _ E' E) in Hx.
      * split; [exact Hacc|]. by repeat constructor.
    + subst seen. simpl. repeat constructor. apply float_ltb_irrefl.
Qed.

Lemma find_oldest_oldest c o : find_oldest c = Some o → oldest c o.
Proof.
  unfold find_oldest. intros Hfold j q Hq.
  pose proof (oldest_fold_min _ None [] o eq_refl Hfold) as Hall.
  simpl in Hall. rewrite Forall_forall in Hall. apply Hall.
  apply list_elem_of_fmap. exists (j, q). split; [reflexivity|].
  by apply elem_of_in_key_order.
Qed.

(** X22: [FlushOldest] on an empty index returns false and changes nothing.
    Otherwise it flushes an entry no other entry is strictly older than:
    its result is the result of [Flush] on the key of that entry. *)
Theorem FlushOldest_flushes_oldest (w : World) (c : t) :
  keys_ok c →
  (m_Cache c = ∅ → FlushOldest w c = (false, w, c))
  ∧ (m_Cache c ≠ ∅ →
     ∃ k o, m_Cache c !! k = Some o ∧ oldest c o
            ∧ FlushOldest w c = Flush k w c
            ∧ (m_Path o ∉ w_remove_throws w →
               (FlushOldest w c).1.1 = true
               ∧ m_Cache (FlushOldest w c).2 = delete k (m_Cache c))).
Proof.
  intros Hok. split.
  - intros Hempty. unfold FlushOldest, find_oldest.
    by rewrite Hempty, in_key_order_empty.
  - intros Hne. unfold FlushOldest.
    destruct (find_oldest c) as [o|] eqn:Ho.
    2:{ apply find_oldest_none in Ho. contradiction. }
    destruct (find_oldest_member _ _ Ho) as (k & Hk).
    destruct (Hok _ _ Hk) as [Hid Hs].
    exists k, o. split; [exact Hk|]. split; [by apply find_oldest_oldest|].
    rewrite Hid. split; [reflexivity|]. intros Hdel.
    destruct (Flush_cases k w c)
      as [[Hk' _]|[(it & Hk' & Hr & _)|(it & w' & Hk' & Hr & ->)]];
      rewrite Hs in Hk'.
    + congruence.
    + apply fs_remove_None in Hr. congruence.
    + simpl. by rewrite Hs.
Qed.

Lemma FlushOldest_flushes_oldest_witness :
  let c := Scenario.cache_of "/tmp/c/" 100 24
             [Scenario.saved_item "/tmp/c/" "new" 950 "hello";
              Scenario.saved_item "/tmp/c/" "old" 900 "other"] in
  let r := FlushOldest (Scenario.quiet_world 1000) c in
  r.1.1 = true ∧ m_Cache r.2 !! "old"%string = None
  ∧ is_Some (m_Cache r.2 !! "new"%string).
Proof.
  intros c r.
  destruct (FlushOldest_flushes_oldest (Scenario.quiet_world 1000) c)
    as [_ Hflush].
  { apply keys_okb_correct. vm_compute. reflexivity. }
  destruct Hflush as (k & o & Hk & Hold & _ & Hdone).
  { intros Hempty. assert (m_Cache c !! "old"%string = None) as H
      by (rewrite Hempty; apply lookup_empty).
    vm_compute in H. discriminate. }
  destruct (Hdone ltac:(apply not_elem_of_empty)) as [Htrue _].
  split; [exact Htrue|]. split; vm_compute; eauto.
Defined.

Lemma evict_subset fuel w c w' c' j q :
  evict fuel w c = Some (w', c') → m_Cache c' !! j = Some q →
  m_Cache c !! j = Some q.
Proof.
  intros He Hq.
  assert (m_Cache c' !! j = None ∨ m_Cache c' !! j = m_Cache c !! j) as [H|H].
  { eapply (evict_closed (λ _ c1, m_Cache c1 !! j = None
                                  ∨ m_Cache c1 !! j = m_Cache c !! j));
      [|by right|exact He].
    intros a w1 c1 [H|H]; simpl.
    - destruct (Flush_lookup a w1 c1 j) as [H'|H']; [by left|left; congruence].
    - destruct (Flush_lookup a w1 c1 j) as [H'|H']; [by left|right; congruence]. }
  - congruence.
  - congruence.
Qed.

Lemma evict_oldest_first fuel w c w' c' :
  keys_ok c → evict fuel w c = Some (w', c') →
  ∀ k r j q, m_Cache c !! k = Some r → m_Cache c' !! k = None →
             m_Cache c' !! j = Some q →
             PrimFloat.ltb (m_Time q) (m_Time r) = false.
Proof.
  revert w c. induction fuel as [|fuel IH]; intros w c Hok; simpl;
    case_bool_decide as Hgt; try discriminate;
    try (intros [= <- <-] k r j q Hr Hgone; congruence).
  intros He k r j q Hr Hgone Hq.
  unfold FlushOldest in He.
  destruct (find_oldest c) as [o|] eqn:Ho; [|by eapply IH].
  destruct (find_oldest_member _ _ Ho) as (ko & Hko).
  destruct (Hok _ _ Hko) as [Hid Hs]. rewrite Hid in He.
  pose proof (Flush_keys_ok ko w c Hok) as Hok1.
  destruct (Flush_cases ko w c)
    as [[_ HF]|[(it & _ & _ & HF)|(it & w1 & Hk1 & _ & HF)]];
    rewrite HF in He, Hok1; simpl in *; try (by eapply IH).
  rewrite Hs in *.
  destruct (decide (ko = k)) as [->|Hne].
  - assert (r = o) as -> by congruence.
    apply (find_oldest_oldest _ _ Ho j).
    pose proof (evict_subset _ _ _ _ _ j q He Hq) as Hq1. simpl in Hq1.
    by apply lookup_delete_Some in Hq1 as [_ ?].
  - eapply (IH _ _ Hok1 He k r j q); [|exact Hgone|exact Hq].
    simpl. by rewrite lookup_delete_ne.
Qed.

(** X23: the eviction of [Save] goes oldest first: when [Save] returns
    success, no entry it has evicted is strictly newer than an entry it has
    kept, the new entry included, and the entries it has kept are
    unchanged. *)
Theorem Save_evicts_oldest_first (fuel : nat) (a_ID a_Data : string)
    (w w' : World) (c c' : t) :
  keys_ok c →
  Save fuel a_ID a_Data w c = Some (true, w', c') →
  ∀ k r, m_Cache c !! k = Some r → k ≠ sanitize a_ID →
         (m_Cache c' !! k = None ∨ m_Cache c' !! k = Some r)
         ∧ (m_Cache c' !! k = None →
            ∀ j q, m_Cache c' !! j = Some q →
                   PrimFloat.ltb (m_Time q) (m_Time r) = false).
Proof.
  intros Hok HS k r Hr Hne.
  destruct (Save_cases fuel a_ID a_Data w c)
    as [[_ HS']|(w1 & c1 & Hk1 & H1 & HS')]; rewrite HS' in HS; [discriminate|].
  destruct (evict _ _ _) as [[w3 c3]|] eqn:He; [|discriminate].
  injection HS as <- <-.
  assert (keys_ok c1 ∧ m_Cache c1 !! k = Some r) as [Hok1 Hr1].
  { destruct H1 as [[_ ->]|[= _ ->]]; [by split|].
    split; [by apply Flush_keys_ok|].
    destruct (Flush_cases (sanitize a_ID) w c)
      as [[_ ->]|[(it & _ & _ & ->)|(it & w2 & _ & _ & ->)]]; simpl; try done.
    rewrite sanitize_idempotent. by rewrite lookup_delete_ne. }
  assert (m_Cache (store (sanitize a_ID) a_Data w1 c1).2 !! k = Some r) as Hr2.
  { unfold store. simpl. by rewrite lookup_insert_ne. }
  split.
  - destruct (m_Cache c3 !! k) as [r'|] eqn:Hr3; [right|by left].
    pose proof (evict_subset _ _ _ _ _ k r' He Hr3). congruence.
  - intros Hgone j q Hq.
    eapply (evict_oldest_first _ _ _ _ _ (store_keys_ok a_ID a_Data w1 c1 Hok1) He
              k r j q Hr2 Hgone Hq).
Qed.

Lemma Save_evicts_oldest_first_witness :
  let old := Scenario.saved_item "/tmp/c/" "old" 900 "other" in
  let mid := Scenario.saved_item "/tmp/c/" "mid" 950 "third" in
  let c := Scenario.cache_of "/tmp/c/" 12 24 [old; mid] in
  ∃ w' c',
    Save 3 "new" "hello" (Scenario.quiet_world 1000) c = Some (true, w', c')
    ∧ m_Cache c' !! "old"%string = None
    ∧ m_Cache c' !! "mid"%string = Some mid
    ∧ ∀ j q, m_Cache c' !! j = Some q →
             PrimFloat.ltb (m_Time q) (m_Time old) = false.
Proof.
  intros old mid c.
  destruct (Save 3 "new" "hello" (Scenario.quiet_world 1000) c)
    as [[[b w'] c']|] eqn:HS; [|vm_compute in HS; discriminate].
  assert (b = true) as -> by (vm_compute in HS; congruence).
  assert (keys_ok c) as Hok by (apply keys_okb_correct; vm_compute; reflexivity).
  destruct (Save_evicts_oldest_first 3 "new" "hello" _ w' c c' Hok HS
              "old"%string old) as [_ Horder];
    [vm_compute; reflexivity|discriminate|].
  exists w', c'. split; [reflexivity|].
  assert (m_Cache c' !! "old"%string = None) as Hgone
      by (vm_compute in HS; injection HS as <- <-; vm_compute; reflexivity).
  split; [exact Hgone|]. split; [|exact (Horder Hgone)].
  vm_compute in HS. injection HS as <- <-. vm_compute. reflexivity.
Defined.

(** ** FlushAll *)

Lemma remove_step_files w kv path :
  w_remove_throws (remove_step w kv) = w_remove_throws w
  ∧ w_files (remove_step w kv) !! path
    = if bool_decide ((path ∉ w_remove_throws w) ∧ m_Path kv.2 = path)
      then None else w_files w !! path.
Proof.
  unfold remove_step, fs_remove.
  destruct (decide (m_Path kv.2 ∈ w_remove_throws w)) as [Hin|Hnot].
  - rewrite (bool_decide_eq_true_2 _ Hin). simpl. split; [reflexivity|].
    rewrite bool_decide_eq_false_2; [reflexivity|]. intros [H <-]. contradiction.
  - rewrite (bool_decide_eq_false_2 _ Hnot). simpl. split; [reflexivity|].
    destruct (decide (m_Path kv.2 = path)) as [<-|Hne].
    + rewrite bool_decide_eq_true_2 by done. apply lookup_delete_eq.
    + rewrite bool_decide_eq_false_2 by tauto. by apply lookup_delete_ne.
Qed.

Lemma remove_fold_files l w path :
  w_files (foldl remove_step w l) !! path
  = if bool_decide ((path ∉ w_remove_throws w)
                    ∧ Exists (λ kv : string * CacheItem, m_Path kv.2 = path) l)
    then None else w_files w !! path.
Proof.
  revert w. induction l as [|kv l IH]; intros w; simpl.
  { rewrite bool_decide_eq_false_2; [reflexivity|].
    intros [_ H]. by apply Exists_nil in H. }
  destruct (remove_step_files w kv path) as [Hth Hstep].
  rewrite IH, Hth, Hstep.
  repeat case_bool_decide; try reflexivity; exfalso;
    rewrite Exists_cons in *; tauto.
Qed.

(** X24: [FlushAll] always returns true and leaves an empty index and a
    running total of zero, also when deletions throw.  It deletes the
    backing file of every entry for which [fs::remove] does not throw and
    touches no other file; the configuration is kept. *)
Theorem FlushAll_clears_everything (w : World) (c : t) :
  let r := FlushAll w c in
  r.1.1 = true
  ∧ m_Cache r.2 = ∅ ∧ m_CurrentCacheSize r.2 = 0
  ∧ m_CachePath r.2 = m_CachePath c ∧ m_MaxCacheSize r.2 = m_MaxCacheSize c
  ∧ m_MaxCacheAge r.2 = m_MaxCacheAge c ∧ m_bInitialized r.2 = m_bInitialized c
  ∧ (∀ path, backs c path → path ∉ w_remove_throws w →
             w_files r.1.2 !! path = None)
  ∧ (∀ path, ¬ backs c path → w_files r.1.2 !! path = w_files w !! path)
  ∧ (∀ path, path ∈ w_remove_throws w →
             w_files r.1.2 !! path = w_files w !! path).
Proof.
  intros r. unfold r, FlushAll. simpl. split_and!; try reflexivity.
  - intros path (k & item & Hk & Hp) Hdel.
    rewrite remove_fold_files, bool_decide_eq_true_2; [reflexivity|].
    split; [exact Hdel|]. apply Exists_exists. exists (k, item).
    split; [by apply elem_of_in_key_order|exact Hp].
  - intros path Hnot.
    rewrite remove_fold_files, bool_decide_eq_false_2; [reflexivity|].
    intros [_ ([k item] & Hin & Hp)%Exists_exists]. apply Hnot.
    exists k, item. split; [by apply elem_of_in_key_order|exact Hp].
  - intros path Hin.
    rewrite remove_fold_files, bool_decide_eq_false_2; [reflexivity|].
    tauto.
Qed.

(** ** Initialize on a directory *)

Lemma regular_file_Some k l p :
  regular_file k l = Some p →
  p ∈ l ∧ de_regular p = true ∧ de_stem p = k ∧ k ∈ regular_stems l.
Proof.
  unfold regular_file. intros Hf. apply find_some in Hf as [Hin Hp].
  apply andb_true_iff in Hp as [Hreg Hstem]. apply String.eqb_eq in Hstem.
  split; [by apply list_elem_of_In|]. split; [exact Hreg|]. split; [exact Hstem|].
  unfold regular_stems. apply list_elem_of_fmap. exists p. split; [done|].
  apply list_elem_of_In, filter_In. by split.
Qed.

Lemma scan_entry_fresh c p :
  de_regular p = true → m_Cache c !! de_stem p = None →
  m_Cache (scan_entry c p) !! de_stem p = Some (scanned p).
Proof.
  intros Hreg Hfresh. unfold scan_entry, scanned. rewrite Hreg, Hfresh. simpl.
  destruct (de_mtime p); [destruct (de_size p)|]; simpl;
    by rewrite lookup_insert_eq.
Qed.

Lemma scan_fold_lookup l c k :
  NoDup (regular_stems l) →
  (∀ s, s ∈ regular_stems l → m_Cache c !! s = None) →
  m_Cache (foldl scan_entry c l) !! k
  = match regular_file k l with
    | Some p => Some (scanned p)
    | None => m_Cache c !! k
    end.
Proof.
  revert c. induction l as [|p l IH]; intros c Hnd Hfresh; [reflexivity|].
  simpl. unfold regular_stems in Hnd, Hfresh. simpl in Hnd, Hfresh.
  unfold regular_file. simpl. fold (regular_file k l).
  destruct (de_regular p) eqn:Hreg; simpl.
  - rewrite fmap_cons in Hnd, Hfresh. apply NoDup_cons in Hnd as [Hnotin Hnd].
    rewrite IH; [|exact Hnd|].
    2:{ intros s Hs. rewrite scan_entry_lookup_ne; [apply Hfresh; by right|].
        intros <-. contradiction. }
    destruct (String.eqb (de_stem p) k) eqn:Hk.
    + apply String.eqb_eq in Hk. subst k.
      destruct (regular_file (de_stem p) l) as [q|] eqn:Hq.
      * apply regular_file_Some in Hq as (_ & _ & _ & Hin). contradiction.
      * apply scan_entry_fresh; [exact Hreg|]. apply Hfresh. left.
    + apply String.eqb_neq in Hk.
      destruct (regular_file k l); [reflexivity|].
      by apply scan_entry_lookup_ne.
  - assert (scan_entry c p = c) as -> by (unfold scan_entry; by rewrite Hreg).
    by apply IH.
Qed.

Lemma FlushAged_lookup w c k :
  keys_ok c →
  m_Cache (FlushAged w c).2 !! k
  = match m_Cache c !! k with
    | Some item =>
        if is_aged (w_now w) (m_MaxCacheAge c) item
           && bool_decide (m_Path item ∉ w_remove_throws w)
        then None else Some item
    | None => None
    end.
Proof.
  intros Hok.
  assert (∀ id, id ∈ aged_ids (w_now w) c → sanitize id = id) as Hids.
  { intros id Hin. apply (aged_ids_spec _ _ _ Hok) in Hin as (it & Hk & _).
    by destruct (Hok _ _ Hk). }
  destruct (flush_fold_spec (aged_ids (w_now w) c) false w c Hids)
    as (Ha & Hb & _).
  fold (FlushAged w c) in Ha, Hb.
  destruct (m_Cache c !! k) as [item|] eqn:Hk.
  - destruct (is_aged _ _ item) eqn:Hag; simpl; [case_bool_decide as Hth|].
    + apply Ha; [|by exists item]. apply (aged_ids_spec _ _ _ Hok). eauto.
    + rewrite Hb, Hk; [reflexivity|]. intros [_ (it & Hit & Hno)]. congruence.
    + rewrite Hb, Hk; [reflexivity|].
      intros [Hin _]. apply (aged_ids_spec _ _ _ Hok) in Hin as (it & Hit & Hag').
      congruence.
  - rewrite Hb, Hk; [reflexivity|]. intros [_ (it & Hit & _)]. congruence.
Qed.

Lemma FlushAged_config w c :
  m_bInitialized (FlushAged w c).2 = m_bInitialized c
  ∧ m_CachePath (FlushAged w c).2 = m_CachePath c
  ∧ m_MaxCacheSize (FlushAged w c).2 = m_MaxCacheSize c
  ∧ m_MaxCacheAge (FlushAged w c).2 = m_MaxCacheAge c.
Proof.
  apply (FlushAged_closed (λ _ c1, m_bInitialized c1 = m_bInitialized c
                                   ∧ m_CachePath c1 = m_CachePath c
                                   ∧ m_MaxCacheSize c1 = m_MaxCacheSize c
                                   ∧ m_MaxCacheAge c1 = m_MaxCacheAge c));
    [|done].
  intros a w1 c1 (H1 & H2 & H3 & H4).
  destruct (Flush_cases a w1 c1)
    as [[_ ->]|[(it & _ & _ & ->)|(it & w2 & _ & _ & ->)]]; by simpl.
Qed.

Lemma Initialize_success a_CachePath maxCacheSize maxCacheAge w c :
  a_CachePath ∈ w_dirs w ∨ a_CachePath ∉ w_mkdir_throws w →
  ∃ w1,
    w_now w1 = w_now w ∧ w_remove_throws w1 = w_remove_throws w
    ∧ Initialize a_CachePath maxCacheSize maxCacheAge w c =
        (true,
         (FlushAged w1
            (foldl scan_entry
               (mkCache true a_CachePath maxCacheSize maxCacheAge ∅ 0)
               (fs_list a_CachePath w))).1.2,
         (FlushAged w1
            (foldl scan_entry
               (mkCache true a_CachePath maxCacheSize maxCacheAge ∅ 0)
               (fs_list a_CachePath w))).2).
Proof.
  intros Hdir. unfold Initialize, fs_is_directory.
  destruct (decide (a_CachePath ∈ w_dirs w)) as [Hin|Hnot].
  - rewrite bool_decide_eq_true_2 by exact Hin. exists w. simpl.
    split; [reflexivity|]. split; [reflexivity|].
    by destruct (FlushAged _ _) as [[b w2] c4].
  - rewrite bool_decide_eq_false_2 by exact Hnot.
    destruct Hdir as [Hin|Hok]; [contradiction|].
    unfold fs_create_directories. rewrite bool_decide_eq_false_2 by exact Hok.
    exists (log_event (EvCreateDirectories a_CachePath)
              (set_dirs ({[ a_CachePath ]} ∪ w_dirs w) w)).
    split; [reflexivity|]. split; [reflexivity|]. simpl.
    by destruct (FlushAged _ _) as [[b w2] c4].
Qed.

(** X25: when the cache path is a directory, or can be created, and no two
    regular files in it share a stem, [Initialize] returns success with the
    configuration set, and its index is read off the directory alone,
    whatever the cache held before: under each stem of a regular file an
    entry that is not loaded, with the file's path, time and size, except
    the files older than the maximum age, which it deletes when it can;
    nothing else is indexed, and the running total is the sum of the
    sizes. *)
Theorem Initialize_indexes_directory (a_CachePath : string) (maxCacheSize : Z)
    (maxCacheAge : float) (w : World) (c : t) :
  a_CachePath ∈ w_dirs w ∨ a_CachePath ∉ w_mkdir_throws w →
  NoDup (regular_stems (fs_list a_CachePath w)) →
  stems_ok (fs_list a_CachePath w) →
  ∃ w' c',
    Initialize a_CachePath maxCacheSize maxCacheAge w c = (true, w', c')
    ∧ m_bInitialized c' = true ∧ m_CachePath c' = a_CachePath
    ∧ m_MaxCacheSize c' = maxCacheSize ∧ m_MaxCacheAge c' = maxCacheAge
    ∧ size_inv c'
    ∧ ∀ k, m_Cache c' !! k
           = match regular_file k (fs_list a_CachePath w) with
             | Some p =>
                 if is_aged (w_now w) maxCacheAge (scanned p)
                    && bool_decide (de_path p ∉ w_remove_throws w)
                 then None else Some (scanned p)
             | None => None
             end.
Proof.
  intros Hdir Hnd Hst.
  destruct (Initialize_success a_CachePath maxCacheSize maxCacheAge w c Hdir)
    as (w1 & Hnow & Hth & ->).
  set (c0 := mkCache true a_CachePath maxCacheSize maxCacheAge ∅ 0).
  set (c3 := foldl scan_entry c0 (fs_list a_CachePath w)).
  assert (keys_ok c3) as Hok3.
  { apply scan_fold_keys_ok; [exact Hst|]. intros k it. simpl.
    by rewrite lookup_empty. }
  assert (m_bInitialized c3 = true ∧ m_CachePath c3 = a_CachePath
          ∧ m_MaxCacheSize c3 = maxCacheSize ∧ m_MaxCacheAge c3 = maxCacheAge)
    as (Hi3 & Hp3 & Hm3 & Ha3).
  { unfold c3. generalize (fs_list a_CachePath w).
    assert (m_bInitialized c0 = true ∧ m_CachePath c0 = a_CachePath
            ∧ m_MaxCacheSize c0 = maxCacheSize ∧ m_MaxCacheAge c0 = maxCacheAge)
      as H0 by done.
    revert H0. generalize c0. intros c1 H1 l. revert c1 H1.
    induction l as [|p l IH]; intros c1 H1; [exact H1|]. simpl. apply IH.
    unfold scan_entry. destruct (de_regular p); [|exact H1].
    destruct (de_mtime p); [destruct (de_size p)|]; exact H1. }
  destruct (FlushAged_config w1 c3) as (Hi & Hp & Hm & Ha).
  eexists _, _. split; [reflexivity|]. simpl.
  split; [congruence|]. split; [congruence|]. split; [congruence|].
  split; [congruence|]. split.
  - apply (FlushAged_closed (λ _ c, size_inv c)).
    + intros. by apply Flush_size_inv.
    + apply scan_fold_size_inv; [exact Hnd| |].
      * intros s _. apply lookup_empty.
      * unfold size_inv. simpl. by rewrite size_sum_empty.
  - intros k. rewrite (FlushAged_lookup w1 c3 k Hok3), Hnow, Hth, Ha3.
    unfold c3. rewrite scan_fold_lookup; [|exact Hnd|intros s _; apply lookup_empty].
    simpl. rewrite lookup_empty.
    destruct (regular_file k (fs_list a_CachePath w)) as [p|]; [|reflexivity].
    assert (m_Path (scanned p) = de_path p) as ->; [|reflexivity].
    unfold scanned. by destruct (de_mtime p); [destruct (de_size p)|].
Qed.

Lemma Initialize_indexes_directory_witness :
  let w := Scenario.listed_world 1000000 "/tmp/c/"
             [mkDirEntry "/tmp/c/a.bytes" "a" true (Some 999000%float) (Some 3);
              mkDirEntry "/tmp/c/sub" "sub" false None None;
              mkDirEntry "/tmp/c/b.bytes" "b" true (Some 0%float) (Some 4)] in
  let c := Scenario.cache_of "/tmp/c/" 100 24
             [Scenario.saved_item "/tmp/c/" "gone" 900 "other"] in
  ∃ w' c',
    Initialize "/tmp/c/" 100 24 w c = (true, w', c')
    ∧ m_Cache c' !! "a"%string
      = Some (mkCacheItem "a" "/tmp/c/a.bytes" 999000 3 false "")
    ∧ m_Cache c' !! "b"%string = None
    ∧ m_Cache c' !! "gone"%string = None
    ∧ m_CurrentCacheSize c' = 3.
Proof.
  intros w c.
  destruct (Initialize_indexes_directory "/tmp/c/" 100 24 w c)
    as (w' & c' & HI & _ & _ & _ & _ & Hinv & Hmap).
  - left. vm_compute. reflexivity.
  - vm_compute. repeat constructor; intros H;
      repeat (apply elem_of_cons in H as [H|H]; [discriminate|]);
      by apply elem_of_nil in H.
  - intros p Hp _. vm_compute in Hp.
    repeat (apply elem_of_cons in Hp as [->|Hp]; [reflexivity|]).
    by apply elem_of_nil in Hp.
  - exists w', c'. split; [exact HI|].
    split; [rewrite Hmap; vm_compute; reflexivity|].
    split; [rewrite Hmap; vm_compute; reflexivity|].
    split; [rewrite Hmap; vm_compute; reflexivity|].
    vm_compute in HI. by injection HI as _ <-.
Defined.

(** ** Data larger than the cache *)

Lemma size_sum_nonneg (m : gmap string CacheItem) :
  (∀ k item, m !! k = Some item → 0 ≤ m_Size item) → 0 ≤ size_sum m.
Proof.
  induction m as [|k item m Hk _ IH] using map_first_key_ind.
  - intros _. by rewrite size_sum_empty.
  - intros Hall. rewrite size_sum_insert_fresh by exact Hk.
    assert (0 ≤ m_Size item) by (apply (Hall k); apply lookup_insert_eq).
    assert (0 ≤ size_sum m); [|lia].
    apply IH. intros j it Hj. apply (Hall j).
    rewrite lookup_insert_ne; [exact Hj|]. intros <-. congruence.
Qed.

Lemma Flush_sizes_bound B k S a_ID w c :
  (sizes_ok c ∧ size_sum (m_Cache c) ≤ B
   ∧ (m_Cache c !! k = None ∨ ∃ it, m_Cache c !! k = Some it ∧ m_Size it = S)) →
  sizes_ok (Flush a_ID w c).2 ∧ size_sum (m_Cache (Flush a_ID w c).2) ≤ B
  ∧ (m_Cache (Flush a_ID w c).2 !! k = None
     ∨ ∃ it, m_Cache (Flush a_ID w c).2 !! k = Some it ∧ m_Size it = S).
Proof.
  intros (Hsz & Hsum & Hk).
  destruct (Flush_cases a_ID w c)
    as [[_ ->]|[(it & _ & _ & ->)|(it & w' & Hit & _ & ->)]]; simpl;
    try by split_and!.
  split; [|split].
  - intros j x Hx. simpl in Hx. apply lookup_delete_Some in Hx as [_ Hx].
    by eapply Hsz.
  - rewrite (size_sum_delete _ _ _ Hit). specialize (Hsz _ _ Hit). lia.
  - destruct (decide (sanitize a_ID = k)) as [->|Hne].
    + left. apply lookup_delete_eq.
    + by rewrite lookup_delete_ne.
Qed.

Lemma Flush_too_large M B k S a_ID w c :
  m_MaxCacheSize c = M
  ∧ sizes_ok c ∧ size_sum (m_Cache c) ≤ B
  ∧ (m_Cache c !! k = None ∨ ∃ it, m_Cache c !! k = Some it ∧ m_Size it = S) →
  m_MaxCacheSize (Flush a_ID w c).2 = M
  ∧ sizes_ok (Flush a_ID w c).2 ∧ size_sum (m_Cache (Flush a_ID w c).2) ≤ B
  ∧ (m_Cache (Flush a_ID w c).2 !! k = None
     ∨ ∃ it, m_Cache (Flush a_ID w c).2 !! k = Some it ∧ m_Size it = S).
Proof.
  intros (Hmax & H). split; [|by apply Flush_sizes_bound].
  destruct (Flush_config a_ID w c) as (-> & _). exact Hmax.
Qed.

(** X26: data whose size exceeds [m_MaxCacheSize] is never kept: when [Save]
    returns success for it, the eviction loop has already removed its entry
    again, so a following [Find] of the id returns NULL.  (The sizes are
    taken to add up below [2^32].) *)
Theorem Save_too_large_not_kept (fuel : nat) (a_ID a_Data : string)
    (w w' : World) (c c' : t) :
  size_inv c → sizes_ok c →
  size_sum (m_Cache c) + to_uint (str_size a_Data) < UINT_MOD →
  to_uint (str_size a_Data) > m_MaxCacheSize c →
  Save fuel a_ID a_Data w c = Some (true, w', c') →
  m_Cache c' !! sanitize a_ID = None
  ∧ ∀ w2, Find a_ID w2 c' = (None, w2, c').
Proof.
  intros Hinv Hsz Hsum Hbig HS.
  assert (m_Cache c' !! sanitize a_ID = None) as Hnone;
    [|split; [exact Hnone|intros w2; unfold Find; by rewrite Hnone]].
  pose proof (Save_size_inv _ _ _ _ _ _ Hinv HS) as Hinv'. simpl in Hinv'.
  destruct (Save_cases fuel a_ID a_Data w c)
    as [[_ HS']|(w1 & c1 & Hk1 & H1 & HS')]; rewrite HS' in HS; [discriminate|].
  destruct (evict _ _ _) as [[w3 c3]|] eqn:He; [|discriminate].
  injection HS as -> ->.
  pose proof (evict_bound _ _ _ _ _ He) as Hle.
  set (S := to_uint (str_size a_Data)) in *.
  set (B := size_sum (m_Cache c) + S) in *.
  assert (m_MaxCacheSize c1 = m_MaxCacheSize c ∧ sizes_ok c1
          ∧ size_sum (m_Cache c1) ≤ size_sum (m_Cache c)) as (Hm1 & Hsz1 & Hs1).
  { destruct H1 as [[_ ->]|[= _ ->]]; [by split_and!|].
    destruct (Flush_too_large (m_MaxCacheSize c) (size_sum (m_Cache c))
                (sanitize a_ID)
                (from_option m_Size 0 (m_Cache c !! sanitize a_ID))
                (sanitize a_ID) w c) as (H2 & H3 & H4 & _);
      [|by split_and!].
    split_and!; [reflexivity|exact Hsz|lia|].
    destruct (m_Cache c !! sanitize a_ID) as [it|]; [right|by left].
    by exists it. }
  pose (P := λ (_ : World) (d : t),
          m_MaxCacheSize d = m_MaxCacheSize c
          ∧ sizes_ok d ∧ size_sum (m_Cache d) ≤ B
          ∧ (m_Cache d !! sanitize a_ID = None
             ∨ ∃ it, m_Cache d !! sanitize a_ID = Some it ∧ m_Size it = S)).
  assert (P w' c') as (Hmax' & Hsz' & Hsum' & [Hk'|(it & Hit & HitS)]);
    [|exact Hk'|exfalso].
  { eapply (evict_closed P); [|clear He|exact He].
    - intros id w0 c0 H0. by apply Flush_too_large.
    - unfold P, store. simpl. split_and!.
      + exact Hm1.
      + intros j x Hx. simpl in Hx.
        apply lookup_insert_Some in Hx as [[_ <-]|[_ Hx]].
        * simpl. apply to_uint_range.
        * by eapply Hsz1.
      + rewrite size_sum_insert_fresh by exact Hk1. simpl. unfold B, S. lia.
      + right. eexists. rewrite lookup_insert_eq. split; reflexivity. }
  assert (0 ≤ size_sum (delete (sanitize a_ID) (m_Cache c'))) as Hrest.
  { apply size_sum_nonneg. intros j x Hx.
    apply lookup_delete_Some in Hx as [_ Hx]. by eapply Hsz'. }
  rewrite (size_sum_delete _ _ _ Hit) in Hrest.
  unfold size_inv, to_uint in Hinv'.
  pose proof (to_uint_range (str_size a_Data)) as HS. fold S in HS.
  rewrite Z.mod_small in Hinv' by lia. lia.
Qed.

Lemma Save_too_large_not_kept_witness :
  let c := Scenario.cache_of "/c/" 4 24 [Scenario.saved_item "/c/" "a" 900 "xy"] in
  ∃ w' c',
    Save 3 "big" "12345" (Scenario.quiet_world 1000) c = Some (true, w', c')
    ∧ m_Cache c' !! "big"%string = None.
Proof.
  intros c. eexists _, _. split; [vm_compute; reflexivity|].
  eapply proj1,
    (Save_too_large_not_kept 3 "big" "12345" (Scenario.quiet_world 1000) _ c).
  - vm_compute. reflexivity.
  - intros k item Hk. simpl in Hk.
    apply lookup_insert_Some in Hk as [[_ <-]|[_ Hk]];
      [vm_compute; discriminate|by rewrite lookup_empty in Hk].
  - vm_compute. reflexivity.
  - vm_compute. reflexivity.
  - vm_compute. reflexivity.
Defined.

End DataCacheSpec.

Module TimerPoolSpec.
Import TimerPool.

(** ** The queue after InsertTimer *)

Lemma insert_loop_flag h t p queue f1 f2 :
  (insert_loop h t p queue f1).1 = (insert_loop h t p queue f2).1.
Proof.
  revert f1 f2. induction queue as [|x queue IH]; intros f1 f2; simpl; [reflexivity|].
  destruct (h !! x) as [tx|].
  - destruct (PrimFloat.ltb t (m_NextSignal tx)); [reflexivity|].
    destruct (insert_loop h t p queue false) as [[q1 i1] g1]. reflexivity.
  - specialize (IH f1 f2).
    destruct (insert_loop h t p queue f1) as [[q1 i1] g1],
             (insert_loop h t p queue f2) as [[q2 i2] g2].
    simpl in *. by injection IH as -> ->.
Qed.

(** The queue [InsertTimer] builds, by recursion on the old queue. *)
Lemma InsertTimer_cons h x queue p tm b :
  (InsertTimer h (x :: queue) p tm b).1 =
  match h !! x with
  | Some tx =>
      if PrimFloat.ltb (m_NextSignal tm) (m_NextSignal tx)
      then p :: x :: queue
      else x :: (InsertTimer h queue p tm b).1
  | None => x :: (InsertTimer h queue p tm b).1
  end.
Proof.
  unfold InsertTimer. simpl.
  destruct (h !! x) as [tx|].
  - destruct (PrimFloat.ltb _ _); [reflexivity|].
    pose proof (insert_loop_flag h (m_NextSignal tm) p queue false true) as Hf.
    destruct (insert_loop h _ p queue false) as [[q1 i1] g1],
             (insert_loop h _ p queue true) as [[q2 i2] g2].
    simpl in *. injection Hf as -> ->. by destruct i2.
  - destruct (insert_loop h _ p queue true) as [[q1 i1] g1]. by destruct i1.
Qed.

(** Where the timer lands: after a prefix of the old queue with no timer
    strictly later than it, and before the first one that is. *)
Lemma InsertTimer_position h queue p tm b :
  ∃ l1 l2,
    queue = l1 ++ l2
    ∧ (InsertTimer h queue p tm b).1 = l1 ++ p :: l2
    ∧ Forall (not_later h (m_NextSignal tm)) l1
    ∧ later_head h (m_NextSignal tm) l2.
Proof.
  induction queue as [|x queue (l1 & l2 & Hq & Hi & Hl1 & Hl2)].
  - exists [], []. by repeat split.
  - rewrite InsertTimer_cons.
    destruct (h !! x) as [tx|] eqn:Hx;
      [destruct (PrimFloat.ltb (m_NextSignal tm) (m_NextSignal tx)) eqn:Hlt|].
    + exists [], (x :: queue). repeat split; [constructor|].
      simpl. eauto.
    + exists (x :: l1), l2. rewrite Hi, Hq. repeat split; [|exact Hl2].
      constructor; [|exact Hl1]. intros tx' Hx'. congruence.
    + exists (x :: l1), l2. rewrite Hi, Hq. repeat split; [|exact Hl2].
      constructor; [|exact Hl1]. intros tx' Hx'. congruence.
Qed.

(** ** Ascending order *)

Lemma signal_times_app h l1 l2 :
  signal_times h (l1 ++ l2) = signal_times h l1 ++ signal_times h l2.
Proof. apply omap_app. Qed.

Lemma ascending_app ts1 ts2 :
  ascending (ts1 ++ ts2)
  ↔ ascending ts1 ∧ ascending ts2
    ∧ Forall (λ t, Forall (λ u, PrimFloat.ltb u t = false) ts2) ts1.
Proof.
  induction ts1 as [|t ts1 IH]; simpl.
  - split; [intros H; by repeat split|by intros (_ & H & _)].
  - rewrite Forall_app, IH, Forall_cons. tauto.
Qed.

Lemma signal_times_not_later h t l :
  Forall (not_later h t) l →
  Forall (λ u, PrimFloat.ltb t u = false) (signal_times h l).
Proof.
  induction 1 as [|x l Hx _ IH]; simpl; [constructor|].
  unfold signal_times in *. simpl.
  destruct (h !! x) as [tx|] eqn:Hhx; simpl; [|exact IH].
  constructor; [by apply Hx|exact IH].
Qed.

Lemma InsertTimer_sorted h queue p tm b :
  h !! p = Some tm →
  queue_sorted h queue →
  queue_sorted h (InsertTimer h queue p tm b).1.
Proof.
  intros Hp Hs.
  destruct (InsertTimer_position h queue p tm b) as (l1 & l2 & -> & -> & Hl1 & Hl2).
  unfold queue_sorted in *. rewrite signal_times_app in *.
  apply ascending_app in Hs as (Hs1 & Hs2 & H12).
  assert (signal_times h (p :: l2) = m_NextSignal tm :: signal_times h l2) as ->.
  { unfold signal_times. simpl. by rewrite Hp. }
  assert (Forall (λ u, PrimFloat.ltb u (m_NextSignal tm) = false)
                 (signal_times h l2)) as Hafter.
  { destruct l2 as [|x l2]; [constructor|].
    destruct Hl2 as (tx & Hx & Hlt).
    unfold signal_times in *. simpl in *. rewrite Hx in *. simpl in *.
    destruct Hs2 as [Hhead Hs2].
    constructor; [by apply float_ltb_asym|].
    eapply Forall_impl; [exact Hhead|]. intros u Hu. simpl in Hu.
    destruct (PrimFloat.ltb u (m_NextSignal tm)) eqn:E; [|reflexivity].
    by rewrite (float_ltb_trans _ _ _ E Hlt) in Hu. }
  apply ascending_app. split; [exact Hs1|]. split.
  - simpl. split; [exact Hafter|exact Hs2].
  - apply signal_times_not_later in Hl1.
    rewrite Forall_forall in H12, Hl1. apply Forall_forall. intros t Ht.
    constructor; [by apply Hl1|by apply H12].
Qed.

(** ** Relative order in the queue *)

Lemma precedes_insert a b p l1 l2 :
  p ≠ b → precedes a b (l1 ++ l2) → precedes a b (l1 ++ p :: l2).
Proof.
  intros Hp. induction l1 as [|x l1 IH]; simpl.
  - intros H. right. by split.
  - intros [->|[Hx H]]; [by left|right]. split; [exact Hx|by apply IH].
Qed.

Lemma precedes_InsertTimer a b h queue p tm f :
  p ≠ b → precedes a b queue → precedes a b (InsertTimer h queue p tm f).1.
Proof.
  intros Hp H.
  destruct (InsertTimer_position h queue p tm f) as (l1 & l2 & -> & -> & _ & _).
  by apply precedes_insert.
Qed.

(** A timer inserted with the next-signal time of a timer [a] of the queue
    lands after [a], when no timer ahead of [a] is strictly later. *)
Lemma InsertTimer_after_equal a b h l1 l2 ta tb f :
  h !! a = Some ta → m_NextSignal ta = m_NextSignal tb →
  Forall (not_later h (m_NextSignal ta)) l1 → b ∉ l1 →
  precedes a b (InsertTimer h (l1 ++ a :: l2) b tb f).1.
Proof.
  intros Ha Heq. induction l1 as [|x l1 IH]; intros Hl1 Hb; simpl.
  - rewrite InsertTimer_cons, Ha, <- Heq, float_ltb_irrefl. simpl. by left.
  - apply not_elem_of_cons in Hb as [Hbx Hb].
    apply Forall_cons in Hl1 as [Hx Hl1].
    rewrite InsertTimer_cons.
    destruct (h !! x) as [tx|] eqn:Hhx.
    + rewrite <- Heq, (Hx tx Hhx). simpl.
      right. split; [congruence|by apply IH].
    + simpl. right. split; [congruence|by apply IH].
Qed.



(** ** The drain loop *)

Lemma fires_after_snoc a b l x :
  fires_after a b l → (x = b → a ∈ l) → fires_after a b (l ++ [x]).
Proof.
  intros Hl Hx pre post Heq.
  destruct post as [|y post _] using rev_ind.
  - apply app_inj_tail in Heq as [<- ->]. by apply Hx.
  - rewrite app_comm_cons, app_assoc in Heq.
    apply app_inj_tail in Heq as [-> _]. by eapply Hl.
Qed.

Lemma drain_step_order_inv a b now s s' :
  a ≠ b → order_inv a b s → drain_step now s = Some s' → order_inv a b s'.
Proof.
  intros Hab [Hlog Hq]. unfold drain_step.
  destruct (m_TimerQueue s) as [|front rest] eqn:Hqueue; [discriminate|].
  destruct (heap s !! front) as [spTimer|] eqn:Hfront.
  - destruct (PrimFloat.ltb now (m_NextSignal spTimer)); [discriminate|].
    set (work := if m_InvokeOnMain spTimer then InvokeOnMain front
                 else InvokeOnThread front).
    assert (dispatch_target work = front) as Hwork
        by (unfold work; by destruct (m_InvokeOnMain spTimer)).
    assert (fires_after a b (fired s ++ [front])) as Hlog'.
    { apply fires_after_snoc; [exact Hlog|]. intros ->.
      destruct Hq as [Hq|[_ Hq]]; [exact Hq|].
      simpl in Hq. destruct Hq as [Hq|[Hq _]]; congruence. }
    assert (a ∈ fired s ++ [front]
            ∨ (front ≠ a ∧ front ≠ b ∧ is_Some (heap s !! a) ∧ precedes a b rest))
      as Hq'.
    { destruct Hq as [Hq|[Hlive Hq]]; [left; apply elem_of_app; by left|].
      simpl in Hq. destruct (decide (front = a)) as [->|Hne].
      - left. apply elem_of_app. right. left.
      - right. destruct Hq as [Hq|[Hfb Hq]]; [done|]. by repeat split. }
    destruct (m_Recurring spTimer).
    + destruct (InsertTimer _ rest front _ false) as [queue' evs] eqn:HI.
      intros [= <-]. unfold order_inv, fired. simpl.
      rewrite fmap_app. simpl. rewrite Hwork. split; [exact Hlog'|].
      destruct Hq' as [Hq'|(Hfa & Hfb & Hlive & Hq')]; [by left|right]. split.
      * by rewrite lookup_insert_ne.
      * replace queue' with (queue', evs).1 by reflexivity. rewrite <- HI.
        by apply precedes_InsertTimer.
    + intros [= <-]. unfold order_inv, fired. simpl.
      rewrite fmap_app. simpl. rewrite Hwork. split; [exact Hlog'|].
      destruct Hq' as [Hq'|(Hfa & Hfb & Hlive & Hq')]; [by left|by right].
  - intros [= <-]. unfold order_inv, fired. simpl. split; [exact Hlog|].
    destruct Hq as [Hq|[Hlive Hq]]; [by left|right]. split; [exact Hlive|].
    simpl in Hq. destruct Hq as [->|[_ Hq]]; [|exact Hq].
    rewrite Hfront in Hlive. by destruct Hlive.
Qed.

Lemma drain_order_inv a b fuel now s :
  a ≠ b → order_inv a b s → order_inv a b (drain fuel now s).2.
Proof.
  intros Hab. revert s. induction fuel as [|fuel IH]; intros s H; simpl; [exact H|].
  destruct (drain_step now s) as [s'|] eqn:Hstep; [|exact H].
  apply IH. by eapply drain_step_order_inv.
Qed.

(** C8: [InsertTimer] keeps the queue in ascending order of next-signal
    time; the timer goes in front of the first live timer whose next signal
    is strictly greater than its own, after everything before that one, so
    timers with equal times stay in insertion order; and of two timers
    inserted one after the other with equal next-signal times, the second
    is never handed out by the drain loop before the first. *)
Theorem InsertTimer_keeps_order (h : Heap) (queue : list nat) (p : nat)
    (tm : ITimer) (a_bNewTimer : bool) :
  h !! p = Some tm →
  let queue1 := (InsertTimer h queue p tm a_bNewTimer).1 in
  (queue_sorted h queue → queue_sorted h queue1)
  ∧ (∃ l1 l2, queue = l1 ++ l2 ∧ queue1 = l1 ++ p :: l2
              ∧ Forall (not_later h (m_NextSignal tm)) l1
              ∧ later_head h (m_NextSignal tm) l2)
  ∧ (∀ b tb bNew fuel now,
       b ≠ p → h !! b = Some tb → m_NextSignal tb = m_NextSignal tm →
       b ∉ queue →
       let queue2 := (InsertTimer h queue1 b tb bNew).1 in
       fires_after p b (fired (drain fuel now (mkPool h queue2 [] [])).2)).
Proof.
  intros Hp queue1. split; [|split].
  - by apply InsertTimer_sorted.
  - apply InsertTimer_position.
  - intros b tb bNew fuel now Hbp Hb Heq Hbq queue2.
    apply drain_order_inv; [congruence|].
    split; [intros pre post Hnil; by destruct pre|].
    right. simpl. split; [by rewrite Hp|].
    unfold queue2, queue1.
    destruct (InsertTimer_position h queue p tm a_bNewTimer)
      as (l1 & l2 & -> & -> & Hl1 & _).
    apply (InsertTimer_after_equal p b h l1 l2 tm tb bNew Hp (eq_sym Heq) Hl1).
    intros Hin. apply Hbq, elem_of_app. by left.
Qed.

Lemma InsertTimer_keeps_order_witness :
  let h : Heap := {[ 1%nat := Scenario.one_shot 10;
                     2%nat := Scenario.one_shot 30;
                     3%nat := Scenario.one_shot 20;
                     4%nat := Scenario.one_shot 20 ]} in
  let queue1 := (InsertTimer h [1; 2]%nat 3%nat (Scenario.one_shot 20) true).1 in
  let queue2 := (InsertTimer h queue1 4%nat (Scenario.one_shot 20) true).1 in
  queue1 = [1; 3; 2]%nat
  ∧ queue2 = [1; 3; 4; 2]%nat
  ∧ queue_sorted h queue1
  ∧ fired (drain 10 25 (mkPool h queue2 [] [])).2 = [1; 3; 4]%nat
  ∧ fires_after 3%nat 4%nat (fired (drain 10 25 (mkPool h queue2 [] [])).2).
Proof.
  intros h queue1 queue2.
  destruct (InsertTimer_keeps_order h [1; 2]%nat 3%nat (Scenario.one_shot 20) true)
    as (Hsorted & _ & Hfire).
  { vm_compute. reflexivity. }
  split; [vm_compute; reflexivity|]. split; [vm_compute; reflexivity|].
  split; [|split].
  - apply Hsorted. vm_compute. repeat constructor.
  - vm_compute. reflexivity.
  - apply (Hfire 4%nat (Scenario.one_shot 20) true 10%nat 25%float).
    + discriminate.
    + vm_compute. reflexivity.
    + reflexivity.
    + vm_compute. intros H. repeat (apply elem_of_cons in H as [H|H]; [discriminate|]).
      by apply elem_of_nil in H.
Defined.

(** ** Rescheduling a recurring timer *)

Lemma recur_interval_fmax tm :
  recur_interval tm = fmax (m_Interval tm) MIN_INTERVAL_TIME.
Proof. reflexivity. Qed.

Lemma fmax_upper_bound a b :
  (fmax a b = a ∨ fmax a b = b)
  ∧ PrimFloat.ltb (fmax a b) a = false
  ∧ PrimFloat.ltb (fmax a b) b = false.
Proof.
  unfold fmax. destruct (PrimFloat.ltb a b) eqn:E.
  - split; [by right|]. split; [by apply float_ltb_asym|apply float_ltb_irrefl].
  - split; [by left|]. split; [apply float_ltb_irrefl|exact E].
Qed.

(** C9: when the drain loop hands out a recurring timer, the timer's next
    signal becomes its previous next signal plus the greater of its interval
    and [MIN_INTERVAL_TIME], and the timer goes back into the queue through
    [InsertTimer] with [a_bNewTimer] false, which makes no call on the queue
    lock or the condition variable. *)
Theorem drain_reschedules_recurring (now : float) (s : Pool) (front : nat)
    (rest : list nat) (spTimer : ITimer) :
  m_TimerQueue s = front :: rest →
  heap s !! front = Some spTimer →
  PrimFloat.ltb now (m_NextSignal spTimer) = false →
  m_Recurring spTimer = true →
  let fInterval := fmax (m_Interval spTimer) MIN_INTERVAL_TIME in
  let spTimer' :=
    set_NextSignal (PrimFloat.add (m_NextSignal spTimer) fInterval) spTimer in
  let h' := <[ front := spTimer' ]> (heap s) in
  (fInterval = m_Interval spTimer ∨ fInterval = MIN_INTERVAL_TIME)
  ∧ PrimFloat.ltb fInterval (m_Interval spTimer) = false
  ∧ PrimFloat.ltb fInterval MIN_INTERVAL_TIME = false
  ∧ ∃ s',
      drain_step now s = Some s'
      ∧ heap s' = h'
      ∧ m_NextSignal <$> heap s' !! front
        = Some (PrimFloat.add (m_NextSignal spTimer) fInterval)
      ∧ m_TimerQueue s' = (InsertTimer h' rest front spTimer' false).1
      ∧ (InsertTimer h' rest front spTimer' false).2 = []
      ∧ sync s' = sync s.
Proof.
  intros Hq Hfront Hdue Hrec fInterval spTimer' h'.
  destruct (fmax_upper_bound (m_Interval spTimer) MIN_INTERVAL_TIME)
    as (Hor & Hub1 & Hub2).
  split; [exact Hor|]. split; [exact Hub1|]. split; [exact Hub2|].
  unfold drain_step. rewrite Hq, Hfront, Hdue, Hrec.
  rewrite recur_interval_fmax. fold fInterval spTimer' h'.
  assert ((InsertTimer h' rest front spTimer' false).2 = []) as Hev.
  { unfold InsertTimer.
    destruct (insert_loop h' _ front rest true) as [[q1 i1] g1]. simpl.
    by rewrite andb_false_r. }
  destruct (InsertTimer h' rest front spTimer' false) as [queue' evs] eqn:HI.
  simpl in Hev. subst evs.
  eexists. split; [reflexivity|]. simpl.
  split; [reflexivity|]. split; [|split; [reflexivity|split; [reflexivity|]]].
  - unfold h'. by rewrite lookup_insert_eq.
  - apply app_nil_r.
Qed.

Lemma drain_reschedules_recurring_witness :
  let h : Heap := {[ 1%nat := Scenario.recurring 10 0;
                     2%nat := Scenario.one_shot 10 ]} in
  let s := mkPool h [1; 2]%nat [] [] in
  ∃ s',
    drain_step 25 s = Some s'
    ∧ m_NextSignal <$> heap s' !! 1%nat
      = Some (PrimFloat.add 10 MIN_INTERVAL_TIME)
    ∧ m_TimerQueue s' = [2; 1]%nat
    ∧ dispatched s' = [InvokeOnMain 1]
    ∧ sync s' = [].
Proof.
  intros h s.
  destruct (drain_reschedules_recurring 25 s 1%nat [2%nat]
              (Scenario.recurring 10 0))
    as (_ & _ & _ & s' & Hstep & Hheap & Hnext & Hqueue & _ & Hsync);
    try (vm_compute; reflexivity).
  exists s'. split; [exact Hstep|].
  split; [rewrite Hnext; vm_compute; reflexivity|].
  split; [rewrite Hqueue; vm_compute; reflexivity|].
  split; [|exact Hsync].
  vm_compute in Hstep. injection Hstep as <-. reflexivity.
Defined.

(** ** InsertTimer: entries and wake-ups *)

(** X6: the queue after [InsertTimer] is the old queue with one entry for
    the timer added: no entry is lost or doubled, and the entries of the
    other timers keep their order. *)
Theorem InsertTimer_adds_one_entry (h : Heap) (queue : list nat) (p : nat)
    (tm : ITimer) (a_bNewTimer : bool) :
  (InsertTimer h queue p tm a_bNewTimer).1 ≡ₚ p :: queue
  ∧ length (InsertTimer h queue p tm a_bNewTimer).1 = S (length queue)
  ∧ List.filter (λ y, negb (Nat.eqb y p)) (InsertTimer h queue p tm a_bNewTimer).1
    = List.filter (λ y, negb (Nat.eqb y p)) queue.
Proof.
  destruct (InsertTimer_position h queue p tm a_bNewTimer)
    as (l1 & l2 & -> & -> & _ & _).
  split; [|split].
  - symmetry. apply Permutation_middle.
  - rewrite !length_app. simpl. lia.
  - rewrite !List.filter_app. simpl. by rewrite Nat.eqb_refl.
Qed.

Lemma insert_loop_first h t p queue f :
  ∃ l1 l2,
    queue = l1 ++ l2
    ∧ (let '(q, bInserted, _) := insert_loop h t p queue f in
       if bInserted then q else q ++ [p]) = l1 ++ p :: l2
    ∧ (insert_loop h t p queue f).2 = f && forallb (expired h) l1.
Proof.
  revert f. induction queue as [|x queue IH]; intros f.
  - exists [], []. simpl. by rewrite andb_true_r.
  - simpl. destruct (h !! x) as [tx|] eqn:Hx.
    + destruct (PrimFloat.ltb t (m_NextSignal tx)).
      * exists [], (x :: queue). simpl. by rewrite andb_true_r.
      * destruct (IH false) as (l1 & l2 & Hq & Hr & Hf).
        destruct (insert_loop h t p queue false) as [[q bI] g].
        exists (x :: l1), l2. simpl in *. rewrite Hq at 1.
        split; [reflexivity|]. split.
        -- destruct bI; simpl; by rewrite Hr.
        -- unfold expired at 1. rewrite Hx. simpl. by rewrite Hf, andb_false_r.
    + destruct (IH f) as (l1 & l2 & Hq & Hr & Hf).
      destruct (insert_loop h t p queue f) as [[q bI] g].
      exists (x :: l1), l2. simpl in *. rewrite Hq at 1.
      split; [reflexivity|]. split.
      -- destruct bI; simpl; by rewrite Hr.
      -- unfold expired at 1. by rewrite Hx.
Qed.

(** X7: an external [InsertTimer] takes the queue lock, gives it back, and
    in between wakes the timer thread exactly when every entry ahead of the
    new one has expired, that is, when the new timer is the first live timer
    of the queue; an insertion behind a live timer wakes nobody. *)
Theorem InsertTimer_wakes_for_new_head (h : Heap) (queue : list nat) (p : nat)
    (tm : ITimer) :
  ∃ l1 l2,
    queue = l1 ++ l2
    ∧ (InsertTimer h queue p tm true).1 = l1 ++ p :: l2
    ∧ (InsertTimer h queue p tm true).2
      = if forallb (expired h) l1 then [EvLock; EvNotifyOne; EvUnlock]
        else [EvLock; EvUnlock].
Proof.
  destruct (insert_loop_first h (m_NextSignal tm) p queue true)
    as (l1 & l2 & Hq & Hr & Hf).
  exists l1, l2. split; [exact Hq|]. unfold InsertTimer.
  destruct (insert_loop h (m_NextSignal tm) p queue true) as [[q bI] g].
  simpl in *. subst g. split; [exact Hr|].
  rewrite andb_true_r. by destruct (forallb (expired h) l1).
Qed.

(** ** StopTimer *)

Lemma stop_loop_first h p tm l1 l2 :
  h !! p = Some tm → p ∉ l1 →
  stop_loop h p (l1 ++ p :: l2) = Some (l1 ++ l2).
Proof.
  intros Hp. induction l1 as [|x l1 IH]; intros Hn; simpl.
  - by rewrite Hp, bool_decide_eq_true_2.
  - apply not_elem_of_cons in Hn as [Hx Hn].
    rewrite (IH Hn). destruct (h !! x); [|reflexivity].
    by rewrite bool_decide_eq_false_2 by congruence.
Qed.

Lemma stop_loop_absent h p queue : p ∉ queue → stop_loop h p queue = None.
Proof.
  induction queue as [|x queue IH]; intros Hn; simpl; [reflexivity|].
  apply not_elem_of_cons in Hn as [Hx Hn]. rewrite (IH Hn).
  destruct (h !! x); [|reflexivity].
  by rewrite bool_decide_eq_false_2 by congruence.
Qed.

Lemma elem_of_first_split (p : nat) (queue : list nat) :
  p ∈ queue → ∃ l1 l2, queue = l1 ++ p :: l2 ∧ (p ∉ l1).
Proof.
  induction queue as [|x queue IH]; intros Hin; [by apply elem_of_nil in Hin|].
  destruct (decide (x = p)) as [->|Hne].
  - exists [], queue. split; [reflexivity|apply not_elem_of_nil].
  - apply elem_of_cons in Hin as [->|Hin]; [done|].
    destruct (IH Hin) as (l1 & l2 & -> & Hn).
    exists (x :: l1), l2. split; [reflexivity|].
    apply not_elem_of_cons. split; [congruence|exact Hn].
Qed.

Lemma queue_sorted_remove h l1 p l2 :
  queue_sorted h (l1 ++ p :: l2) → queue_sorted h (l1 ++ l2).
Proof.
  unfold queue_sorted. rewrite !signal_times_app.
  intros (H1 & H2 & H12)%ascending_app. apply ascending_app.
  assert (∃ pre, signal_times h (p :: l2) = pre ++ signal_times h l2)
    as (pre & Hpre).
  { unfold signal_times. simpl. destruct (h !! p) as [tp|]; simpl.
    - by exists (m_NextSignal tp :: []).
    - by exists []. }
  rewrite Hpre in H2, H12.
  apply ascending_app in H2 as (_ & H2 & _).
  split; [exact H1|]. split; [exact H2|].
  eapply Forall_impl; [exact H12|]. intros t Ht. simpl in Ht.
  by apply Forall_app in Ht as [_ Ht].
Qed.

(** X8: [StopTimer] on a live timer returns true exactly when the queue has
    an entry for it; it then erases the first such entry and nothing else,
    so the other entries keep their order, and a queue in ascending order
    stays in ascending order.  Without such an entry the queue is left as it
    is.  The queue lock is taken and given back either way. *)
Theorem StopTimer_erases_first_entry (h : Heap) (queue : list nat) (p : nat)
    (tm : ITimer) :
  h !! p = Some tm →
  (p ∈ queue →
   ∃ l1 l2, queue = l1 ++ p :: l2 ∧ (p ∉ l1)
            ∧ StopTimer h queue (Some p) = (true, l1 ++ l2, [EvLock; EvUnlock]))
  ∧ (p ∉ queue →
     StopTimer h queue (Some p) = (false, queue, [EvLock; EvUnlock]))
  ∧ (queue_sorted h queue → queue_sorted h (StopTimer h queue (Some p)).1.2).
Proof.
  intros Hp. split; [|split].
  - intros Hin. destruct (elem_of_first_split p queue Hin) as (l1 & l2 & -> & Hn).
    exists l1, l2. split; [reflexivity|]. split; [exact Hn|].
    unfold StopTimer. by rewrite (stop_loop_first h p tm l1 l2 Hp Hn).
  - intros Hn. unfold StopTimer. by rewrite stop_loop_absent.
  - intros Hs. destruct (decide (p ∈ queue)) as [Hin|Hn].
    + destruct (elem_of_first_split p queue Hin) as (l1 & l2 & -> & Hn).
      unfold StopTimer. rewrite (stop_loop_first h p tm l1 l2 Hp Hn). simpl.
      by eapply queue_sorted_remove.
    + unfold StopTimer. by rewrite stop_loop_absent.
Qed.

Lemma StopTimer_erases_first_entry_witness :
  let h : Heap := {[ 1%nat := Scenario.one_shot 10;
                     2%nat := Scenario.one_shot 20 ]} in
  StopTimer h [1; 2; 1]%nat (Some 1%nat) = (true, [2; 1]%nat, [EvLock; EvUnlock])
  ∧ StopTimer h [2]%nat (Some 1%nat) = (false, [2]%nat, [EvLock; EvUnlock]).
Proof.
  intros h.
  destruct (StopTimer_erases_first_entry h [1; 2; 1]%nat 1%nat
              (Scenario.one_shot 10)) as (Hin & _ & _);
    [vm_compute; reflexivity|].
  destruct (StopTimer_erases_first_entry h [2]%nat 1%nat
              (Scenario.one_shot 10)) as (_ & Hout & _);
    [vm_compute; reflexivity|].
  split.
  - destruct Hin as (l1 & l2 & Hq & Hn & Hstop); [left|].
    rewrite Hstop. destruct l1 as [|x l1].
    + injection Hq as <-. reflexivity.
    + injection Hq as <- _. exfalso. apply Hn. left.
  - apply Hout. intros H. apply elem_of_cons in H as [H|H]; [discriminate|].
    by apply elem_of_nil in H.
Defined.

(** X9: a timer inserted into a queue that had no entry for it and stopped
    again leaves the queue exactly as it was, and [StopTimer] reports that
    it found the timer. *)
Theorem StopTimer_undoes_InsertTimer (h : Heap) (queue : list nat) (p : nat)
    (tm : ITimer) (a_bNewTimer : bool) :
  h !! p = Some tm → p ∉ queue →
  StopTimer h (InsertTimer h queue p tm a_bNewTimer).1 (Some p)
  = (true, queue, [EvLock; EvUnlock]).
Proof.
  intros Hp Hn.
  destruct (InsertTimer_position h queue p tm a_bNewTimer)
    as (l1 & l2 & -> & -> & _ & _).
  unfold StopTimer. rewrite (stop_loop_first h p tm l1 l2 Hp); [reflexivity|].
  intros Hin. apply Hn, elem_of_app. by left.
Qed.

Lemma StopTimer_undoes_InsertTimer_witness :
  let h : Heap := {[ 1%nat := Scenario.one_shot 10;
                     2%nat := Scenario.one_shot 30;
                     3%nat := Scenario.one_shot 20 ]} in
  StopTimer h (InsertTimer h [1; 2]%nat 3%nat (Scenario.one_shot 20) true).1
            (Some 3%nat)
  = (true, [1; 2]%nat, [EvLock; EvUnlock]).
Proof.
  intros h.
  apply (StopTimer_undoes_InsertTimer h [1; 2]%nat 3%nat (Scenario.one_shot 20) true).
  - vm_compute. reflexivity.
  - intros H. repeat (apply elem_of_cons in H as [H|H]; [discriminate|]).
    by apply elem_of_nil in H.
Defined.

(** ** What the drain loop hands out *)

Lemma entries_InsertTimer h queue p tm f x :
  entries x (InsertTimer h queue p tm f).1
  = (entries x queue + if decide (p = x) then 1 else 0)%nat.
Proof.
  destruct (InsertTimer_position h queue p tm f) as (l1 & l2 & -> & -> & _ & _).
  unfold entries. rewrite !count_occ_app. simpl.
  destruct (Nat.eq_dec p x), (decide (p = x)); try congruence; lia.
Qed.

Lemma entries_elem x queue : x ∈ queue ↔ (0 < entries x queue)%nat.
Proof. unfold entries. rewrite list_elem_of_In. apply count_occ_In. Qed.

(** One round of the drain loop, seen from a live timer [p]: a recurring
    timer keeps its entries; a one-shot timer loses one entry for each time
    it is handed out; a timer that is not due is not handed out. *)
Lemma drain_step_entries now s s' p tm :
  drain_step now s = Some s' →
  heap s !! p = Some tm →
  ∃ tm',
    heap s' !! p = Some tm'
    ∧ m_Recurring tm' = m_Recurring tm
    ∧ m_Interval tm' = m_Interval tm
    ∧ m_InvokeOnMain tm' = m_InvokeOnMain tm
    ∧ (entries p (fired s') = entries p (fired s) → tm' = tm)
    ∧ (m_Recurring tm = false → tm' = tm)
    ∧ (entries p (fired s) ≤ entries p (fired s'))%nat
    ∧ (PrimFloat.ltb now (m_NextSignal tm) = true → fired s' = fired s ∨
         ∃ x, x ≠ p ∧ fired s' = fired s ++ [x])
    ∧ (if m_Recurring tm then entries p (m_TimerQueue s') = entries p (m_TimerQueue s)
       else (entries p (fired s') + entries p (m_TimerQueue s')
             = entries p (fired s) + entries p (m_TimerQueue s))%nat).
Proof.
  unfold drain_step. intros Hstep Hp.
  destruct (m_TimerQueue s) as [|front rest] eqn:Hq; [discriminate|].
  destruct (heap s !! front) as [spTimer|] eqn:Hfront.
  - destruct (PrimFloat.ltb now (m_NextSignal spTimer)) eqn:Hdue; [discriminate|].
    set (work := if m_InvokeOnMain spTimer then InvokeOnMain front
                 else InvokeOnThread front) in Hstep.
    assert (dispatch_target work = front) as Hwork
        by (unfold work; by destruct (m_InvokeOnMain spTimer)).
    destruct (m_Recurring spTimer) eqn:Hrec.
    + destruct (InsertTimer _ rest front _ false) as [queue' evs] eqn:HI.
      assert (queue' = (InsertTimer (<[front:=set_NextSignal
                (PrimFloat.add (m_NextSignal spTimer) (recur_interval spTimer))
                spTimer]> (heap s)) rest front
              (set_NextSignal
                (PrimFloat.add (m_NextSignal spTimer) (recur_interval spTimer))
                spTimer) false).1) as Hqueue' by (by rewrite HI).
      injection Hstep as <-. unfold fired. simpl. rewrite fmap_app. simpl.
      rewrite Hwork. fold (fired s).
      destruct (decide (front = p)) as [->|Hne].
      * rewrite Hp in Hfront. injection Hfront as ->.
        eexists. rewrite lookup_insert_eq. split; [reflexivity|]. simpl.
        split; [reflexivity|]. split; [reflexivity|]. split; [reflexivity|].
        split; [|split; [|split; [|split]]].
        -- unfold entries. rewrite count_occ_app. simpl.
           destruct (Nat.eq_dec p p); [|done]. intros Hc. exfalso. lia.
        -- intros Hnot. congruence.
        -- unfold entries. rewrite count_occ_app. lia.
        -- intros Hnot. congruence.
        -- rewrite Hrec, Hqueue', entries_InsertTimer. unfold entries. simpl.
           destruct (Nat.eq_dec p p); [|done]. rewrite decide_True by done. lia.
      * exists tm. rewrite lookup_insert_ne by done.
        split; [exact Hp|]. split; [reflexivity|]. split; [reflexivity|].
        split; [reflexivity|]. split; [done|]. split; [done|]. split.
        { unfold entries. rewrite count_occ_app. lia. }
        split.
        -- intros _. right. by exists front.
        -- rewrite Hqueue', entries_InsertTimer, decide_False by done.
           unfold entries. rewrite count_occ_app. simpl.
           destruct (Nat.eq_dec front p); [done|].
           destruct (m_Recurring tm); lia.
    + injection Hstep as <-. unfold fired. simpl. rewrite fmap_app. simpl.
      rewrite Hwork. fold (fired s). exists tm.
      split; [exact Hp|]. split; [reflexivity|]. split; [reflexivity|].
      split; [reflexivity|]. split; [done|]. split; [done|]. split.
      { unfold entries. rewrite count_occ_app. lia. }
      destruct (decide (front = p)) as [->|Hne].
      * rewrite Hp in Hfront. injection Hfront as ->. split.
        -- intros Hnot. congruence.
        -- rewrite Hrec. unfold entries. rewrite count_occ_app. simpl.
           destruct (Nat.eq_dec p p); [lia|done].
      * split.
        -- intros _. right. by exists front.
        -- unfold entries. rewrite count_occ_app. simpl.
           destruct (Nat.eq_dec front p); [done|].
           destruct (m_Recurring tm); lia.
  - injection Hstep as <-. unfold fired. simpl. exists tm.
    split; [exact Hp|]. split; [reflexivity|]. split; [reflexivity|].
    split; [reflexivity|]. split; [done|]. split; [done|]. split; [done|].
    split; [by left|].
    assert (front ≠ p) as Hne by (intros ->; congruence).
    unfold entries. simpl. destruct (Nat.eq_dec front p); [done|].
    by destruct (m_Recurring tm).
Qed.

Lemma drain_entries fuel now s p tm :
  heap s !! p = Some tm →
  let s' := (drain fuel now s).2 in
  ∃ tm',
    heap s' !! p = Some tm'
    ∧ m_Recurring tm' = m_Recurring tm
    ∧ m_Interval tm' = m_Interval tm
    ∧ m_InvokeOnMain tm' = m_InvokeOnMain tm
    ∧ (m_Recurring tm = false → tm' = tm)
    ∧ (PrimFloat.ltb now (m_NextSignal tm) = true →
       entries p (fired s') = entries p (fired s) ∧ tm' = tm)
    ∧ (entries p (fired s) ≤ entries p (fired s'))%nat
    ∧ (if m_Recurring tm then entries p (m_TimerQueue s') = entries p (m_TimerQueue s)
       else (entries p (fired s') + entries p (m_TimerQueue s')
             = entries p (fired s) + entries p (m_TimerQueue s))%nat).
Proof.
  revert s tm. induction fuel as [|fuel IH]; intros s tm Hp; simpl.
  { exists tm. split_and!; try done. by destruct (m_Recurring tm). }
  destruct (drain_step now s) as [s1|] eqn:Hstep; simpl.
  2:{ exists tm. split_and!; try done. by destruct (m_Recurring tm). }
  destruct (drain_step_entries now s s1 p tm Hstep Hp)
    as (tm1 & Hp1 & Hr1 & Hi1 & Hm1 & Hsame1 & Hone1 & Hmono1 & Hearly1 & Hcount1).
  destruct (IH s1 tm1 Hp1)
    as (tm' & Hp' & Hr' & Hi' & Hm' & Hone' & Hearly' & Hmono' & Hcount').
  exists tm'. split; [exact Hp'|]. split; [congruence|]. split; [congruence|].
  split; [congruence|]. split; [|split; [|split; [lia|]]].
  - intros Hrec. rewrite <- (Hone1 Hrec). apply Hone'. congruence.
  - intros Hearly.
    assert (entries p (fired s1) = entries p (fired s)) as H1.
    { destruct (Hearly1 Hearly) as [->|(x & Hx & ->)]; [done|].
      unfold entries. rewrite count_occ_app. simpl.
      destruct (Nat.eq_dec x p); [done|lia]. }
    pose proof (Hsame1 H1) as ->.
    destruct (Hearly' Hearly) as [H2 ->]. split; [lia|reflexivity].
  - rewrite Hr1 in Hcount'. destruct (m_Recurring tm); lia.
Qed.

(** X10: the drain loop hands out a live one-shot timer at most once for
    each entry it has in the queue: every hand-out uses up one entry, and
    the timer itself is left untouched. *)
Theorem drain_one_shot_once_per_entry (fuel : nat) (now : float) (s : Pool)
    (p : nat) (tm : ITimer) :
  heap s !! p = Some tm → m_Recurring tm = false →
  let s' := (drain fuel now s).2 in
  heap s' !! p = Some tm
  ∧ (entries p (fired s') + entries p (m_TimerQueue s')
     = entries p (fired s) + entries p (m_TimerQueue s))%nat.
Proof.
  intros Hp Hrec s'.
  destruct (drain_entries fuel now s p tm Hp)
    as (tm' & Hp' & _ & _ & _ & Hone & _ & _ & Hcount).
  fold s' in Hp', Hcount. rewrite Hrec in Hcount.
  rewrite (Hone Hrec) in Hp'. by split.
Qed.

Lemma drain_one_shot_once_per_entry_witness :
  let h : Heap := {[ 1%nat := Scenario.one_shot 10;
                     2%nat := Scenario.recurring 10 4 ]} in
  let s' := (drain 20 25 (mkPool h [1; 2]%nat [] [])).2 in
  entries 1%nat (fired s') = 1%nat
  ∧ entries 1%nat (m_TimerQueue s') = 0%nat
  ∧ fired s' = [1; 2; 2; 2; 2]%nat.
Proof.
  intros h s'.
  destruct (drain_one_shot_once_per_entry 20 25 (mkPool h [1; 2]%nat [] [])
              1%nat (Scenario.one_shot 10)) as [_ Hcount];
    [vm_compute; reflexivity|reflexivity|].
  fold s' in Hcount.
  assert (fired s' = [1; 2; 2; 2; 2]%nat) as Hfired by (vm_compute; reflexivity).
  rewrite Hfired in *. split; [reflexivity|]. split; [|reflexivity].
  change (entries 1%nat [1; 2; 2; 2; 2]%nat) with 1%nat in Hcount.
  change (entries 1%nat (m_TimerQueue (mkPool h [1; 2]%nat [] []))) with 1%nat in Hcount.
  change (entries 1%nat (fired (mkPool h [1; 2]%nat [] []))) with 0%nat in Hcount.
  lia.
Defined.

(** X11: the drain loop never hands out a live timer whose next signal is
    strictly later than the time it drains for: the timer is not handed
    out, keeps its entries in the queue and is not changed. *)
Theorem drain_never_early (fuel : nat) (now : float) (s : Pool) (p : nat)
    (tm : ITimer) :
  heap s !! p = Some tm →
  PrimFloat.ltb now (m_NextSignal tm) = true →
  let s' := (drain fuel now s).2 in
  entries p (fired s') = entries p (fired s)
  ∧ entries p (m_TimerQueue s') = entries p (m_TimerQueue s)
  ∧ heap s' !! p = Some tm.
Proof.
  intros Hp Hearly s'.
  destruct (drain_entries fuel now s p tm Hp)
    as (tm' & Hp' & _ & _ & _ & _ & Hnot & _ & Hcount).
  fold s' in Hp', Hnot, Hcount. destruct (Hnot Hearly) as [Hfired ->].
  split; [exact Hfired|]. split; [|exact Hp'].
  destruct (m_Recurring tm); lia.
Qed.

Lemma drain_never_early_witness :
  let h : Heap := {[ 1%nat := Scenario.recurring 10 4;
                     2%nat := Scenario.one_shot 30 ]} in
  let s' := (drain 20 25 (mkPool h [1; 2]%nat [] [])).2 in
  entries 2%nat (fired s') = 0%nat
  ∧ entries 2%nat (m_TimerQueue s') = 1%nat
  ∧ fired s' = [1; 1; 1; 1]%nat.
Proof.
  intros h s'.
  destruct (drain_never_early 20 25 (mkPool h [1; 2]%nat [] []) 2%nat
              (Scenario.one_shot 30)) as (Hfired & Hqueue & _);
    [vm_compute; reflexivity|vm_compute; reflexivity|].
  fold s' in Hfired, Hqueue. split; [exact Hfired|]. split; [exact Hqueue|].
  vm_compute. reflexivity.
Defined.

(** X12: the drain loop never drops a live recurring timer: after any
    number of rounds the timer has as many entries in the queue as before,
    and it is still recurring, with the interval and the thread choice it
    had. *)
Theorem drain_keeps_recurring (fuel : nat) (now : float) (s : Pool) (p : nat)
    (tm : ITimer) :
  heap s !! p = Some tm → m_Recurring tm = true →
  let s' := (drain fuel now s).2 in
  entries p (m_TimerQueue s') = entries p (m_TimerQueue s)
  ∧ ∃ tm', heap s' !! p = Some tm'
           ∧ m_Recurring tm' = true
           ∧ m_Interval tm' = m_Interval tm
           ∧ m_InvokeOnMain tm' = m_InvokeOnMain tm.
Proof.
  intros Hp Hrec s'.
  destruct (drain_entries fuel now s p tm Hp)
    as (tm' & Hp' & Hr' & Hi' & Hm' & _ & _ & _ & Hcount).
  fold s' in Hp', Hcount. rewrite Hrec in Hcount.
  split; [exact Hcount|]. exists tm'. split_and!; congruence.
Qed.

Lemma drain_keeps_recurring_witness :
  let h : Heap := {[ 1%nat := Scenario.recurring 10 4;
                     2%nat := Scenario.one_shot 30 ]} in
  let s' := (drain 20 25 (mkPool h [1; 2]%nat [] [])).2 in
  entries 1%nat (m_TimerQueue s') = 1%nat
  ∧ m_TimerQueue s' = [1; 2]%nat
  ∧ m_NextSignal <$> heap s' !! 1%nat = Some 26%float.
Proof.
  intros h s'.
  destruct (drain_keeps_recurring 20 25 (mkPool h [1; 2]%nat [] []) 1%nat
              (Scenario.recurring 10 4)) as (Hqueue & _);
    [vm_compute; reflexivity|reflexivity|].
  fold s' in Hqueue. split; [exact Hqueue|].
  split; vm_compute; reflexivity.
Defined.

Lemma InsertTimer_elem_of h queue p tm f x :
  x ∈ (InsertTimer h queue p tm f).1 ↔ x = p ∨ x ∈ queue.
Proof.
  destruct (InsertTimer_position h queue p tm f) as (l1 & l2 & -> & -> & _ & _).
  rewrite !elem_of_app, elem_of_cons. tauto.
Qed.

Lemma drain_step_members now s s' :
  drain_step now s = Some s' →
  (∀ x, x ∈ m_TimerQueue s' → x ∈ m_TimerQueue s)
  ∧ (∀ x, is_Some (heap s' !! x) ↔ is_Some (heap s !! x))
  ∧ (∀ x, x ∈ fired s' →
          x ∈ fired s ∨ (x ∈ m_TimerQueue s ∧ is_Some (heap s !! x))).
Proof.
  unfold drain_step. intros Hstep.
  destruct (m_TimerQueue s) as [|front rest] eqn:Hq; [discriminate|].
  destruct (heap s !! front) as [spTimer|] eqn:Hfront.
  - destruct (PrimFloat.ltb now (m_NextSignal spTimer)); [discriminate|].
    assert (∀ x, x ∈ dispatch_target <$>
                   (dispatched s ++ [if m_InvokeOnMain spTimer
                                     then InvokeOnMain front
                                     else InvokeOnThread front]) →
                 x ∈ fired s ∨ (x ∈ front :: rest ∧ is_Some (heap s !! x)))
      as Hfired.
    { intros x. rewrite fmap_app, elem_of_app. intros [Hx|Hx]; [by left|right].
      assert (x = front) as ->.
      { destruct (m_InvokeOnMain spTimer); simpl in Hx;
          by apply list_elem_of_singleton in Hx. }
      split; [left|by rewrite Hfront]. }
    destruct (m_Recurring spTimer).
    + destruct (InsertTimer _ rest front _ false) as [queue' evs] eqn:HI.
      injection Hstep as <-. unfold fired. simpl. split; [|split].
      * intros x Hx. replace queue' with (queue', evs).1 in Hx by reflexivity.
        rewrite <- HI in Hx. apply InsertTimer_elem_of in Hx as [->|Hx];
          [left|by right].
      * intros x. destruct (decide (front = x)) as [<-|Hne].
        -- rewrite lookup_insert_eq, Hfront. split; eauto.
        -- by rewrite lookup_insert_ne.
      * exact Hfired.
    + injection Hstep as <-. unfold fired. simpl. split; [|split].
      * intros x Hx. by right.
      * done.
      * exact Hfired.
  - injection Hstep as <-. unfold fired. simpl. split; [|split].
    + intros x Hx. by right.
    + done.
    + intros x Hx. by left.
Qed.

Lemma drain_members fuel now s :
  (∀ x, x ∈ m_TimerQueue (drain fuel now s).2 → x ∈ m_TimerQueue s)
  ∧ (∀ x, is_Some (heap (drain fuel now s).2 !! x) ↔ is_Some (heap s !! x))
  ∧ (∀ x, x ∈ fired (drain fuel now s).2 →
          x ∈ fired s ∨ (x ∈ m_TimerQueue s ∧ is_Some (heap s !! x))).
Proof.
  revert s. induction fuel as [|fuel IH]; intros s; simpl.
  { split_and!; try done. intros x Hx. by left. }
  destruct (drain_step now s) as [s1|] eqn:Hstep; simpl.
  2:{ split_and!; try done. intros x Hx. by left. }
  destruct (drain_step_members now s s1 Hstep) as (Hqueue & Hheap & Hfired).
  destruct (IH s1) as (Hqueue' & Hheap' & Hfired').
  split; [|split].
  - intros x Hx. by apply Hqueue, Hqueue'.
  - intros x. by rewrite Hheap', Hheap.
  - intros x Hx. destruct (Hfired' x Hx) as [H1|[H1 H2]].
    + by apply Hfired.
    + right. split; [by apply Hqueue|by apply Hheap].
Qed.

(** X13: whatever the drain loop hands out was in the queue when the loop
    began and belongs to a timer that is still alive: a timer with no entry
    in the queue, or one its owner has released, is never handed out; and
    the loop adds no timer to the queue that was not in it. *)
Theorem drain_fires_only_queued (fuel : nat) (now : float) (s : Pool) (x : nat) :
  (x ∈ fired (drain fuel now s).2 →
   x ∈ fired s ∨ (x ∈ m_TimerQueue s ∧ is_Some (heap s !! x)))
  ∧ (x ∈ m_TimerQueue (drain fuel now s).2 → x ∈ m_TimerQueue s).
Proof.
  destruct (drain_members fuel now s) as (Hqueue & _ & Hfired).
  split; [apply Hfired|apply Hqueue].
Qed.

Lemma drain_fires_only_queued_witness :
  let h : Heap := {[ 1%nat := Scenario.one_shot 10 ]} in
  let s := mkPool h [1; 7]%nat [] [] in
  fired (drain 5 25 s).2 = [1]%nat
  ∧ (1%nat ∈ m_TimerQueue s ∧ is_Some (heap s !! 1%nat)).
Proof.
  intros h s.
  assert (fired (drain 5 25 s).2 = [1]%nat) as Hfired by (vm_compute; reflexivity).
  split; [exact Hfired|].
  destruct (drain_fires_only_queued 5 25 s 1%nat) as [Hf _].
  destruct Hf as [H|H]; [rewrite Hfired; left|by apply elem_of_nil in H|exact H].
Defined.

Lemma entries_app p l1 l2 :
  entries p (l1 ++ l2) = (entries p l1 + entries p l2)%nat.
Proof. apply count_occ_app. Qed.

(** X14: a timer that has been stopped does not run: when a live timer has
    one entry in the queue, [StopTimer] finds it and the drain loop, run on
    the queue [StopTimer] leaves, never hands the timer out; and after
    [StopAllTimers] the drain loop hands out nothing at all. *)
Theorem stopped_timer_never_fires (h : Heap) (queue : list nat) (p : nat)
    (tm : ITimer) (fuel : nat) (now : float) :
  h !! p = Some tm → entries p queue = 1%nat →
  (StopTimer h queue (Some p)).1.1 = true
  ∧ (p ∉ fired (drain fuel now
                  (mkPool h (StopTimer h queue (Some p)).1.2 [] [])).2)
  ∧ fired (drain fuel now (mkPool h (StopAllTimers queue).1 [] [])).2 = [].
Proof.
  intros Hp Hone.
  assert (p ∈ queue) as Hin by (apply entries_elem; lia).
  destruct (elem_of_first_split p queue Hin) as (l1 & l2 & -> & Hn).
  unfold StopTimer. rewrite (stop_loop_first h p tm l1 l2 Hp Hn). simpl.
  split; [reflexivity|]. split.
  - intros Hfired.
    apply (proj2 (proj2 (drain_members fuel now _))) in Hfired as [H|[H _]].
    + by apply elem_of_nil in H.
    + simpl in H. apply entries_elem in H.
      rewrite entries_app in Hone, H. unfold entries in Hone, H. simpl in Hone.
      destruct (Nat.eq_dec p p); [lia|done].
  - by destruct fuel.
Qed.

Lemma stopped_timer_never_fires_witness :
  let h : Heap := {[ 1%nat := Scenario.one_shot 10;
                     2%nat := Scenario.one_shot 20 ]} in
  (StopTimer h [1; 2]%nat (Some 1%nat)).1.1 = true
  ∧ (1%nat ∉ fired (drain 5 25
                      (mkPool h (StopTimer h [1; 2]%nat (Some 1%nat)).1.2 [] [])).2)
  ∧ fired (drain 5 25 (mkPool h (StopAllTimers [1; 2]%nat).1 [] [])).2 = [].
Proof.
  intros h.
  apply (stopped_timer_never_fires h [1; 2]%nat 1%nat (Scenario.one_shot 10) 5 25).
  - vm_compute. reflexivity.
  - reflexivity.
Defined.

(** ** When the drain loop stops *)

Lemma SFltb_le_trans a b c :
  SFltb a b = true → SFltb c b = false → SFeqb c c = true → SFltb a c = true.
Proof.
  unfold SFltb, SFeqb, SFcompare.
  destruct a as [sa|sa| |sa ma ea], b as [sb|sb| |sb mb eb],
           c as [sc|sc| |sc mc ec];
    try discriminate;
    try (destruct sa, sb;
         (discriminate || (try destruct sc; (discriminate || reflexivity || idtac))));
    try (destruct sa; discriminate || (destruct sc; discriminate || reflexivity));
    try (destruct sb; discriminate || (destruct sc; discriminate || reflexivity)).
  all: change (Pos.compare_cont Eq) with Pos.compare.
  all: destruct (Z.compare_spec ea eb), (Z.compare_spec ec eb),
         (Z.compare_spec ea ec);
    try discriminate; try reflexivity; try lia.
  all: subst.
  all: destruct (Pos.compare_spec ma mb), (Pos.compare_spec mc mb),
         (Pos.compare_spec ma mc);
    simpl; try discriminate; try reflexivity; try lia.
Qed.

(** [a < b], not [c < b] and [c] a number give [a < c]. *)
Lemma float_ltb_le_trans (a b c : float) :
  PrimFloat.ltb a b = true → PrimFloat.ltb c b = false → is_number c →
  PrimFloat.ltb a c = true.
Proof.
  unfold is_number. rewrite !ltb_spec, FloatAxioms.eqb_spec. apply SFltb_le_trans.
Qed.

Lemma signal_times_cons h x queue :
  signal_times h (x :: queue)
  = match h !! x with
    | Some tx => m_NextSignal tx :: signal_times h queue
    | None => signal_times h queue
    end.
Proof. unfold signal_times. simpl. by destruct (h !! x). Qed.

Lemma signal_times_insert_ne h p tm queue :
  p ∉ queue → signal_times (<[ p := tm ]> h) queue = signal_times h queue.
Proof.
  induction queue as [|x queue IH]; intros Hn; [reflexivity|].
  apply not_elem_of_cons in Hn as [Hx Hn].
  rewrite !signal_times_cons, lookup_insert_ne by done. by rewrite (IH Hn).
Qed.

Lemma drain_step_sorted now s s' :
  drain_step now s = Some s' →
  NoDup (m_TimerQueue s) → queue_sorted (heap s) (m_TimerQueue s) →
  NoDup (m_TimerQueue s') ∧ queue_sorted (heap s') (m_TimerQueue s').
Proof.
  unfold drain_step. intros Hstep Hnd Hs.
  destruct (m_TimerQueue s) as [|front rest] eqn:Hq; [discriminate|].
  apply NoDup_cons in Hnd as [Hfr Hnd].
  assert (queue_sorted (heap s) rest) as Hrest.
  { revert Hs. unfold queue_sorted, signal_times. simpl.
    destruct (heap s !! front); simpl; [by intros [_ ?]|done]. }
  destruct (heap s !! front) as [spTimer|] eqn:Hfront.
  - destruct (PrimFloat.ltb now (m_NextSignal spTimer)); [discriminate|].
    destruct (m_Recurring spTimer).
    + destruct (InsertTimer _ rest front _ false) as [queue' evs] eqn:HI.
      injection Hstep as <-. simpl.
      replace queue' with (queue', evs).1 by reflexivity. rewrite <- HI.
      split.
      * destruct (InsertTimer_position
                    (<[front:=set_NextSignal
                        (PrimFloat.add (m_NextSignal spTimer) (recur_interval spTimer))
                        spTimer]> (heap s)) rest front
                    (set_NextSignal
                        (PrimFloat.add (m_NextSignal spTimer) (recur_interval spTimer))
                        spTimer) false) as (l1 & l2 & Hr & -> & _ & _).
        subst rest. eapply NoDup_Permutation_proper;
          [symmetry; apply Permutation_middle|].
        by apply NoDup_cons.
      * apply InsertTimer_sorted; [by rewrite lookup_insert_eq|].
        unfold queue_sorted. by rewrite signal_times_insert_ne.
    + injection Hstep as <-. by split.
  - injection Hstep as <-. by split.
Qed.

Lemma drain_sorted fuel now s :
  NoDup (m_TimerQueue s) → queue_sorted (heap s) (m_TimerQueue s) →
  NoDup (m_TimerQueue (drain fuel now s).2)
  ∧ queue_sorted (heap (drain fuel now s).2) (m_TimerQueue (drain fuel now s).2).
Proof.
  revert s. induction fuel as [|fuel IH]; intros s Hnd Hs; simpl; [by split|].
  destruct (drain_step now s) as [s1|] eqn:Hstep; simpl; [|by split].
  destruct (drain_step_sorted now s s1 Hstep Hnd Hs) as [Hnd1 Hs1].
  by apply IH.
Qed.

Lemma drain_finished fuel now s :
  (drain fuel now s).1 = true → drain_step now (drain fuel now s).2 = None.
Proof.
  revert s. induction fuel as [|fuel IH]; intros s; simpl; [discriminate|].
  destruct (drain_step now s) as [s1|] eqn:Hstep; simpl; [apply IH|done].
Qed.

(** X15: the drain loop keeps a queue without doubled entries in ascending
    order, and when it stops on such a queue no timer that is due is left
    behind: every live timer still queued, whose next signal is a number,
    is strictly later than the time the loop drained for. *)
Theorem drain_leaves_no_due_timer (fuel : nat) (now : float) (s : Pool) :
  NoDup (m_TimerQueue s) → queue_sorted (heap s) (m_TimerQueue s) →
  let s' := (drain fuel now s).2 in
  NoDup (m_TimerQueue s')
  ∧ queue_sorted (heap s') (m_TimerQueue s')
  ∧ ((drain fuel now s).1 = true →
     ∀ x tx, x ∈ m_TimerQueue s' → heap s' !! x = Some tx →
             is_number (m_NextSignal tx) →
             PrimFloat.ltb now (m_NextSignal tx) = true).
Proof.
  intros Hnd Hs s'.
  destruct (drain_sorted fuel now s Hnd Hs) as [Hnd' Hs']. fold s' in Hnd', Hs'.
  split; [exact Hnd'|]. split; [exact Hs'|].
  intros Hdone x tx Hx Htx Hnum.
  apply drain_finished in Hdone. fold s' in Hdone. unfold drain_step in Hdone.
  destruct (m_TimerQueue s') as [|front rest] eqn:Hq; [by apply elem_of_nil in Hx|].
  destruct (heap s' !! front) as [sp|] eqn:Hfront; [|discriminate].
  destruct (PrimFloat.ltb now (m_NextSignal sp)) eqn:Hlate.
  2:{ destruct (m_Recurring sp); [|discriminate].
      by destruct (InsertTimer _ _ _ _ _). }
  apply elem_of_cons in Hx as [->|Hx]; [congruence|].
  unfold queue_sorted, signal_times in Hs'. simpl in Hs'.
  rewrite Hfront in Hs'. simpl in Hs'. destruct Hs' as [Hhead _].
  rewrite Forall_forall in Hhead.
  apply (float_ltb_le_trans _ (m_NextSignal sp)); [exact Hlate| |exact Hnum].
  apply Hhead. apply list_elem_of_omap. exists x. split; [exact Hx|].
  by rewrite Htx.
Qed.

Lemma drain_leaves_no_due_timer_witness :
  let h : Heap := {[ 1%nat := Scenario.recurring 10 8;
                     2%nat := Scenario.one_shot 20;
                     3%nat := Scenario.one_shot 40 ]} in
  let s' := (drain 10 25 (mkPool h [1; 2; 3]%nat [] [])).2 in
  fired s' = [1; 1; 2]%nat
  ∧ m_TimerQueue s' = [1; 3]%nat
  ∧ ∀ x tx, x ∈ m_TimerQueue s' → heap s' !! x = Some tx →
            is_number (m_NextSignal tx) →
            PrimFloat.ltb 25 (m_NextSignal tx) = true.
Proof.
  intros h s'.
  destruct (drain_leaves_no_due_timer 10 25 (mkPool h [1; 2; 3]%nat [] []))
    as (_ & _ & Hdue).
  - simpl. repeat constructor; intros H;
      repeat (apply elem_of_cons in H as [H|H]; [discriminate|]);
      by apply elem_of_nil in H.
  - vm_compute. repeat constructor.
  - split; [vm_compute; reflexivity|]. split; [vm_compute; reflexivity|].
    apply Hdue. vm_compute. reflexivity.
Defined.

(** X16: on a queue whose live timers are all one-shot the drain loop stops
    within one round more than the queue is long.  It has then handed out,
    in queue order, the live timers ahead of the first live timer that is
    not due, has dropped the expired entries among them, and has left the
    rest of the queue, the timers and the lock alone. *)
Theorem drain_one_shot_queue (fuel : nat) (now : float) (s : Pool) :
  (∀ x tx, x ∈ m_TimerQueue s → heap s !! x = Some tx → m_Recurring tx = false) →
  (length (m_TimerQueue s) < fuel)%nat →
  ∃ l1 l2,
    m_TimerQueue s = l1 ++ l2
    ∧ Forall (not_later (heap s) now) l1
    ∧ later_head (heap s) now l2
    ∧ (drain fuel now s).1 = true
    ∧ heap (drain fuel now s).2 = heap s
    ∧ m_TimerQueue (drain fuel now s).2 = l2
    ∧ fired (drain fuel now s).2
      = fired s ++ List.filter (λ x, negb (expired (heap s) x)) l1
    ∧ sync (drain fuel now s).2 = sync s.
Proof.
  revert s. induction fuel as [|fuel IH]; intros s Hone Hfuel; [lia|].
  simpl. unfold drain_step.
  destruct (m_TimerQueue s) as [|front rest] eqn:Hq.
  { exists [], []. simpl. rewrite Hq, app_nil_r. by split_and!. }
  assert (∀ x tx, x ∈ rest → heap s !! x = Some tx → m_Recurring tx = false)
    as Hone' by (intros x tx Hx; apply Hone; by right).
  simpl in Hfuel.
  destruct (heap s !! front) as [spTimer|] eqn:Hfront.
  - destruct (PrimFloat.ltb now (m_NextSignal spTimer)) eqn:Hlate.
    + exists [], (front :: rest). simpl. rewrite Hq, app_nil_r.
      split_and!; try done. eauto.
    + rewrite (Hone front spTimer (list_elem_of_here _ _) Hfront).
      set (s1 := mkPool _ rest _ _).
      destruct (IH s1 Hone' ltac:(simpl; lia))
        as (l1 & l2 & Hr & Hl1 & Hl2 & Hflag & Hheap & Hqueue & Hfired & Hsync).
      simpl in Hr. subst rest.
      exists (front :: l1), l2. split; [reflexivity|].
      split; [constructor; [intros tx Htx; congruence|exact Hl1]|].
      split; [exact Hl2|]. split; [exact Hflag|]. split; [exact Hheap|].
      split; [exact Hqueue|]. split; [|exact Hsync].
      rewrite Hfired. unfold fired. simpl. unfold expired at 2.
      rewrite Hfront, fmap_app. simpl. rewrite <- app_assoc. simpl.
      by destruct (m_InvokeOnMain spTimer).
  - set (s1 := mkPool _ rest _ _).
    destruct (IH s1 Hone' ltac:(simpl; lia))
      as (l1 & l2 & Hr & Hl1 & Hl2 & Hflag & Hheap & Hqueue & Hfired & Hsync).
    simpl in Hr. subst rest.
    exists (front :: l1), l2. split; [reflexivity|].
    split; [constructor; [intros tx Htx; congruence|exact Hl1]|].
    split; [exact Hl2|]. split; [exact Hflag|]. split; [exact Hheap|].
    split; [exact Hqueue|]. split; [|exact Hsync].
    rewrite Hfired. simpl. unfold expired at 2. by rewrite Hfront.
Qed.

Lemma drain_one_shot_queue_witness :
  let h : Heap := {[ 1%nat := Scenario.one_shot 10;
                     3%nat := Scenario.one_shot 20;
                     4%nat := Scenario.one_shot 30 ]} in
  let r := drain 5 25 (mkPool h [1; 2; 3; 4]%nat [] []) in
  r.1 = true ∧ fired r.2 = [1; 3]%nat ∧ m_TimerQueue r.2 = [4]%nat.
Proof.
  intros h r.
  destruct (drain_one_shot_queue 5 25 (mkPool h [1; 2; 3; 4]%nat [] []))
    as (l1 & l2 & _ & _ & _ & Hflag & _ & _ & _ & _).
  - intros x tx Hx Htx. simpl in Hx, Htx.
    repeat (apply elem_of_cons in Hx as [->|Hx];
            [vm_compute in Htx; try discriminate; by injection Htx as <-|]).
    by apply elem_of_nil in Hx.
  - simpl. lia.
  - split; [exact Hflag|]. split; vm_compute; reflexivity.
Defined.

End TimerPoolSpec.
